(** * Heuristic C-summary extractor: shallow embedding and verification

    This development embeds the regex-based fallback parser of
    [src/parser_lib.py] ([_parse_with_regex]) and the helpers of
    [src/utils.py] ([strip_comments], [split_args]) and proves properties
    of them.

    Text is modelled as a list of 8-bit characters: a Python [str] whose
    code points are all below 256.  The character classes ([\s], [\w],
    [str.isspace], line boundaries of [str.splitlines]) are the ones
    Python 3 uses for these code points.

    The seven regular expressions of the program are written in a small
    regex syntax ([regex]) and run by a backtracking matcher ([exec]) with
    the priorities of Python's [re] module (greedy and lazy repetition,
    optional groups, capture groups, [^] and [$] under [re.MULTILINE],
    [.] with and without [re.DOTALL]).  Where a comment quotes a pattern
    of the source, a blank separates a star from a closing parenthesis
    that follows it; the blank is not part of the pattern. *)

From Stdlib Require Import Ascii String DecimalString.
From Stdlib Require Import ZArith NArith Lia Bool Arith Sorted List.
Import ListNotations.

Set Implicit Arguments.

(* ================================================================== *)
(** ** Text and characters *)

Definition text := list ascii.

(** [T "abc"] is the text of a string literal. *)
Definition T (s : string) : text := list_ascii_of_string s.

Definition code (c : ascii) : N := N_of_ascii c.

Definition in_range (lo hi : N) (c : ascii) : bool :=
  (N.leb lo (code c) && N.leb (code c) hi)%bool.

Definition LF : ascii := ascii_of_N 10.
Definition CR : ascii := ascii_of_N 13.
Definition TAB : ascii := ascii_of_N 9.

(** [str.isspace] and the regex class [\s] (the same table in CPython):
    TAB LF VT FF CR, FS GS RS US, space, NEL and NBSP. *)
Definition is_space (c : ascii) : bool :=
  in_range 9 13 c || in_range 28 32 c
  || N.eqb (code c) 133 || N.eqb (code c) 160.

(** The regex class [\w] on [str] patterns: alphanumeric code points and
    the underscore. *)
Definition is_word (c : ascii) : bool :=
  in_range 48 57 c || in_range 65 90 c || in_range 97 122 c
  || N.eqb (code c) 95
  || N.eqb (code c) 170 || in_range 178 179 c || N.eqb (code c) 181
  || in_range 185 186 c || in_range 188 190 c
  || in_range 192 214 c || in_range 216 246 c || in_range 248 255 c.

(** [[A-Za-z_]] *)
Definition is_ident_start (c : ascii) : bool :=
  in_range 65 90 c || in_range 97 122 c || N.eqb (code c) 95.

(** [.] without [re.DOTALL]: anything but a line feed. *)
Definition is_dot (c : ascii) : bool := negb (Ascii.eqb c LF).

(** [.] with [re.DOTALL] ([re.S]). *)
Definition is_any (c : ascii) : bool := true.

(** the class r"[\w \*\(\)]" of the function patterns. *)
Definition is_type_char (c : ascii) : bool :=
  is_word c || Ascii.eqb c " " || Ascii.eqb c "*"
  || Ascii.eqb c "(" || Ascii.eqb c ")".

(** Line boundaries of [str.splitlines]: LF VT FF CR, FS GS RS, NEL. *)
Definition is_linebreak (c : ascii) : bool :=
  in_range 10 13 c || in_range 28 30 c || N.eqb (code c) 133.

(** An identifier in the sense of the patterns: r"[A-Za-z_]\w*". *)
Definition is_identifier (t : text) : bool :=
  match t with
  | [] => false
  | c :: r => is_ident_start c && forallb is_word r
  end.

Definition text_eqb (a b : text) : bool :=
  if list_eq_dec ascii_dec a b then true else false.

(* ------------------------------------------------------------------ *)
(** ** The [str] methods the program uses *)

Fixpoint dropwhile (p : ascii -> bool) (t : text) : text :=
  match t with
  | [] => []
  | c :: r => if p c then dropwhile p r else t
  end.

Definition lstrip_with (p : ascii -> bool) (t : text) : text := dropwhile p t.
Definition rstrip_with (p : ascii -> bool) (t : text) : text :=
  rev (dropwhile p (rev t)).

(** [s.strip()] *)
Definition strip (t : text) : text := rstrip_with is_space (lstrip_with is_space t).

(** [s.strip(',')] *)
Definition strip_char (x : ascii) (t : text) : text :=
  rstrip_with (Ascii.eqb x) (lstrip_with (Ascii.eqb x) t).

(** [s.split(sep)] for a one-character separator: always a non-empty list. *)
Fixpoint split (sep : ascii) (t : text) : list text :=
  match t with
  | [] => [[]]
  | c :: r =>
      if Ascii.eqb c sep then [] :: split sep r
      else match split sep r with
           | [] => [[c]]
           | p :: ps => (c :: p) :: ps
           end
  end.

(** [s.split(sep)[0]] *)
Definition split_head (sep : ascii) (t : text) : text := hd [] (split sep t).

(** [s.rsplit(' ', 1)]: one or two parts, cut at the last separator. *)
Definition rsplit1 (sep : ascii) (t : text) : list text :=
  match split sep (rev t) with
  | [] => [t]
  | [_] => [t]
  | lastr :: _ =>
      [firstn (length t - length lastr - 1) t; rev lastr]
  end.

(** [s.splitlines()] *)
Fixpoint splitlines (t : text) : list text :=
  match t with
  | [] => []
  | c :: r =>
      if is_linebreak c then
        match r with
        | c2 :: r2 =>
            if (Ascii.eqb c CR && Ascii.eqb c2 LF)%bool
            then [] :: splitlines r2
            else [] :: splitlines r
        | [] => [[]]
        end
      else match splitlines r with
           | [] => [[c]]
           | l :: ls => (c :: l) :: ls
           end
  end.

(** [s.split()]: maximal runs of non-whitespace. [cur] is the current
    run, reversed. *)
Fixpoint split_ws_from (cur : text) (t : text) : list text :=
  match t with
  | [] => match cur with [] => [] | _ => [rev cur] end
  | c :: r =>
      if is_space c then
        match cur with
        | [] => split_ws_from [] r
        | _ => rev cur :: split_ws_from [] r
        end
      else split_ws_from (c :: cur) r
  end.

Definition split_ws (t : text) : list text := split_ws_from [] t.

(** [sep.join(parts)] *)
Fixpoint join (sep : text) (parts : list text) : text :=
  match parts with
  | [] => []
  | [p] => p
  | p :: ps => p ++ sep ++ join sep ps
  end.

(** [c.lower()] on code points below 256. *)
Definition lower_char (c : ascii) : ascii :=
  if in_range 65 90 c || in_range 192 214 c || in_range 216 222 c
  then ascii_of_N (code c + 32) else c.

Definition lower (t : text) : text := map lower_char t.

(** [s.startswith(p)] *)
Fixpoint startswith (p t : text) : bool :=
  match p, t with
  | [], _ => true
  | _ :: _, [] => false
  | x :: p', c :: t' => Ascii.eqb x c && startswith p' t'
  end.

(** [p in s] for a non-empty [p] *)
Fixpoint contains (p t : text) : bool :=
  startswith p t ||
  match t with
  | [] => false
  | _ :: t' => contains p t'
  end.

(** [c in s] *)
Definition mem_char (c : ascii) (t : text) : bool := existsb (Ascii.eqb c) t.

(** [str(n)] *)
Definition nat_to_text (n : nat) : text :=
  T (NilEmpty.string_of_uint (Nat.to_uint n)).

(** number of occurrences of a character *)
Definition count (c : ascii) (t : text) : nat := count_occ ascii_dec t c.

(* ================================================================== *)
(** ** Regular expressions: the fragment of [re] the program uses *)

Module Re.

(** Syntax.  Repetition is only ever applied to a one-character class in
    the program's patterns. *)
Inductive regex : Type :=
| Eps
| Lit (c : ascii)                  (* a literal character *)
| Cls (p : ascii -> bool)          (* one character of a class *)
| Bol                              (* [^] under re.MULTILINE *)
| Eol                              (* [$] under re.MULTILINE *)
| Star (p : ascii -> bool)         (* [p*], greedy *)
| StarLazy (p : ascii -> bool)     (* [p*?], lazy *)
| Opt (r : regex)                  (* [(?:r)?], greedy *)
| Grp (n : nat) (r : regex)        (* capture group number n *)
| Seq (r1 r2 : regex).

Declare Scope re_scope.
Delimit Scope re_scope with re.
Bind Scope re_scope with regex.
Infix ";;" := Seq (at level 61, right associativity) : re_scope.

(** [p+] and [p+?] *)
Definition Plus (p : ascii -> bool) : regex := Seq (Cls p) (Star p).
Definition PlusLazy (p : ascii -> bool) : regex := Seq (Cls p) (StarLazy p).

(** a literal word *)
Fixpoint Word (w : text) : regex :=
  match w with
  | [] => Eps
  | c :: r => Seq (Lit c) (Word r)
  end.

(** The matcher's state: the text before the cursor (reversed), the text
    after it, and the captures made so far (latest first). *)
Record state : Type := St {
  before : text;
  after : text;
  caps : list (nat * text)
}.

Definition pos (st : state) : nat := length (before st).

(** the text consumed between two states of one run *)
Definition consumed (st e : state) : text :=
  rev (firstn (pos e - pos st) (before e)).

Definition set_cap (n : nat) (t : text) (e : state) : state :=
  St (before e) (after e) ((n, t) :: caps e).

(** Greedy repetition of a class: take as many characters as possible,
    give them back one at a time while the continuation fails. *)
Fixpoint star_greedy (p : ascii -> bool) (b a : text) (cp : list (nat * text))
    (k : state -> option state) {struct a} : option state :=
  match a with
  | c :: a' =>
      if p c then
        match star_greedy p (c :: b) a' cp k with
        | Some e => Some e
        | None => k (St b a cp)
        end
      else k (St b a cp)
  | [] => k (St b a cp)
  end.

(** Lazy repetition: try the continuation first, take one more character
    only when it fails. *)
Fixpoint star_lazy (p : ascii -> bool) (b a : text) (cp : list (nat * text))
    (k : state -> option state) {struct a} : option state :=
  match k (St b a cp) with
  | Some e => Some e
  | None =>
      match a with
      | c :: a' => if p c then star_lazy p (c :: b) a' cp k else None
      | [] => None
      end
  end.

(** The backtracking matcher, in continuation-passing style: [exec r st k]
    is the first success, in priority order, of [r] from [st] followed by
    [k]. *)
Fixpoint exec (r : regex) (st : state) (k : state -> option state)
    : option state :=
  match r with
  | Eps => k st
  | Lit c =>
      match after st with
      | x :: a' =>
          if Ascii.eqb x c then k (St (x :: before st) a' (caps st)) else None
      | [] => None
      end
  | Cls p =>
      match after st with
      | x :: a' =>
          if p x then k (St (x :: before st) a' (caps st)) else None
      | [] => None
      end
  | Bol =>
      match before st with
      | [] => k st
      | x :: _ => if Ascii.eqb x LF then k st else None
      end
  | Eol =>
      match after st with
      | [] => k st
      | x :: _ => if Ascii.eqb x LF then k st else None
      end
  | Star p => star_greedy p (before st) (after st) (caps st) k
  | StarLazy p => star_lazy p (before st) (after st) (caps st) k
  | Opt r1 =>
      match exec r1 st k with
      | Some e => Some e
      | None => k st
      end
  | Grp n r1 => exec r1 st (fun e => k (set_cap n (consumed st e) e))
  | Seq r1 r2 => exec r1 st (fun m => exec r2 m k)
  end.

(** A match object: [m.start()], [m.end()] and the captured groups. *)
Record Match : Type := Mk {
  m_start : nat;
  m_end : nat;
  m_caps : list (nat * text)
}.

Fixpoint lookup (n : nat) (l : list (nat * text)) : option text :=
  match l with
  | [] => None
  | (i, t) :: r => if Nat.eqb i n then Some t else lookup n r
  end.

(** [m.group(n)]: [None] when the group took no part in the match. *)
Definition group (m : Match) (n : nat) : option text := lookup n (m_caps m).

(** [m.group(n)] where the program goes on to use it as a string; every
    group of the program's patterns takes part in every match. *)
Definition group_text (m : Match) (n : nat) : text :=
  match group m n with Some t => t | None => [] end.

(** One attempt at the cursor.  With [must_advance] an empty match is
    refused (the scanner sets it after an empty match). *)
Definition match_here (r : regex) (b a : text) (must_advance : bool)
    : option Match :=
  match exec r (St b a [])
          (fun e => if (must_advance && Nat.eqb (pos e) (length b))%bool
                    then None else Some e) with
  | Some e => Some (Mk (length b) (pos e) (caps e))
  | None => None
  end.

(** The matches that start at the cursor (an empty one may be followed by
    a non-empty one), and how far the last of them reaches. *)
Definition matches_here (r : regex) (b a : text) : list Match * nat :=
  match match_here r b a false with
  | None => ([], 0)
  | Some m =>
      if Nat.eqb (m_end m) (m_start m) then
        match match_here r b a true with
        | None => ([m], 0)
        | Some m2 => ([m; m2], m_end m2 - m_start m2)
        end
      else ([m], m_end m - m_start m)
  end.

(** The scanner behind [finditer] and [sub]: it walks the cursor over the
    text; [skip] counts the positions still inside the previous match,
    where no new match may start. *)
Fixpoint walk (r : regex) (b a : text) (skip : nat) {struct a} : list Match :=
  match skip with
  | S n =>
      match a with
      | [] => []
      | c :: a' => walk r (c :: b) a' n
      end
  | 0 =>
      let (ms, len) := matches_here r b a in
      ms ++ match a with
            | [] => []
            | c :: a' => walk r (c :: b) a' (len - 1)
            end
  end.

(** [re.finditer(r, s)]: the non-overlapping matches, leftmost first. *)
Definition finditer (r : regex) (s : text) : list Match := walk r [] s 0.

Definition covered (ms : list Match) (i : nat) : bool :=
  existsb (fun m => (Nat.leb (m_start m) i && Nat.ltb i (m_end m))%bool) ms.

Fixpoint remove_spans (ms : list Match) (i : nat) (s : text) : text :=
  match s with
  | [] => []
  | c :: s' =>
      if covered ms i then remove_spans ms (S i) s'
      else c :: remove_spans ms (S i) s'
  end.

(** [re.sub(r, '', s)]: the text with every match removed. *)
Definition sub_empty (r : regex) (s : text) : text :=
  remove_spans (finditer r s) 0 s.

End Re.

Import Re.
Open Scope re_scope.

(* ================================================================== *)
(** ** utils.py *)

(** r"/\*.*?\*/" with [re.DOTALL] *)
Definition pattern_block : regex :=
  Lit "/" ;; Lit "*" ;; StarLazy is_any ;; Lit "*" ;; Lit "/".

(** r"//.*?$" with [re.MULTILINE] *)
Definition pattern_line : regex :=
  Lit "/" ;; Lit "/" ;; StarLazy is_dot ;; Eol.

Definition strip_comments (source : text) : text :=
  let source_no_block := sub_empty pattern_block source in
  let source_no_comments := sub_empty pattern_line source_no_block in
  source_no_comments.

Record ArgumentRecord : Type := Arg {
  raw : text;
  type : text;
  name : text
}.

(** The loop over the characters of [arg_text]: [args] collects the
    finished tokens (here in reverse), [depth] is the parenthesis depth,
    [current] the token being read (reversed). *)
Fixpoint split_loop (cs : text) (args : list text) (depth : Z) (current : text)
    : list text * text :=
  match cs with
  | [] => (args, current)
  | c :: r =>
      if (Ascii.eqb c "," && Z.eqb depth 0)%bool
      then split_loop r (strip (rev current) :: args) depth []
      else
        let depth' :=
          if Ascii.eqb c "(" then (depth + 1)%Z
          else if Ascii.eqb c ")" then (depth - 1)%Z
          else depth in
        split_loop r args depth' (c :: current)
  end.

(** The tokens [args] as they stand after the loop and the final
    [if current.strip()]. *)
Definition split_tokens (arg_text : text) : list text :=
  let '(args, current) := split_loop arg_text [] 0%Z [] in
  match strip (rev current) with
  | [] => rev args
  | tok => rev (tok :: args)
  end.

Definition split_type_name (arg : text) : text * text :=
  match rsplit1 " " arg with
  | [p0] => (p0, [])
  | p0 :: p1 :: _ => (strip p0, strip p1)
  | [] => ([], [])
  end.

(** the record appended to [result] for the token [a] *)
Definition arg_record (a : text) : ArgumentRecord :=
  let '(typ, nm) := split_type_name a in Arg a typ nm.

Definition split_args (arg_text : text) : list ArgumentRecord :=
  let arg_text := strip arg_text in
  if (text_eqb arg_text [] || text_eqb (lower arg_text) (T "void"))%bool
  then []
  else map arg_record (split_tokens arg_text).

(* ================================================================== *)
(** ** parser_lib.py: the regex-based fallback parser *)

Inductive Kind : Type := KStruct | KEnum.

Definition Kind_eqb (a b : Kind) : bool :=
  match a, b with
  | KStruct, KStruct | KEnum, KEnum => true
  | _, _ => false
  end.

Record MacroRecord : Type := Macro {
  macro_name : text;
  value : text;
  macro_comment : text
}.

Record TypeRecord : Type := Typ {
  typedef_name : option text;        (* string or null *)
  kind : Kind;
  num_members : nat;
  members : list text;
  type_comment : text
}.

Record FunctionRecord : Type := Fn {
  fn_name : text;
  return_type : text;
  num_args : nat;
  args : list ArgumentRecord;
  body : text;
  comment : text
}.

Record Counts : Type := Cnt {
  c_macros : nat;
  c_structs : nat;
  c_enums : nat;
  c_functions : nat
}.

(** r"[A-Za-z_]\w*" *)
Definition ident : regex := Cls is_ident_start ;; Star is_word.

(** r"^\s*#\s*define\s+([A-Za-z_]\w* )\s+(.*?)\s*$" with [re.MULTILINE] *)
Definition macro_pattern : regex :=
  Bol ;; Star is_space ;; Lit "#" ;; Star is_space ;; Word (T "define") ;;
  Plus is_space ;; Grp 1 ident ;; Plus is_space ;;
  Grp 2 (StarLazy is_dot) ;; Star is_space ;; Eol.

(** r"typedef\s+enum\s*(?:\w*\s* )?\{(.*?)\}\s*([A-Za-z_]\w* )\s*;" with [re.S] *)
Definition enum_pattern : regex :=
  Word (T "typedef") ;; Plus is_space ;; Word (T "enum") ;; Star is_space ;;
  Opt (Star is_word ;; Star is_space) ;;
  Lit "{" ;; Grp 1 (StarLazy is_any) ;; Lit "}" ;; Star is_space ;;
  Grp 2 ident ;; Star is_space ;; Lit ";".

(** r"typedef\s+struct\s*(?:[A-Za-z_]\w*\s* )?\{(.*?)\}\s*([A-Za-z_]\w* )\s*;"
    with [re.S] *)
Definition struct_pattern : regex :=
  Word (T "typedef") ;; Plus is_space ;; Word (T "struct") ;; Star is_space ;;
  Opt (ident ;; Star is_space) ;;
  Lit "{" ;; Grp 1 (StarLazy is_any) ;; Lit "}" ;; Star is_space ;;
  Grp 2 ident ;; Star is_space ;; Lit ";".

(** the part the two function patterns share:
    r"([A-Za-z_][\w \*\(\)]+?)\s+([A-Za-z_]\w* )\s*\((.*?)\)\s*" with [re.S] *)
Definition func_head (close : ascii) : regex :=
  Grp 1 (Cls is_ident_start ;; PlusLazy is_type_char) ;; Plus is_space ;;
  Grp 2 ident ;; Star is_space ;; Lit "(" ;; Grp 3 (StarLazy is_any) ;;
  Lit ")" ;; Star is_space ;; Lit close.

Definition func_def_pattern : regex := func_head "{".
Definition proto_pattern : regex := func_head ";".

Definition no_body : text := T "no body".

Definition macro_record (m : Match) : MacroRecord :=
  let name := group_text m 1 in
  let value := strip (group_text m 2) in
  Macro name value
    (T "MACROS = macro defined with name " ++ name ++ T " and value " ++ value).

Definition type_comment_of (name : text) (n : nat) : text :=
  T "STRUCT & ENUM = defined with name " ++ name ++ T " and have "
    ++ nat_to_text n ++ T " members".

(** the two list comprehensions over the lines of an enum body *)
Definition enum_members (body : text) : list text :=
  let members :=
    map (fun line => strip_char "," (strip (split_head "=" line)))
        (filter (fun line => negb (text_eqb (strip line) []))
                (splitlines body)) in
  filter (fun x => negb (text_eqb x [])) members.

Definition enum_record (m : Match) : TypeRecord :=
  let body := group_text m 1 in
  let members := enum_members body in
  Typ (group m 2) KEnum (length members) members
      (type_comment_of (group_text m 2) (length members)).

(** the loop over the lines of a struct body *)
Fixpoint struct_members (lines : list text) : list text :=
  match lines with
  | [] => []
  | line :: rest =>
      let line := strip line in
      if (text_eqb line [] || startswith (T "//") line)%bool
      then struct_members rest
      else if mem_char ";" line then
        let member := strip (split_head ";" line) in
        let parts := rsplit1 " " member in
        let mem_name := strip (last parts []) in
        mem_name :: struct_members rest
      else struct_members rest
  end.

Definition struct_record (m : Match) : TypeRecord :=
  let body := group_text m 1 in
  let members := struct_members (splitlines body) in
  Typ (group m 2) KStruct (length members) members
      (type_comment_of (group_text m 2) (length members)).

(** The brace-matching [while] loop, from index [i] on ([rest] is
    [src_nocom[i:]]): the text appended to [body], and [depth] when the
    loop is left.  The loop is left by [break] with [depth = 0], or
    because the text ended. *)
Fixpoint brace_scan (rest : text) (depth : Z) : text * Z :=
  match rest with
  | [] => ([], depth)
  | ch :: rest' =>
      if Ascii.eqb ch "{" then
        let (b, d) := brace_scan rest' (depth + 1) in (ch :: b, d)
      else if Ascii.eqb ch "}" then
        if Z.eqb (depth - 1) 0 then ([ch], (depth - 1)%Z)
        else let (b, d) := brace_scan rest' (depth - 1) in (ch :: b, d)
      else
        let (b, d) := brace_scan rest' depth in (ch :: b, d)
  end.

Definition fn_comment_of (name : text) (n : nat) (ret : text) : text :=
  T "API = Function with name " ++ name ++ T " having " ++ nat_to_text n
    ++ T " arguments with return type " ++ ret.

(** [start_pos = m.end()-1], then the scan, then [body.strip()] *)
Definition scan_of (src_nocom : text) (m : Match) : text * Z :=
  brace_scan (skipn (m_end m - 1) src_nocom) 0.

Definition def_record (src_nocom : text) (m : Match) : FunctionRecord :=
  let ret := join (T " ") (split_ws (group_text m 1)) in
  let name := group_text m 2 in
  let args := split_args (group_text m 3) in
  let body := strip (fst (scan_of src_nocom m)) in
  Fn name ret (length args) args
     (match body with [] => no_body | _ => body end)
     (fn_comment_of name (length args) ret).

Definition proto_record (m : Match) : FunctionRecord :=
  let name := group_text m 2 in
  let ret := join (T " ") (split_ws (group_text m 1)) in
  let args := split_args (group_text m 3) in
  Fn name ret (length args) args no_body
     (fn_comment_of name (length args) ret).

Definition in_names (name : text) (names : list text) : bool :=
  existsb (text_eqb name) names.

(** the records of the definitions loop *)
Definition def_records (src_nocom : text) : list FunctionRecord :=
  map (def_record src_nocom) (finditer func_def_pattern src_nocom).

(** the matches of the prototypes loop that are not skipped *)
Definition kept_protos (existing_names : list text) (src_nocom : text)
    : list Match :=
  filter (fun m => negb (in_names (group_text m 2) existing_names))
         (finditer proto_pattern src_nocom).

Definition count_kind (k : Kind) (types : list TypeRecord) : nat :=
  length (filter (fun t => Kind_eqb (kind t) k) types).

(** [_parse_with_regex], on the content [src] of the file. *)
Definition parse_with_regex (src : text)
    : list MacroRecord * list TypeRecord * list FunctionRecord * Counts :=
  let src_nocom := strip_comments src in
  let macros := map macro_record (finditer macro_pattern src_nocom) in
  let types :=
    map enum_record (finditer enum_pattern src_nocom)
    ++ map struct_record (finditer struct_pattern src_nocom) in
  let apis := def_records src_nocom in
  let existing_names := map fn_name apis in
  let apis :=
    apis ++ map proto_record (kept_protos existing_names src_nocom) in
  let counts :=
    Cnt (length macros) (count_kind KStruct types) (count_kind KEnum types)
        (length apis) in
  (macros, types, apis, counts).

Definition macros_of (src : text) : list MacroRecord :=
  let '(m, _, _, _) := parse_with_regex src in m.
Definition types_of (src : text) : list TypeRecord :=
  let '(_, t, _, _) := parse_with_regex src in t.
Definition apis_of (src : text) : list FunctionRecord :=
  let '(_, _, a, _) := parse_with_regex src in a.

(* ================================================================== *)
(** ** Definitions used to state the properties *)

(** What a successful run of a pattern says about its two end states,
    whatever the priorities: [den r st e] reads "[r] can take the matcher
    from [st] to [e]". *)
Fixpoint den (r : regex) (st e : state) : Prop :=
  match r with
  | Eps => e = st
  | Lit c => e = St (c :: before st) (after e) (caps st)
             /\ after st = c :: after e
  | Cls p => exists x, p x = true
             /\ e = St (x :: before st) (after e) (caps st)
             /\ after st = x :: after e
  | Bol => e = st /\ (before st = [] \/ exists b', before st = LF :: b')
  | Eol => e = st /\ (after st = [] \/ exists a', after st = LF :: a')
  | Star p | StarLazy p =>
      exists cs, forallb p cs = true
                 /\ e = St (rev cs ++ before st) (after e) (caps st)
                 /\ after st = cs ++ after e
  | Opt r1 => e = st \/ den r1 st e
  | Grp n r1 => exists m, den r1 st m /\ e = set_cap n (consumed st m) m
  | Seq r1 r2 => exists m, den r1 st m /\ den r2 m e
  end.

(** The text a state stands in. *)
Definition whole (st : state) : text := rev (before st) ++ after st.

(** Matches in source order that do not overlap. *)
Definition in_order (a b : Match) : Prop := m_end a <= m_start b.

(* ------------------------------------------------------------------ *)
(** *** The argument splitter, as the specification words it *)

(** parenthesis depth after reading [prefix] *)
Definition paren_depth (prefix : text) : Z :=
  (Z.of_nat (count "(" prefix) - Z.of_nat (count ")" prefix))%Z.

(** index [i] of [t] holds a comma at parenthesis depth zero *)
Definition top_level_comma (t : text) (i : nat) : bool :=
  match nth_error t i with
  | Some c => (Ascii.eqb c "," && Z.eqb (paren_depth (firstn i t)) 0)%bool
  | None => false
  end.

(** [cut sep i t]: the pieces of [t] between the indices that [sep]
    selects; [i] is the index of the head of [t]. *)
Fixpoint cut (sep : nat -> bool) (i : nat) (t : text) : list text :=
  match t with
  | [] => [[]]
  | c :: r =>
      if sep i then [] :: cut sep (S i) r
      else match cut sep (S i) r with
           | [] => [[c]]
           | p :: ps => (c :: p) :: ps
           end
  end.

Definition top_level_pieces (t : text) : list text :=
  cut (top_level_comma t) 0 t.

(** The tokens the specification describes: the text is cut at the
    top-level commas and nowhere else, each piece is trimmed, and only
    the last piece is dropped when blank. *)
Definition spec_tokens (t : text) : list text :=
  let ps := map strip (top_level_pieces t) in
  removelast ps ++ match last ps [] with [] => [] | tok => [tok] end.

(** [x] put in front of the first piece *)
Definition prefix_first (x : text) (ps : list text) : list text :=
  match ps with
  | [] => [x]
  | p :: ps' => (x ++ p) :: ps'
  end.

(** number of top-level commas *)
Definition top_level_commas (t : text) : nat :=
  length (filter (top_level_comma t) (seq 0 (length t))).

(** [m] is a match of [r] somewhere in [s], declaratively: this is what
    the scanner's matches are. *)
Definition match_of (r : regex) (s : text) (m : Match) : Prop :=
  exists b a e,
    rev b ++ a = s /\ den r (St b a []) e
    /\ m = Mk (length b) (pos e) (caps e).

(** The text [sub] keeps, produced along the scan itself: a character is
    dropped when a non-empty match starts at it or when it lies inside
    the previous match.  ([sub_empty_walk] below: this is [sub_empty].) *)
Fixpoint sub_walk (r : regex) (b a : text) (skip : nat) {struct a} : text :=
  match a with
  | [] => []
  | c :: a' =>
      match skip with
      | S n => sub_walk r (c :: b) a' n
      | 0 =>
          match snd (matches_here r b a) with
          | 0 => c :: sub_walk r (c :: b) a' 0
          | S n => sub_walk r (c :: b) a' n
          end
      end
  end.

(** the rest of the current line, and what follows it *)
Fixpoint line_rest (t : text) : text :=
  match t with
  | [] => []
  | c :: r => if Ascii.eqb c LF then [] else c :: line_rest r
  end.

Fixpoint after_line (t : text) : text :=
  match t with
  | [] => []
  | c :: r => if Ascii.eqb c LF then t else after_line r
  end.

(** [skip] characters from the head of [a], the line ends *)
Definition at_line_end (a : text) (skip : nat) : Prop :=
  skipn skip a = [] \/ exists r, skipn skip a = LF :: r.

(** the class [p] cannot take the next character of [rest] *)
Definition stops (p : ascii -> bool) (rest : text) : bool :=
  match rest with
  | [] => true
  | c :: _ => negb (p c)
  end.

(** a pattern without capture groups *)
Fixpoint group_free (r : regex) : bool :=
  match r with
  | Grp _ _ => false
  | Opt r1 => group_free r1
  | Seq r1 r2 => group_free r1 && group_free r2
  | _ => true
  end.

(** the records of a given name *)
Definition named (n : text) (r : FunctionRecord) : bool := text_eqb (fn_name r) n.

(* ------------------------------------------------------------------ *)
(** *** Sample inputs *)

(** a declaration of [f], then the definitions of [g] and [f] *)
Definition src_proto_and_defs : text :=
  T "int f();" ++ LF :: T "void g() {}" ++ LF :: T "int f() { return 1; }".

(** a definition whose body is never closed *)
Definition src_unbalanced : text := T "int f() { ".

(** the one match of the definition pattern in [src_unbalanced] *)
Definition m_unbalanced : Match := Mk 0 9 [(3, []); (2, T "f"); (1, T "int")].

(** a parameter list with a function-pointer parameter *)
Definition args_fnptr : text := T "int a, int (" ++ T "*cb)(int, int)".

(** a parameter list with two commas in a row *)
Definition args_double_comma : text := T "int a,,int b".

(* ------------------------------------------------------------------ *)
(** *** Records traced to the matches they were built from *)

Definition traced {A} (f : Match -> A) (ms : list Match) : list (Match * A) :=
  map (fun m => (m, f m)) ms.

(** The three output collections of [parse_with_regex src], each record
    paired with its match in the comment-stripped text, in output order. *)
Definition macros_trace (src : text) : list (Match * MacroRecord) :=
  traced macro_record (finditer macro_pattern (strip_comments src)).

Definition enums_trace (src : text) : list (Match * TypeRecord) :=
  traced enum_record (finditer enum_pattern (strip_comments src)).

Definition structs_trace (src : text) : list (Match * TypeRecord) :=
  traced struct_record (finditer struct_pattern (strip_comments src)).

Definition types_trace (src : text) : list (Match * TypeRecord) :=
  enums_trace src ++ structs_trace src.

Definition defs_trace (src : text) : list (Match * FunctionRecord) :=
  traced (def_record (strip_comments src))
         (finditer func_def_pattern (strip_comments src)).

Definition protos_trace (src : text) : list (Match * FunctionRecord) :=
  traced proto_record
         (kept_protos (map fn_name (def_records (strip_comments src)))
                      (strip_comments src)).

Definition apis_trace (src : text) : list (Match * FunctionRecord) :=
  defs_trace src ++ protos_trace src.

(** the records follow one another as their matches do in the text *)
Definition source_ordered {A} (l : list (Match * A)) : Prop :=
  StronglySorted in_order (map fst l).

(** a struct typedef followed by an enum typedef *)
Definition src_struct_then_enum : text :=
  T "typedef struct {" ++ LF :: T "int x;" ++ LF :: T "} P;" ++ LF ::
  T "typedef enum {" ++ LF :: T "A" ++ LF :: T "} E;".

(** a line comment whose removal of an inner block comment leaves a
    block comment behind *)
Definition src_nested_comment : text := T "//**/**/".

(** a text with one comment of each kind *)
Definition src_two_comments : text :=
  T "int a; /* x */ int b; // c" ++ LF :: T "int d;".

(** a define without a value, followed by a define with one *)
Definition src_two_defines : text := T "#define A" ++ LF :: T "#define B 1".

(* ------------------------------------------------------------------ *)
(** *** Enum bodies with one enumerator per line *)

(** One line of an enum body: blanks, the enumerator, then optionally
    an equals sign with a value, then optionally a comma. *)
Record EnumLine : Type := ELine {
  el_indent : text;
  el_name : text;
  el_value : option text;
  el_comma : bool
}.

Definition render_line (l : EnumLine) : text :=
  el_indent l ++ el_name l
  ++ match el_value l with Some v => T " = " ++ v | None => [] end
  ++ (if el_comma l then T "," else []).

(** a blank that does not end a line *)
Definition blank (c : ascii) : bool := is_space c && negb (is_linebreak c).

Definition no_linebreak (t : text) : bool :=
  forallb (fun c => negb (is_linebreak c)) t.

Definition wf_line (l : EnumLine) : bool :=
  forallb blank (el_indent l) && is_identifier (el_name l)
  && match el_value l with Some v => no_linebreak v | None => true end.

(** the text between the braces: a line end after the opening brace,
    then the lines *)
Definition render_body (ls : list EnumLine) : text :=
  LF :: concat (map (fun l => render_line l ++ [LF]) ls).

(** the source text of an enum typedef with the body [bd] and the type
    name [nm] *)
Definition enum_typedef (bd nm : text) : text :=
  T "typedef enum {" ++ bd ++ T "} " ++ nm ++ T ";".

(** the state in which the enum pattern ends on the typedef whose type
    name is [c0 :: nr] *)
Definition enum_end_state (bd : text) (c0 : ascii) (nr : text) : state :=
  St (";"%char :: rev nr ++ c0 :: rev [" "%char] ++ "}"%char :: rev bd
      ++ "{"%char :: rev [" "%char] ++ rev (T "enum") ++ " "%char
      :: rev (T "typedef") ++ [])
     [] [(2, c0 :: nr); (1, bd)].

(** an enum typedef on one line *)
Definition src_enum_one_line : text := T "typedef enum { A, B, C } Color;".

(** the same enumerators, one per line, the second with a value *)
Definition src_enum_lines : text :=
  T "typedef enum {" ++ LF :: T "  A," ++ LF :: T "  B = 2," ++ LF ::
  T "  C" ++ LF :: T "} Color;".

Definition lines_enum_lines : list EnumLine :=
  [ELine (T "  ") (T "A") None true;
   ELine (T "  ") (T "B") (Some (T "2")) true;
   ELine (T "  ") (T "C") None false].

(* ------------------------------------------------------------------ *)
(** *** Further notions used to state properties *)

(** [s] is [t] with some characters deleted *)
Inductive Subseq : text -> text -> Prop :=
| Subseq_nil : Subseq [] []
| Subseq_drop c s t : Subseq s t -> Subseq s (c :: t)
| Subseq_keep c s t : Subseq s t -> Subseq (c :: s) (c :: t).

(** a text that neither starts nor ends with whitespace *)
Definition trimmed (t : text) : bool :=
  match t with
  | [] => true
  | c :: r => negb (is_space c) && negb (is_space (last r c))
  end.

(** the pattern holds a capture group numbered [n] *)
Fixpoint has_group (n : nat) (r : regex) : bool :=
  match r with
  | Grp i r1 => Nat.eqb i n || has_group n r1
  | Opt r1 => has_group n r1
  | Seq r1 r2 => has_group n r1 || has_group n r2
  | _ => false
  end.

(** the source text of one define: the directive, blanks, the name,
    blanks, the value, and what follows the value *)
Definition define_line (sep1 name sep2 v trail : text) : text :=
  T "#define" ++ sep1 ++ name ++ sep2 ++ v ++ trail.

(** the state in which the macro pattern ends on such a text *)
Definition macro_end_state (a0 : ascii) (ar : text) (c0 : ascii) (nr : text)
    (s0 : ascii) (sr : text) (v trail : text) : state :=
  St (rev trail ++ rev v ++ rev sr ++ s0 :: rev nr ++ c0 :: rev ar ++ a0
      :: rev (T "define") ++ ["#"%char])
     [] [(2, v); (1, c0 :: nr)].

(* ------------------------------------------------------------------ *)
(** *** Struct bodies with one member per line *)

(** One line of a struct body: blanks, the type, a blank, the member
    name, a semicolon, and what follows it on the line. *)
Record StructLine : Type := SLine {
  sl_indent : text;
  sl_type : text;
  sl_name : text;
  sl_rest : text
}.

Definition render_struct_line (l : StructLine) : text :=
  sl_indent l ++ sl_type l ++ " "%char :: sl_name l ++ ";"%char :: sl_rest l.

(** the type starts with a letter or an underscore and holds no
    semicolon; the name is not empty, holds neither a blank nor a
    semicolon and has no whitespace at its ends; nothing holds a line
    break *)
Definition wf_struct_line (l : StructLine) : bool :=
  forallb blank (sl_indent l)
  && match sl_type l with
     | [] => false
     | t0 :: _ => is_ident_start t0
     end
  && negb (mem_char ";" (sl_type l)) && no_linebreak (sl_type l)
  && negb (text_eqb (sl_name l) []) && trimmed (sl_name l)
  && negb (mem_char " " (sl_name l)) && negb (mem_char ";" (sl_name l))
  && no_linebreak (sl_name l)
  && no_linebreak (sl_rest l).

Definition render_struct_body (ls : list StructLine) : text :=
  LF :: concat (map (fun l => render_struct_line l ++ [LF]) ls).

(** a struct body with one member per line *)
Definition lines_point : list StructLine :=
  [SLine (T "  ") (T "int") (T "x") [];
   SLine (T "  ") (T "unsigned long") (T "y") (T " int z;")].

Definition src_point : text :=
  T "typedef struct {" ++ render_struct_body lines_point ++ T "} Point;".

(** the match of the struct pattern in [src_point] *)
Definition m_point : Match :=
  Mk 0 (length src_point)
     [(2, T "Point"); (1, render_struct_body lines_point)].

(* ================================================================== *)
(** ** main.py: the numeric double-check *)

(** the text of a match *)
Definition matched (s : text) (m : Match) : text :=
  firstn (m_end m - m_start m) (skipn (m_start m) s).

(** [re_findall(pattern, s)], for a pattern without groups: the matched
    texts.  (The flag [re.M] that [re_findall] passes has no effect on
    the patterns below, which hold neither [^] nor [$].) *)
Definition re_findall (r : regex) (s : text) : list text :=
  map (matched s) (finditer r s).

(** r"typedef\s+enum\s*\{" *)
Definition typedef_enum_open : regex :=
  Word (T "typedef") ;; Plus is_space ;; Word (T "enum") ;; Star is_space ;;
  Lit "{".

(** r"enum\s+[A-Za-z_]\w*\s*\{" *)
Definition enum_tag_open : regex :=
  Word (T "enum") ;; Plus is_space ;; ident ;; Star is_space ;; Lit "{".

(** r"typedef\s+struct\s*\{" *)
Definition typedef_struct_open : regex :=
  Word (T "typedef") ;; Plus is_space ;; Word (T "struct") ;; Star is_space ;;
  Lit "{".

(** r"typedef\s+struct\s+[A-Za-z_]\w*\s*\{" *)
Definition typedef_struct_tag_open : regex :=
  Word (T "typedef") ;; Plus is_space ;; Word (T "struct") ;; Plus is_space ;;
  ident ;; Star is_space ;; Lit "{".

(** r"\)\s*\{" and r"\)\s*;" *)
Definition close_then (c : ascii) : regex :=
  Lit ")" ;; Star is_space ;; Lit c.

(** the numbers [main] prints under "Verification" *)
Record Verification : Type := Verif {
  macro_count_file : nat;
  struct_count_file : nat;
  enum_count_file : nat;
  func_count_file : nat;
  macro_count_json : nat;
  struct_count_json : nat;
  enum_count_json : nat;
  func_count_json : nat
}.

(** The double-check of [main], on the content [src_raw] of the file and
    the [counts] that [parse_all] returned.  (The first value given to
    [enum_count_file], a count of the word enum, is overwritten before it
    is used and is left out.) *)
Definition verification (src_raw : text) (counts : Counts) : Verification :=
  let src_noc := strip_comments src_raw in
  let macro_count_file :=
    length (filter (fun m => startswith (T "#define") (strip m))
                   (splitlines src_noc)) in
  let enum_count_file := 0 in
  let enum_count_file :=
    enum_count_file + length (re_findall typedef_enum_open src_noc) in
  let enum_count_file :=
    enum_count_file + length (re_findall enum_tag_open src_noc) in
  let struct_count_file :=
    length (re_findall typedef_struct_open src_noc)
    + length (re_findall typedef_struct_tag_open src_noc) in
  let func_defs := length (re_findall (close_then "{") src_noc) in
  let func_protos := length (re_findall (close_then ";") src_noc) in
  let func_count_file := func_defs + func_protos in
  Verif macro_count_file struct_count_file enum_count_file func_count_file
        (c_macros counts) (c_structs counts) (c_enums counts)
        (c_functions counts).

Definition counts_of (src : text) : Counts :=
  let '(_, _, _, c) := parse_with_regex src in c.

(** the double-check when [parse_all] used the regex parser *)
Definition verification_regex (src_raw : text) : Verification :=
  verification src_raw (counts_of src_raw).

(** The number of places, from [skip] characters after the cursor on, at
    which the pattern matches. *)
Fixpoint occs (r : regex) (b a : text) (skip : nat) {struct a} : nat :=
  match skip with
  | S n =>
      match a with
      | [] => 0
      | c :: a' => occs r (c :: b) a' n
      end
  | 0 =>
      (match match_here r b a false with Some _ => 1 | None => 0 end)
      + match a with
        | [] => 0
        | c :: a' => occs r (c :: b) a' 0
        end
  end.

(** the pattern matches [j] characters after the cursor *)
Definition hit (q : regex) (b a : text) (j : nat) : Prop :=
  match_here q (rev (firstn j a) ++ b) (skipn j a) false <> None.

(** no match of the pattern is empty, and none starts inside another *)
Definition apart (q : regex) : Prop :=
  forall b a m, match_here q b a false = Some m ->
    m_start m < m_end m
    /\ forall j, 0 < j < m_end m - m_start m -> ~ hit q b a j.


(** a non-empty text without whitespace: an element of [s.split()] *)
Definition is_token (w : text) : bool :=
  negb (text_eqb w []) && forallb (fun c => negb (is_space c)) w.

(** [x] is a contiguous part of [s] *)
Definition Substr (x s : text) : Prop := exists pre post, s = pre ++ x ++ post.

(** the member name the struct loop reads off a line that holds a
    semicolon *)
Definition member_of_line (line : text) : text :=
  strip (last (rsplit1 " " (strip (split_head ";" (strip line)))) []).

(** every match of the pattern holds the character [c]: the pattern has
    the literal [c] outside any option or repetition *)
Fixpoint needs (c : ascii) (r : regex) : bool :=
  match r with
  | Lit x => Ascii.eqb x c
  | Grp _ r1 => needs c r1
  | Seq r1 r2 => needs c r1 || needs c r2
  | _ => false
  end.

(** the cursor stands at the start of a line: [b] is the text before it,
    reversed *)
Definition at_line_start (b : text) : bool :=
  match b with
  | [] => true
  | c :: _ => Ascii.eqb c LF
  end.

(** the source text of a function head: the return type, whitespace, the
    name, whitespace, the parenthesised parameter text, whitespace, and
    the character that closes the head ([;] or an opening brace) *)
Definition function_text (ret sep1 name sep2 args sep3 : text) (close : ascii)
    : text :=
  ret ++ sep1 ++ name ++ sep2 ++ "("%char :: args ++ ")"%char :: sep3
      ++ [close].

(** the state in which a function pattern ends on such a text, followed
    by [tail] *)
Definition head_end_state (r0 r1 : ascii) (rr : text) (s0 : ascii) (sr : text)
    (n0 : ascii) (nr sep2 args sep3 : text) (close : ascii) (tail : text)
    : state :=
  St (close :: rev sep3 ++ ")"%char :: rev args ++ "("%char :: rev sep2
        ++ rev nr ++ n0 :: rev sr ++ s0 :: rev rr ++ [r1; r0])
     tail [(3, args); (2, n0 :: nr); (1, r0 :: r1 :: rr)].

(** the parenthesis depth of the splitter's loop after one character, and
    after a text *)
Definition depth_step (d : Z) (c : ascii) : Z :=
  if Ascii.eqb c "(" then (d + 1)%Z
  else if Ascii.eqb c ")" then (d - 1)%Z
  else d.

Fixpoint depth_after (d : Z) (t : text) : Z :=
  match t with
  | [] => d
  | c :: r => depth_after (depth_step d c) r
  end.

(** read from depth [d], the text holds no comma at depth zero *)
Fixpoint nosplit (d : Z) (t : text) : bool :=
  match t with
  | [] => true
  | c :: r =>
      negb (Ascii.eqb c "," && Z.eqb d 0) && nosplit (depth_step d c) r
  end.

(** the source text of a struct typedef, with or without a tag, with the
    body [bd] and the type name [nm] *)
Definition struct_typedef (tag : option text) (bd nm : text) : text :=
  T "typedef struct "
    ++ match tag with Some t => t ++ T " " | None => [] end
    ++ T "{" ++ bd ++ T "} " ++ nm ++ T ";".

(** the text before the opening brace of such a typedef, reversed *)
Definition struct_front (tag : option text) : text :=
  match tag with Some t => " "%char :: rev t | None => [] end
    ++ " "%char :: rev (T "struct") ++ " "%char :: rev (T "typedef").

(** the state in which the struct pattern ends on the typedef whose type
    name is [c0 :: nr] *)
Definition struct_end_state (tag : option text) (bd : text) (c0 : ascii)
    (nr : text) : state :=
  St (";"%char :: rev nr ++ c0 :: " "%char :: "}"%char :: rev bd
        ++ "{"%char :: struct_front tag)
     [] [(2, c0 :: nr); (1, bd)].
(* ================================================================== *)
(** ** Characters *)

Ltac by_cases c :=
  destruct c as [[|] [|] [|] [|] [|] [|] [|] [|]]; vm_compute;
  try discriminate; try reflexivity; auto.

Lemma ident_start_word c : is_ident_start c = true -> is_word c = true.
Proof. by_cases c. Qed.

Lemma text_eqb_eq (a b : text) : text_eqb a b = true <-> a = b.
Proof.
  unfold text_eqb. destruct (list_eq_dec ascii_dec a b); split; congruence.
Qed.

Lemma text_eqb_refl (a : text) : text_eqb a a = true.
Proof. apply text_eqb_eq. reflexivity. Qed.

(* ================================================================== *)
(** ** The matcher: every success is a declarative match *)

Section Soundness.

Lemma star_greedy_sound p : forall a b cp k x,
  star_greedy p b a cp k = Some x ->
  exists cs a', forallb p cs = true /\ a = cs ++ a'
                /\ k (St (rev cs ++ b) a' cp) = Some x.
Proof.
  induction a as [|c a IH]; intros b cp k x H; simpl in H.
  - exists [], []. auto.
  - destruct (p c) eqn:Hp.
    + destruct (star_greedy p (c :: b) a cp k) eqn:Hr.
      * injection H as <-. apply IH in Hr as (cs & a' & Hcs & -> & Hk).
        exists (c :: cs), a'. simpl. rewrite Hp, Hcs.
        rewrite <- app_assoc. auto.
      * exists [], (c :: a). auto.
    + exists [], (c :: a). auto.
Qed.

Lemma star_lazy_sound p : forall a b cp k x,
  star_lazy p b a cp k = Some x ->
  exists cs a', forallb p cs = true /\ a = cs ++ a'
                /\ k (St (rev cs ++ b) a' cp) = Some x.
Proof.
  induction a as [|c a IH]; intros b cp k x H; simpl in H.
  - destruct (k (St b [] cp)) eqn:Hk; [|discriminate].
    exists [], []. injection H as <-. auto.
  - destruct (k (St b (c :: a) cp)) eqn:Hk.
    + injection H as <-. exists [], (c :: a). auto.
    + destruct (p c) eqn:Hp; [|discriminate].
      apply IH in H as (cs & a' & Hcs & -> & Hk').
      exists (c :: cs), a'. simpl. rewrite Hp, Hcs.
      rewrite <- app_assoc. auto.
Qed.

(** Soundness of the matcher: a result of [exec r st k] is a result of
    [k] at a state that [r] can reach from [st]. *)
Lemma exec_sound : forall r st k x,
  exec r st k = Some x -> exists e, den r st e /\ k e = Some x.
Proof.
  induction r as [|c|p| | |p|p|r IH|n r IH|r1 IH1 r2 IH2];
    intros st k x H; simpl in H.
  - exists st. simpl. auto.
  - destruct (after st) as [|y a'] eqn:Ha; [discriminate|].
    destruct (Ascii.eqb y c) eqn:E; [|discriminate].
    apply Ascii.eqb_eq in E. subst y.
    eexists. split; [|exact H]. simpl. auto.
  - destruct (after st) as [|y a'] eqn:Ha; [discriminate|].
    destruct (p y) eqn:E; [|discriminate].
    eexists. split; [|exact H]. simpl. exists y. auto.
  - exists st. simpl. destruct (before st) as [|y b'] eqn:Hb; [auto|].
    destruct (Ascii.eqb y LF) eqn:E; [|discriminate].
    apply Ascii.eqb_eq in E. subst y. split; [|exact H].
    split; [reflexivity|]. right. eauto.
  - exists st. simpl. destruct (after st) as [|y b'] eqn:Hb; [auto|].
    destruct (Ascii.eqb y LF) eqn:E; [|discriminate].
    apply Ascii.eqb_eq in E. subst y. split; [|exact H].
    split; [reflexivity|]. right. eauto.
  - apply star_greedy_sound in H as (cs & a' & Hcs & Ha & Hk).
    eexists. split; [|exact Hk]. simpl. exists cs. auto.
  - apply star_lazy_sound in H as (cs & a' & Hcs & Ha & Hk).
    eexists. split; [|exact Hk]. simpl. exists cs. auto.
  - destruct (exec r st k) eqn:Hr.
    + injection H as <-. apply IH in Hr as (e & He & Hk).
      exists e. simpl. auto.
    + exists st. simpl. auto.
  - apply IH in H as (m & Hm & Hk).
    eexists. split; [|exact Hk]. simpl. eauto.
  - apply IH1 in H as (m & Hm & Hk). apply IH2 in Hk as (e & He & Hk).
    exists e. simpl. eauto.
Qed.

End Soundness.

(* ================================================================== *)
(** ** What a match consumes *)

Lemma consumed_app st e cs :
  before e = rev cs ++ before st -> consumed st e = cs.
Proof.
  intros H. unfold consumed, pos. rewrite H, length_app, length_rev.
  replace (length cs + length (before st) - length (before st))
    with (length (rev cs) + 0) by (rewrite length_rev; lia).
  rewrite firstn_app_2. simpl. rewrite app_nil_r. apply rev_involutive.
Qed.

(** A run only moves the cursor forward, over the text it consumes. *)
Lemma den_span : forall r st e,
  den r st e ->
  exists cs, after st = cs ++ after e /\ before e = rev cs ++ before st.
Proof.
  induction r as [|c|p| | |p|p|r IH|n r IH|r1 IH1 r2 IH2];
    intros st e H; simpl in H.
  - subst. exists []. auto.
  - destruct H as [He Ha]. exists [c]. rewrite He at 2. simpl. auto.
  - destruct H as (x & _ & He & Ha). exists [x]. rewrite He at 2. auto.
  - destruct H as [-> _]. exists []. auto.
  - destruct H as [-> _]. exists []. auto.
  - destruct H as (cs & _ & He & Ha). exists cs. rewrite He at 2. auto.
  - destruct H as (cs & _ & He & Ha). exists cs. rewrite He at 2. auto.
  - destruct H as [->|H]; [exists []; auto|]. apply IH; assumption.
  - destruct H as (m & Hm & ->). apply IH in Hm. exact Hm.
  - destruct H as (m & H1 & H2).
    apply IH1 in H1 as (c1 & Ha1 & Hb1). apply IH2 in H2 as (c2 & Ha2 & Hb2).
    exists (c1 ++ c2). rewrite Ha1, Ha2, Hb2, Hb1, rev_app_distr.
    rewrite !app_assoc. auto.
Qed.

Lemma den_whole r st e : den r st e -> whole e = whole st.
Proof.
  intros H. apply den_span in H as (cs & Ha & Hb). unfold whole.
  rewrite Ha, Hb, rev_app_distr, rev_involutive, <- app_assoc. reflexivity.
Qed.

Lemma den_pos r st e : den r st e -> pos st <= pos e.
Proof.
  intros H. apply den_span in H as (cs & Ha & Hb). unfold pos.
  rewrite Hb, length_app. lia.
Qed.

(* ------------------------------------------------------------------ *)
(** ** The scanner *)

Lemma match_here_sound r b a adv m :
  match_here r b a adv = Some m ->
  match_of r (rev b ++ a) m /\ m_start m = length b /\ length b <= m_end m
  /\ (adv = true -> length b < m_end m).
Proof.
  unfold match_here. intros H.
  destruct (exec r (St b a []) _) as [e|] eqn:He; [|discriminate].
  injection H as <-. apply exec_sound in He as (e' & Hd & Hk).
  assert (e' = e /\ (adv = true -> pos e' <> length b)) as [-> Hne].
  { destruct adv; simpl in Hk.
    - destruct (Nat.eqb (pos e') (length b)) eqn:E; [discriminate|].
      apply Nat.eqb_neq in E. split; [congruence|auto].
    - split; [congruence|discriminate]. }
  pose proof (den_pos _ _ _ Hd) as Hp. unfold pos at 1 in Hp. simpl in Hp.
  simpl. repeat split; auto.
  - exists b, a, e. auto.
  - intros Ha. specialize (Hne Ha). lia.
Qed.

Lemma matches_here_sound r b a ms len :
  matches_here r b a = (ms, len) ->
  Forall (fun m => match_of r (rev b ++ a) m /\ m_start m = length b
                   /\ m_end m <= length b + len) ms
  /\ StronglySorted in_order ms.
Proof.
  unfold matches_here. intros H.
  destruct (match_here r b a false) as [m|] eqn:H1.
  2:{ injection H as <- <-. split; constructor. }
  apply match_here_sound in H1 as (Hm & Hs & He & _).
  destruct (Nat.eqb (m_end m) (m_start m)) eqn:E.
  - apply Nat.eqb_eq in E.
    destruct (match_here r b a true) as [m2|] eqn:H2.
    + apply match_here_sound in H2 as (Hm2 & Hs2 & He2 & Hadv).
      injection H as <- <-. split.
      * repeat constructor; auto; lia.
      * repeat constructor. unfold in_order. lia.
    + injection H as <- <-. split.
      * repeat constructor; auto; lia.
      * repeat constructor.
  - injection H as <- <-. split.
    + repeat constructor; auto; lia.
    + repeat constructor.
Qed.

Lemma walk_sound r : forall a b skip,
  Forall (fun m => match_of r (rev b ++ a) m
                   /\ length b + skip <= m_start m) (walk r b a skip)
  /\ StronglySorted in_order (walk r b a skip).
Proof.
  induction a as [|c a IH]; intros b skip.
  - destruct skip as [|n]; simpl.
    + destruct (matches_here r b []) as [ms len] eqn:Hm.
      apply matches_here_sound in Hm as [HF HS]. rewrite (app_nil_r ms).
      split; auto.
      eapply Forall_impl; [|exact HF]. simpl. intros m (? & ? & ?).
      split; auto. lia.
    + split; constructor.
  - assert (Hstep : forall n,
      Forall (fun m => match_of r (rev b ++ c :: a) m
                       /\ length b + S n <= m_start m) (walk r (c :: b) a n)
      /\ StronglySorted in_order (walk r (c :: b) a n)).
    { intros n. destruct (IH (c :: b) n) as [HF HS]. split; auto.
      eapply Forall_impl; [|exact HF]. simpl. intros m [Hm Hle].
      rewrite <- app_assoc in Hm. simpl in Hm. split; auto. lia. }
    destruct skip as [|n]; simpl.
    + destruct (matches_here r b (c :: a)) as [ms len] eqn:Hm.
      apply matches_here_sound in Hm as [HF HS].
      destruct (Hstep (len - 1)) as [HF2 HS2]. split.
      * apply Forall_app. split.
        -- eapply Forall_impl; [|exact HF]. simpl. intros m (? & ? & ?).
           split; auto. lia.
        -- eapply Forall_impl; [|exact HF2]. simpl. intros m (? & ?).
           split; auto. lia.
      * clear Hstep IH. induction HS as [|m ms HSms IHms Hall].
        -- exact HS2.
        -- simpl. inversion HF; subst. constructor; [auto|].
           apply Forall_app. split; [exact Hall|].
           eapply Forall_impl; [|exact HF2]. simpl. intros m' (? & ?).
           unfold in_order. destruct H1 as (? & ? & ?). lia.
    + apply Hstep.
Qed.

(** Every match of [finditer] is a declarative match of the pattern in
    the text. *)
Lemma finditer_match r s m : In m (finditer r s) -> match_of r s m.
Proof.
  intros H. destruct (walk_sound r s [] 0) as [HF _].
  rewrite Forall_forall in HF. apply HF in H as [H _]. exact H.
Qed.

(** [finditer] lists its matches in source order, without overlap. *)
Lemma finditer_sorted r s : StronglySorted in_order (finditer r s).
Proof. apply (walk_sound r s [] 0). Qed.

Lemma match_of_bounds r s m :
  match_of r s m -> m_start m <= m_end m /\ m_end m <= length s.
Proof.
  intros (b & a & e & Hs & Hd & ->). simpl.
  pose proof (den_pos _ _ _ Hd) as Hp. unfold pos at 1 in Hp. simpl in Hp.
  split; [exact Hp|]. apply den_whole in Hd. unfold whole in Hd. simpl in Hd.
  rewrite <- Hs, <- Hd, length_app, length_rev. unfold pos. lia.
Qed.

(* ------------------------------------------------------------------ *)
(** ** Captures *)

Lemma den_caps : forall r st e,
  group_free r = true -> den r st e -> caps e = caps st.
Proof.
  induction r as [|c|p| | |p|p|r IH|n r IH|r1 IH1 r2 IH2];
    intros st e G H; simpl in *; try discriminate.
  - subst. reflexivity.
  - destruct H as [-> _]. reflexivity.
  - destruct H as (x & _ & -> & _). reflexivity.
  - destruct H as [-> _]. reflexivity.
  - destruct H as [-> _]. reflexivity.
  - destruct H as (cs & _ & -> & _). reflexivity.
  - destruct H as (cs & _ & -> & _). reflexivity.
  - destruct H as [->|H]; [reflexivity|]. apply IH; assumption.
  - apply andb_prop in G as [G1 G2]. destruct H as (m & H1 & H2).
    rewrite (IH2 _ _ G2 H2). apply IH1; assumption.
Qed.

(** the text an identifier pattern consumes is an identifier *)
Lemma den_ident st e :
  den ident st e -> is_identifier (consumed st e) = true /\ caps e = caps st.
Proof.
  intros H. split; [|apply (den_caps ident); auto].
  simpl in H. destruct H as (m & (x & Hx & Hm & _) & (cs & Hcs & He & _)).
  rewrite (@consumed_app st e (x :: cs)).
  - simpl. rewrite Hx, Hcs. reflexivity.
  - rewrite He at 1. rewrite Hm. simpl. rewrite <- app_assoc. reflexivity.
Qed.

(** Skip the leading component of a sequence. *)
Ltac skip_front H :=
  let m := fresh "m" in
  destruct H as (m & _ & H).

(** Both typedef patterns end in: group 2 (an identifier), blanks, [;]. *)
Lemma den_typedef_tail st e :
  den (Grp 2 ident ;; Star is_space ;; Lit ";") st e ->
  exists n, lookup 2 (caps e) = Some n /\ is_identifier n = true.
Proof.
  intros (m & (m' & Hid & ->) & Ht).
  apply den_ident in Hid as [Hid _].
  apply (den_caps (Star is_space ;; Lit ";")) in Ht; [|reflexivity].
  rewrite Ht. simpl. eauto.
Qed.

Lemma enum_match_name s m :
  match_of enum_pattern s m ->
  exists n, group m 2 = Some n /\ is_identifier n = true.
Proof.
  intros (b & a & e & _ & H & ->). unfold group. simpl m_caps.
  unfold enum_pattern in H. do 9 skip_front H.
  apply den_typedef_tail in H. exact H.
Qed.

Lemma struct_match_name s m :
  match_of struct_pattern s m ->
  exists n, group m 2 = Some n /\ is_identifier n = true.
Proof.
  intros (b & a & e & _ & H & ->). unfold group. simpl m_caps.
  unfold struct_pattern in H. do 9 skip_front H.
  apply den_typedef_tail in H. exact H.
Qed.

(* ================================================================== *)
(** ** Type records *)

(** C9. Every TypeRecord of the regex parser carries a typedef name that
    is present (never null) and is a non-empty identifier: a letter or
    underscore followed by word characters.  Both the enum and the struct
    pattern capture it with the identifier pattern before the semicolon. *)
Theorem typedef_name_is_identifier (src : text) (r : TypeRecord) :
  In r (types_of src) ->
  exists n, typedef_name r = Some n /\ n <> [] /\ is_identifier n = true.
Proof.
  unfold types_of, parse_with_regex. intros H.
  assert (exists n, typedef_name r = Some n /\ is_identifier n = true)
    as (n & Hn & Hid).
  { apply in_app_or in H as [H|H]; apply in_map_iff in H as (m & <- & Hm);
      apply finditer_match in Hm.
    - apply enum_match_name in Hm. exact Hm.
    - apply struct_match_name in Hm. exact Hm. }
  exists n. repeat split; auto. intros ->. discriminate.
Qed.

Lemma typedef_name_is_identifier_witness :
  exists n,
    typedef_name (Typ (Some (T "Color")) KEnum 1 [T "A, B, C"]
                      (type_comment_of (T "Color") 1)) = Some n
    /\ n <> [] /\ is_identifier n = true.
Proof.
  apply (@typedef_name_is_identifier (T "typedef enum { A, B, C } Color;")).
  vm_compute. left. reflexivity.
Defined.

(* ================================================================== *)
(** ** Trimming *)

Lemma dropwhile_snoc p c : forall t,
  p c = false -> dropwhile p (t ++ [c]) = dropwhile p t ++ [c].
Proof.
  induction t as [|x t IH]; intros Hc; simpl.
  - rewrite Hc. reflexivity.
  - destruct (p x); [apply IH; exact Hc|reflexivity].
Qed.

Lemma rstrip_with_cons p c t :
  p c = false -> rstrip_with p (c :: t) = c :: rstrip_with p t.
Proof.
  intros Hc. unfold rstrip_with. simpl.
  rewrite dropwhile_snoc by exact Hc. rewrite rev_app_distr. reflexivity.
Qed.

Lemma strip_cons c t :
  is_space c = false -> strip (c :: t) = c :: rstrip_with is_space t.
Proof.
  intros Hc. unfold strip, lstrip_with. simpl. rewrite Hc.
  apply rstrip_with_cons. exact Hc.
Qed.

Lemma count_dropwhile p c : forall t,
  p c = false -> count c (dropwhile p t) = count c t.
Proof.
  unfold count. induction t as [|x t IH]; intros Hc; simpl; [reflexivity|].
  destruct (p x) eqn:Hx; [|reflexivity].
  rewrite IH by exact Hc. destruct (ascii_dec x c); [congruence|reflexivity].
Qed.

Lemma count_rstrip p c t :
  p c = false -> count c (rstrip_with p t) = count c t.
Proof.
  intros Hc. unfold rstrip_with, count. rewrite count_occ_rev.
  fold (count c (dropwhile p (rev t))). rewrite count_dropwhile by exact Hc.
  unfold count. apply count_occ_rev.
Qed.

(** trimming removes blanks only *)
Lemma count_strip c t : is_space c = false -> count c (strip t) = count c t.
Proof.
  intros Hc. unfold strip, lstrip_with.
  rewrite count_rstrip by exact Hc. apply count_dropwhile. exact Hc.
Qed.

(* ================================================================== *)
(** ** The brace scan *)

Lemma count_cons_eq c t : count c (c :: t) = S (count c t).
Proof. unfold count. apply count_occ_cons_eq. reflexivity. Qed.

Lemma count_cons_neq c x t : x <> c -> count c (x :: t) = count c t.
Proof. intros H. unfold count. apply count_occ_cons_neq. exact H. Qed.

Lemma brace_scan_counts : forall rest d b d',
  brace_scan rest d = (b, d') ->
  (Z.of_nat (count "{" b) - Z.of_nat (count "}" b) = d' - d)%Z.
Proof.
  induction rest as [|ch rest IH]; intros d b d' H; simpl in H.
  - injection H as <- <-. simpl. lia.
  - destruct (Ascii.eqb ch "{") eqn:E1.
    + apply Ascii.eqb_eq in E1. subst ch.
      destruct (brace_scan rest (d + 1)) as [b1 d1] eqn:Hr.
      injection H as <- <-. apply IH in Hr.
      rewrite count_cons_eq, count_cons_neq by discriminate. lia.
    + destruct (Ascii.eqb ch "}") eqn:E2.
      * apply Ascii.eqb_eq in E2. subst ch.
        destruct (Z.eqb (d - 1) 0) eqn:E3.
        -- injection H as <- <-.
           rewrite count_cons_eq, count_cons_neq by discriminate.
           simpl. lia.
        -- destruct (brace_scan rest (d - 1)) as [b1 d1] eqn:Hr.
           injection H as <- <-. apply IH in Hr.
           rewrite count_cons_eq, count_cons_neq by discriminate. lia.
      * destruct (brace_scan rest d) as [b1 d1] eqn:Hr.
        injection H as <- <-. apply IH in Hr.
        apply Ascii.eqb_neq in E1, E2.
        rewrite !count_cons_neq by assumption. exact Hr.
Qed.

(** From depth one or more, the loop is either left by [break] (depth
    zero), or it reads the whole rest of the text and the depth stays
    positive. *)
Lemma brace_scan_exit : forall rest d b d',
  (1 <= d)%Z -> brace_scan rest d = (b, d') ->
  d' = 0%Z \/ ((1 <= d')%Z /\ b = rest).
Proof.
  induction rest as [|ch rest IH]; intros d b d' Hd H; simpl in H.
  - injection H as <- <-. auto.
  - destruct (Ascii.eqb ch "{") eqn:E1.
    + destruct (brace_scan rest (d + 1)) as [b1 d1] eqn:Hr.
      injection H as <- <-. apply IH in Hr; [|lia].
      destruct Hr as [?|[? ->]]; auto.
    + destruct (Ascii.eqb ch "}") eqn:E2.
      * destruct (Z.eqb (d - 1) 0) eqn:E3.
        -- injection H as <- <-. apply Z.eqb_eq in E3. auto.
        -- apply Z.eqb_neq in E3.
           destruct (brace_scan rest (d - 1)) as [b1 d1] eqn:Hr.
           injection H as <- <-. apply IH in Hr; [|lia].
           destruct Hr as [?|[? ->]]; auto.
      * destruct (brace_scan rest d) as [b1 d1] eqn:Hr.
        injection H as <- <-. apply IH in Hr; [|lia].
        destruct Hr as [?|[? ->]]; auto.
Qed.

(* ------------------------------------------------------------------ *)
(** ** Function definitions *)

(** A match of the definition pattern ends just after an opening brace:
    the scan starts on it. *)
Lemma def_match_brace s m :
  match_of func_def_pattern s m ->
  exists rest, skipn (m_end m - 1) s = "{"%char :: rest.
Proof.
  intros (b & a & e & Hs & H & ->). simpl m_end.
  pose proof (den_whole _ _ _ H) as Hw. unfold whole in Hw. simpl in Hw.
  unfold func_def_pattern, func_head in H. do 8 skip_front H.
  simpl in H. destruct H as [He Ha]. exists (after e).
  rewrite <- Hs, <- Hw. unfold pos. rewrite He. simpl.
  rewrite Nat.sub_0_r, <- app_assoc, skipn_app, length_rev, Nat.sub_diag.
  rewrite <- (length_rev (before m6)), skipn_all. reflexivity.
Qed.

Lemma scan_of_brace s m rest :
  skipn (m_end m - 1) s = "{"%char :: rest ->
  scan_of s m = ("{"%char :: fst (brace_scan rest 1), snd (brace_scan rest 1)).
Proof.
  intros H. unfold scan_of. rewrite H. simpl.
  destruct (brace_scan rest 1). reflexivity.
Qed.

(** The body of a definition record is the trimmed scan; it starts with
    the opening brace, so it is never replaced by the sentinel. *)
Lemma def_record_body s m :
  match_of func_def_pattern s m ->
  body (def_record s m) = strip (fst (scan_of s m))
  /\ exists t, body (def_record s m) = "{"%char :: t.
Proof.
  intros H. apply def_match_brace in H as (rest & Hr).
  unfold def_record. simpl body. rewrite (scan_of_brace _ _ Hr). simpl fst.
  rewrite strip_cons by reflexivity. split; eauto.
Qed.

Lemma def_record_not_sentinel s m :
  match_of func_def_pattern s m -> body (def_record s m) <> no_body.
Proof.
  intros H. apply def_record_body in H as (_ & t & ->). discriminate.
Qed.

(** the depth at which the scan of a definition is left is never negative *)
Lemma scan_of_exit s m :
  match_of func_def_pattern s m ->
  snd (scan_of s m) = 0%Z
  \/ ((1 <= snd (scan_of s m))%Z
      /\ fst (scan_of s m) = skipn (m_end m - 1) s).
Proof.
  intros H. apply def_match_brace in H as (rest & Hr).
  rewrite (scan_of_brace _ _ Hr), Hr. simpl.
  destruct (brace_scan rest 1) as [b d] eqn:Hb. simpl.
  apply brace_scan_exit in Hb; [|lia]. destruct Hb as [?|[? ->]]; auto.
Qed.

(* ================================================================== *)
(** ** Function records *)

Lemma apis_of_eq src :
  apis_of src =
  def_records (strip_comments src)
  ++ map proto_record
       (kept_protos (map fn_name (def_records (strip_comments src)))
                    (strip_comments src)).
Proof. reflexivity. Qed.

Lemma in_names_false n names : in_names n names = false -> ~ In n names.
Proof.
  unfold in_names. intros H Hin.
  assert (existsb (text_eqb n) names = true) as E
    by (apply existsb_exists; exists n; split; [exact Hin|apply text_eqb_refl]).
  congruence.
Qed.

Lemma filter_none {A} (f : A -> bool) : forall l,
  (forall x, In x l -> f x = false) -> filter f l = [].
Proof.
  induction l as [|x l IH]; intros H; simpl; [reflexivity|].
  rewrite (H x) by (left; reflexivity). apply IH.
  intros y Hy. apply H. right. exact Hy.
Qed.

Lemma def_records_in s d :
  In d (def_records s) ->
  exists m, In m (finditer func_def_pattern s) /\ d = def_record s m.
Proof.
  unfold def_records. intros H. apply in_map_iff in H as (m & <- & Hm). eauto.
Qed.

Lemma kept_proto_name names s m :
  In m (kept_protos names s) -> ~ In (fn_name (proto_record m)) names.
Proof.
  unfold kept_protos. intros H. apply filter_In in H as [_ H].
  apply negb_true_iff in H. apply in_names_false in H. exact H.
Qed.

(** C1, as the program has it.  A name that the definition pattern matches
    has definition records only, one for each such match, all with a body
    other than the sentinel: every prototype of that name is dropped.
    Hence no record with the sentinel body shares its name with a record
    that has a body. *)
Theorem definition_wins (src : text) :
  let defs := def_records (strip_comments src) in
  (forall d, In d defs -> body d <> no_body)
  /\ (forall r, In r (apis_of src) -> body r = no_body ->
        ~ In (fn_name r) (map fn_name defs))
  /\ (forall n, In n (map fn_name defs) ->
        filter (named n) (apis_of src) = filter (named n) defs).
Proof.
  intros defs.
  assert (Hdef : forall d, In d defs -> body d <> no_body).
  { intros d Hd. apply def_records_in in Hd as (m & Hm & ->).
    apply (@def_record_not_sentinel (strip_comments src)).
    apply finditer_match. exact Hm. }
  split; [exact Hdef|]. split.
  - intros r Hr Hb. rewrite apis_of_eq in Hr. apply in_app_or in Hr as [Hr|Hr].
    + exfalso. exact (Hdef r Hr Hb).
    + apply in_map_iff in Hr as (m & <- & Hm).
      apply kept_proto_name in Hm. exact Hm.
  - intros n Hn. rewrite apis_of_eq, filter_app.
    fold defs. rewrite <- (app_nil_r (filter (named n) defs)) at 2. f_equal.
    apply filter_none. intros r Hr.
    apply in_map_iff in Hr as (m & <- & Hm).
    apply kept_proto_name in Hm. unfold named.
    destruct (text_eqb (fn_name (proto_record m)) n) eqn:E; [|reflexivity].
    apply text_eqb_eq in E. rewrite E in Hm. contradiction.
Qed.

Lemma definition_wins_witness :
  filter (named (T "f")) (apis_of src_proto_and_defs)
  = filter (named (T "f")) (def_records (strip_comments src_proto_and_defs)).
Proof.
  apply (proj2 (proj2 (definition_wins src_proto_and_defs))).
  vm_compute. left. reflexivity.
Defined.

(** C1 as stated fails: a declaration of [f] followed by the definitions
    of [g] and [f] yields two records named [f]; so does a prototype that
    is repeated. *)
Lemma one_name_two_records :
  ~ (forall src n, length (filter (named n) (apis_of src)) <= 1).
Proof.
  intros H. specialize (H src_proto_and_defs (T "f")).
  assert (E : length (filter (named (T "f")) (apis_of src_proto_and_defs)) = 2)
    by (vm_compute; reflexivity).
  rewrite E in H. lia.
Qed.

Lemma def_record_emitted src m :
  In m (finditer func_def_pattern (strip_comments src)) ->
  In (def_record (strip_comments src) m) (apis_of src).
Proof.
  intros H. rewrite apis_of_eq. apply in_or_app. left.
  unfold def_records. apply in_map. exact H.
Qed.

(** C2, as the program has it.  A definition whose brace scan runs into
    the end of the text with the depth still positive is emitted all the
    same: its record carries as body the whole text from the opening brace
    to the end, trimmed. *)
Theorem unbalanced_definition_kept (src : text) (m : Match) :
  In m (finditer func_def_pattern (strip_comments src)) ->
  (0 < snd (scan_of (strip_comments src) m))%Z ->
  In (def_record (strip_comments src) m) (apis_of src)
  /\ body (def_record (strip_comments src) m)
     = strip (skipn (m_end m - 1) (strip_comments src)).
Proof.
  intros Hm Hd. split; [apply def_record_emitted; exact Hm|].
  apply finditer_match in Hm.
  destruct (def_record_body Hm) as [-> _].
  destruct (scan_of_exit Hm) as [E|[_ ->]]; [lia|reflexivity].
Qed.

Lemma unbalanced_definition_kept_witness :
  In (def_record (strip_comments src_unbalanced) m_unbalanced)
     (apis_of src_unbalanced)
  /\ body (def_record (strip_comments src_unbalanced) m_unbalanced)
     = strip (skipn (m_end m_unbalanced - 1) (strip_comments src_unbalanced)).
Proof.
  apply unbalanced_definition_kept.
  - vm_compute. left. reflexivity.
  - vm_compute. reflexivity.
Defined.

(** C2 as stated fails: on [int f() { ] the scan ends at depth one and the
    record of [f] is emitted, with body [{]. *)
Lemma unbalanced_not_skipped :
  ~ (forall src m,
       In m (finditer func_def_pattern (strip_comments src)) ->
       (0 < snd (scan_of (strip_comments src) m))%Z ->
       ~ In (def_record (strip_comments src) m) (apis_of src)).
Proof.
  intros H. apply (H src_unbalanced m_unbalanced).
  - vm_compute. left. reflexivity.
  - vm_compute. reflexivity.
  - vm_compute. left. reflexivity.
Qed.

(** C4, as the program has it.  In the body of a record built from a
    definition, the opening braces exceed the closing ones by the depth at
    which the scan was left, which is never negative: the two counts are
    equal exactly when the scan stopped at the closing brace that brought
    the depth back to zero, and the body has more opening braces when the
    text ended first. *)
Theorem body_brace_balance (src : text) (m : Match) :
  In m (finditer func_def_pattern (strip_comments src)) ->
  let r := def_record (strip_comments src) m in
  let d := snd (scan_of (strip_comments src) m) in
  (Z.of_nat (count "{" (body r)) - Z.of_nat (count "}" (body r)) = d)%Z
  /\ (0 <= d)%Z
  /\ (count "{" (body r) = count "}" (body r) <-> d = 0%Z).
Proof.
  intros Hm r d. apply finditer_match in Hm.
  assert (Hc : (Z.of_nat (count "{" (body r))
                - Z.of_nat (count "}" (body r)) = d)%Z).
  { subst r d. destruct (def_record_body Hm) as [-> _].
    rewrite !count_strip by reflexivity. unfold scan_of.
    destruct (brace_scan _ 0) as [b d'] eqn:Hb. simpl.
    apply brace_scan_counts in Hb. lia. }
  assert (Hd : (0 <= d)%Z).
  { subst d. destruct (scan_of_exit Hm) as [->|[? _]]; lia. }
  repeat split; try assumption; lia.
Qed.

Lemma body_brace_balance_witness :
  let r := def_record (strip_comments src_unbalanced) m_unbalanced in
  let d := snd (scan_of (strip_comments src_unbalanced) m_unbalanced) in
  (Z.of_nat (count "{" (body r)) - Z.of_nat (count "}" (body r)) = d)%Z
  /\ (0 <= d)%Z
  /\ (count "{" (body r) = count "}" (body r) <-> d = 0%Z).
Proof.
  apply body_brace_balance. vm_compute. left. reflexivity.
Defined.

(** C4 as stated fails: the body [{] of [int f() { ] has one opening brace
    and no closing one. *)
Lemma unbalanced_body_counts :
  ~ (forall src r,
       In r (def_records (strip_comments src)) ->
       count "{" (body r) = count "}" (body r)).
Proof.
  intros H.
  specialize (H src_unbalanced
                (def_record (strip_comments src_unbalanced) m_unbalanced)).
  assert (Hin : In (def_record (strip_comments src_unbalanced) m_unbalanced)
                   (def_records (strip_comments src_unbalanced)))
    by (vm_compute; left; reflexivity).
  apply H in Hin.
  assert (E1 : count "{" (body (def_record (strip_comments src_unbalanced)
                                           m_unbalanced)) = 1)
    by (vm_compute; reflexivity).
  assert (E2 : count "}" (body (def_record (strip_comments src_unbalanced)
                                           m_unbalanced)) = 0)
    by (vm_compute; reflexivity).
  rewrite E1, E2 in Hin. clear E1 E2. discriminate Hin.
Qed.

(* ================================================================== *)
(** ** The argument splitter *)

Section Splitter.

Lemma cut_nonempty sep : forall t i, cut sep i t <> [].
Proof.
  induction t as [|c t IH]; intros i; simpl; [discriminate|].
  destruct (sep i); [discriminate|].
  destruct (cut sep (S i) t); discriminate.
Qed.

Lemma cut_cons sep i c t :
  cut sep i (c :: t)
  = if sep i then [] :: cut sep (S i) t
    else prefix_first [c] (cut sep (S i) t).
Proof. reflexivity. Qed.

Lemma prefix_first_twice x y ps :
  prefix_first x (prefix_first y ps) = prefix_first (x ++ y) ps.
Proof.
  destruct ps as [|p ps]; simpl; [reflexivity|].
  rewrite app_assoc. reflexivity.
Qed.

Lemma prefix_first_nil ps : ps <> [] -> prefix_first [] ps = ps.
Proof. destruct ps; [congruence|reflexivity]. Qed.

Lemma length_cut sep : forall t i,
  length (cut sep i t) = S (length (filter sep (seq i (length t)))).
Proof.
  induction t as [|c t IH]; intros i; [reflexivity|].
  rewrite cut_cons. simpl seq. simpl filter. destruct (sep i); simpl.
  - rewrite IH. reflexivity.
  - rewrite <- IH. pose proof (cut_nonempty sep t (S i)).
    destruct (cut sep (S i) t); [congruence|reflexivity].
Qed.

Lemma paren_depth_snoc pre c :
  paren_depth (pre ++ [c])
  = if Ascii.eqb c "(" then (paren_depth pre + 1)%Z
    else if Ascii.eqb c ")" then (paren_depth pre - 1)%Z
    else paren_depth pre.
Proof.
  unfold paren_depth, count. rewrite !count_occ_app. simpl.
  destruct (Ascii.eqb c "(") eqn:E1.
  - apply Ascii.eqb_eq in E1. subst c.
    destruct (ascii_dec "(" "("); [|congruence].
    destruct (ascii_dec "(" ")"); [discriminate|]. lia.
  - destruct (Ascii.eqb c ")") eqn:E2.
    + apply Ascii.eqb_eq in E2. subst c.
      destruct (ascii_dec ")" "("); [discriminate|].
      destruct (ascii_dec ")" ")"); [|congruence]. lia.
    + apply Ascii.eqb_neq in E1, E2.
      destruct (ascii_dec c "("); [congruence|].
      destruct (ascii_dec c ")"); [congruence|]. lia.
Qed.

Lemma top_level_comma_here pre c r :
  top_level_comma (pre ++ c :: r) (length pre)
  = (Ascii.eqb c "," && Z.eqb (paren_depth pre) 0)%bool.
Proof.
  unfold top_level_comma.
  rewrite nth_error_app2, Nat.sub_diag by lia. simpl.
  rewrite firstn_app, Nat.sub_diag, firstn_all. simpl.
  rewrite app_nil_r. reflexivity.
Qed.

(** The loop cuts exactly at the top-level commas: its state after
    reading [cs], started after the prefix [pre] of the text. *)
Lemma split_loop_cut : forall cs pre args cur,
  split_loop cs args (paren_depth pre) cur
  = let ps := prefix_first (rev cur)
                (cut (top_level_comma (pre ++ cs)) (length pre) cs) in
    (rev (map strip (removelast ps)) ++ args, rev (last ps [])).
Proof.
  induction cs as [|c r IH]; intros pre args cur.
  - simpl. rewrite app_nil_r, rev_involutive. reflexivity.
  - rewrite cut_cons, top_level_comma_here. simpl split_loop.
    assert (Hassoc : pre ++ c :: r = (pre ++ [c]) ++ r)
      by (rewrite <- app_assoc; reflexivity).
    assert (Hlen : S (length pre) = length (pre ++ [c]))
      by (rewrite length_app; simpl; lia).
    pose proof (cut_nonempty (top_level_comma (pre ++ c :: r)) r (S (length pre)))
      as Hne.
    destruct (Ascii.eqb c "," && Z.eqb (paren_depth pre) 0)%bool eqn:E.
    + apply andb_prop in E as [E1 _]. apply Ascii.eqb_eq in E1. subst c.
      pose proof (paren_depth_snoc pre ","%char) as Hd. simpl in Hd.
      rewrite <- Hd, IH. rewrite <- Hassoc, <- Hlen. simpl rev at 1.
      rewrite prefix_first_nil by exact Hne.
      destruct (cut (top_level_comma (pre ++ ","%char :: r)) (S (length pre)) r)
        as [|q qs] eqn:Hc; [congruence|].
      cbv zeta. simpl prefix_first. rewrite app_nil_r.
      change (removelast (rev cur :: q :: qs))
        with (rev cur :: removelast (q :: qs)).
      change (last (rev cur :: q :: qs) []) with (last (q :: qs) []).
      f_equal. rewrite map_cons. cbn [rev]. rewrite <- app_assoc. reflexivity.
    + replace (if Ascii.eqb c "(" then (paren_depth pre + 1)%Z
               else if Ascii.eqb c ")" then (paren_depth pre - 1)%Z
               else paren_depth pre)
        with (paren_depth (pre ++ [c])) by apply paren_depth_snoc.
      rewrite IH. rewrite <- Hassoc, <- Hlen.
      rewrite prefix_first_twice. reflexivity.
Qed.

Lemma removelast_map {A B} (f : A -> B) : forall l,
  removelast (map f l) = map f (removelast l).
Proof.
  induction l as [|x l IH]; [reflexivity|]. simpl.
  destruct l; [reflexivity|]. simpl in *. rewrite IH. reflexivity.
Qed.

Lemma last_map {A B} (f : A -> B) d : forall l,
  l <> [] -> last (map f l) (f d) = f (last l d).
Proof.
  induction l as [|x l IH]; intros H; [congruence|]. simpl.
  destruct l; [reflexivity|]. apply IH. discriminate.
Qed.

(** The tokens of the loop are the tokens of the specification. *)
Lemma last_map_strip ps :
  ps <> [] -> last (map strip ps) [] = strip (last ps []).
Proof. intros H. exact (last_map strip [] H). Qed.

Lemma split_tokens_spec t : split_tokens t = spec_tokens t.
Proof.
  unfold split_tokens, spec_tokens, top_level_pieces.
  pose proof (cut_nonempty (top_level_comma t) t 0) as Hne.
  pose proof (split_loop_cut t [] [] []) as H. cbv zeta in H.
  change (paren_depth []) with 0%Z in H.
  change (rev (@nil ascii)) with (@nil ascii) in H.
  change ([] ++ t) with t in H. change (length (@nil ascii)) with 0 in H.
  rewrite prefix_first_nil in H by exact Hne.
  rewrite H. set (ps := cut (top_level_comma t) 0 t) in *.
  rewrite removelast_map, last_map_strip by exact Hne.
  rewrite app_nil_r, rev_involutive.
  destruct (strip (last ps [])) as [|x tok].
  - rewrite rev_involutive, app_nil_r. reflexivity.
  - cbn [rev]. rewrite rev_involutive. reflexivity.
Qed.

Lemma length_spec_tokens t :
  length (spec_tokens t)
  = top_level_commas t
    + match strip (last (top_level_pieces t) []) with [] => 0 | _ => 1 end.
Proof.
  unfold spec_tokens, top_level_commas, top_level_pieces.
  pose proof (cut_nonempty (top_level_comma t) t 0) as Hne.
  pose proof (length_cut (top_level_comma t) t 0) as Hl.
  set (ps := cut (top_level_comma t) 0 t) in *.
  rewrite length_app, removelast_map, length_map.
  rewrite last_map_strip by exact Hne.
  assert (length (removelast ps) = length ps - 1) as ->.
  { destruct ps as [|p ps'] using rev_ind; [congruence|].
    rewrite removelast_last, length_app. simpl. lia. }
  rewrite Hl. destruct (strip (last ps [])); simpl; lia.
Qed.

End Splitter.

(** C7. The argument splitter cuts a parameter list at the commas that
    stand at parenthesis depth zero and nowhere else: its records are
    those of the trimmed pieces between these commas (the last piece
    dropped when blank).  A blank text or the sole token void, in any
    letter case, gives no argument, and the parameter list
    [int a, int ( *cb)(int, int)] gives exactly two. *)
Theorem split_args_top_level (arg_text : text) :
  (strip arg_text = [] \/ lower (strip arg_text) = T "void" ->
     split_args arg_text = [])
  /\ (strip arg_text <> [] -> lower (strip arg_text) <> T "void" ->
        split_args arg_text = map arg_record (spec_tokens (strip arg_text))
        /\ map raw (split_args arg_text) = spec_tokens (strip arg_text))
  /\ length (split_args args_fnptr) = 2.
Proof.
  unfold split_args. split; [|split].
  - intros [H|H]; rewrite H; [reflexivity|].
    rewrite text_eqb_refl, orb_true_r. reflexivity.
  - intros H1 H2.
    destruct (text_eqb (strip arg_text) []) eqn:E1;
      [apply text_eqb_eq in E1; contradiction|].
    destruct (text_eqb (lower (strip arg_text)) (T "void")) eqn:E2;
      [apply text_eqb_eq in E2; contradiction|].
    simpl orb. cbv iota. rewrite split_tokens_spec. split; [reflexivity|].
    rewrite map_map. rewrite <- (map_id (spec_tokens (strip arg_text))) at 2.
    apply map_ext. intros a. unfold arg_record.
    destruct (split_type_name a). reflexivity.
  - vm_compute. reflexivity.
Qed.

Lemma split_args_top_level_witness :
  split_args (T " VOID ") = []
  /\ map raw (split_args args_fnptr) = spec_tokens (strip args_fnptr).
Proof.
  split.
  - apply (proj1 (split_args_top_level (T " VOID "))). right. reflexivity.
  - apply (proj1 (proj2 (split_args_top_level args_fnptr))).
    + vm_compute. discriminate.
    + vm_compute. discriminate.
Defined.

(** C10. On [int a,,int b] the splitter emits, between the records of
    [int a] and [int b], a record whose raw text, type and name are all
    empty.  In general every top-level comma closes a token that is kept
    even when blank, and the text after the last one gives a token only
    when it is not blank. *)
Theorem blank_interior_token_kept :
  split_args args_double_comma
  = [Arg (T "int a") (T "int") (T "a"); Arg [] [] [];
     Arg (T "int b") (T "int") (T "b")]
  /\ split_args (T "int a,") = [Arg (T "int a") (T "int") (T "a")]
  /\ forall t,
       length (split_tokens t)
       = top_level_commas t
         + match strip (last (top_level_pieces t) []) with
           | [] => 0
           | _ => 1
           end.
Proof.
  split; [vm_compute; reflexivity|]. split; [vm_compute; reflexivity|].
  intros t. rewrite split_tokens_spec. apply length_spec_tokens.
Qed.

(** a prototype written twice, with no definition, is emitted twice *)
Example repeated_prototype_two_records :
  map (fun r => (fn_name r, body r))
      (apis_of (T "int f(void);" ++ LF :: T "int f(void);"))
  = [(T "f", no_body); (T "f", no_body)].
Proof. vm_compute. reflexivity. Qed.

(* ================================================================== *)
(** ** Order of the output *)

Lemma traced_fst {A} (f : Match -> A) ms : map fst (traced f ms) = ms.
Proof.
  unfold traced. rewrite map_map. simpl. apply map_id.
Qed.

Lemma traced_snd {A} (f : Match -> A) ms : map snd (traced f ms) = map f ms.
Proof.
  unfold traced. rewrite map_map. reflexivity.
Qed.

Lemma StronglySorted_filter {A} (R : A -> A -> Prop) (f : A -> bool) :
  forall l, StronglySorted R l -> StronglySorted R (filter f l).
Proof.
  induction 1 as [|x l HS IH HF]; simpl; [constructor|].
  destruct (f x); [|exact IH]. constructor; [exact IH|].
  rewrite Forall_forall in *. intros y Hy.
  apply filter_In in Hy as [Hy _]. auto.
Qed.

(** C6, as the program has it.  Each output collection is built pass by
    pass: the macros follow the order of the text; in the type collection
    all enum records come first, in the order of the text, and then all
    struct records, in the order of the text; in the function collection
    all definition records come first and then the prototypes that were
    kept, each group in the order of the text. *)
Theorem output_order_by_pass (src : text) :
  (map snd (macros_trace src) = macros_of src
   /\ map snd (types_trace src) = types_of src
   /\ map snd (apis_trace src) = apis_of src)
  /\ source_ordered (macros_trace src)
  /\ (source_ordered (enums_trace src) /\ source_ordered (structs_trace src)
      /\ Forall (fun r => kind (snd r) = KEnum) (enums_trace src)
      /\ Forall (fun r => kind (snd r) = KStruct) (structs_trace src))
  /\ (source_ordered (defs_trace src) /\ source_ordered (protos_trace src)
      /\ Forall (fun r => body (snd r) <> no_body) (defs_trace src)
      /\ Forall (fun r => body (snd r) = no_body) (protos_trace src)).
Proof.
  unfold source_ordered, macros_trace, types_trace, enums_trace, structs_trace,
    apis_trace, defs_trace, protos_trace.
  rewrite !map_app, !traced_fst, !traced_snd.
  repeat split; try apply finditer_sorted.
  - unfold traced. apply Forall_forall. intros r Hr.
    apply in_map_iff in Hr as (m & <- & _). reflexivity.
  - unfold traced. apply Forall_forall. intros r Hr.
    apply in_map_iff in Hr as (m & <- & _). reflexivity.
  - unfold kept_protos. apply StronglySorted_filter, finditer_sorted.
  - unfold traced. apply Forall_forall. intros r Hr.
    apply in_map_iff in Hr as (m & <- & Hm). simpl.
    apply def_record_not_sentinel, finditer_match. exact Hm.
  - unfold traced. apply Forall_forall. intros r Hr.
    apply in_map_iff in Hr as (m & <- & _). reflexivity.
Qed.

(** C6 as stated fails: a struct typedef written before an enum typedef
    comes after it in the type collection. *)
Lemma struct_before_enum_reordered :
  ~ (forall src,
       source_ordered (macros_trace src)
       /\ source_ordered (types_trace src)
       /\ source_ordered (apis_trace src)).
Proof.
  intros H. destruct (H src_struct_then_enum) as (_ & Ht & _).
  unfold source_ordered in Ht.
  assert (E : map (fun m => (m_start m, m_end m))
                  (map fst (types_trace src_struct_then_enum))
              = [(29, 50); (0, 28)])
    by (vm_compute; reflexivity).
  destruct (map fst (types_trace src_struct_then_enum)) as [|a [|b l]];
    try discriminate E.
  injection E as Ea1 Ea2 Eb1 Eb2 _.
  inversion Ht as [|? ? _ Hall]; subst.
  inversion Hall as [|? ? Hle _]; subst. unfold in_order in Hle. lia.
Qed.

(* ================================================================== *)
(** ** Comment stripping *)

Lemma walk_nil r p :
  (forall b a adv, startswith p a = false -> match_here r b a adv = None) ->
  forall a b skip, contains p a = false -> walk r b a skip = [].
Proof.
  intros Hnone. induction a as [|c a IH]; intros b skip H; simpl in H;
    apply orb_false_elim in H as [Hs Hc].
  - destruct skip; simpl; [|reflexivity].
    unfold matches_here. rewrite Hnone by exact Hs. reflexivity.
  - destruct skip; simpl.
    + unfold matches_here. rewrite Hnone by exact Hs. simpl.
      apply IH. exact Hc.
    + apply IH. exact Hc.
Qed.

Lemma remove_spans_nil : forall s i, remove_spans [] i s = s.
Proof.
  induction s as [|c s IH]; intros i; simpl; [reflexivity|].
  rewrite IH. reflexivity.
Qed.

(** a pattern that starts with two literal characters matches only where
    the text starts with them *)
Lemma match_here_two_lits x y r b a adv :
  startswith [x; y] a = false ->
  match_here (Lit x ;; Lit y ;; r) b a adv = None.
Proof.
  unfold match_here. intros H. simpl.
  destruct a as [|c a]; [reflexivity|]. simpl in H.
  rewrite (Ascii.eqb_sym c x).
  destruct (Ascii.eqb x c); [|reflexivity]. simpl in H.
  destruct a as [|c2 a]; [reflexivity|].
  rewrite (Ascii.eqb_sym c2 y).
  destruct (Ascii.eqb y c2); [|reflexivity]. discriminate.
Qed.

Lemma sub_empty_block_id t :
  contains (T "/*") t = false -> sub_empty pattern_block t = t.
Proof.
  intros H. unfold sub_empty, finditer.
  rewrite (@walk_nil pattern_block (T "/*")); [apply remove_spans_nil| |exact H].
  intros b a adv Hs. apply match_here_two_lits. exact Hs.
Qed.

Lemma sub_empty_line_id t :
  contains (T "//") t = false -> sub_empty pattern_line t = t.
Proof.
  intros H. unfold sub_empty, finditer.
  rewrite (@walk_nil pattern_line (T "//")); [apply remove_spans_nil| |exact H].
  intros b a adv Hs. apply match_here_two_lits. exact Hs.
Qed.

(** a text without comment openers is left as it is *)
Lemma strip_comments_id t :
  contains (T "/*") t = false -> contains (T "//") t = false ->
  strip_comments t = t.
Proof.
  intros H1 H2. unfold strip_comments.
  rewrite sub_empty_block_id by exact H1. apply sub_empty_line_id. exact H2.
Qed.

(* ================================================================== *)
(** ** Macros *)

(** C8 on the input of a define without a value followed by
    [#define B 1]: the blanks required after the first name run over the
    line end, the rest of the second line becomes the value of [A], and no
    record is made for [B]. *)
Theorem define_swallows_next_line :
  map (fun r => (macro_name r, value r)) (macros_of src_two_defines)
  = [(T "A", T "#define B 1")].
Proof. vm_compute. reflexivity. Qed.

(** where every define has a value the records are as expected *)
Example defines_with_values :
  map (fun r => (macro_name r, value r))
      (macros_of (T "#define MAX 100" ++ LF :: T "#define B  1 2  " ++ [LF]))
  = [(T "MAX", T "100"); (T "B", T "1 2")].
Proof. vm_compute. reflexivity. Qed.

(* ================================================================== *)
(** ** Enum members *)

Section EnumLines.

Lemma dropwhile_app_all p ws t :
  forallb p ws = true -> dropwhile p (ws ++ t) = dropwhile p t.
Proof.
  induction ws as [|c ws IH]; intros H; simpl in *; [reflexivity|].
  apply andb_prop in H as [Hc H]. rewrite Hc. apply IH. exact H.
Qed.

Lemma rstrip_with_app_all p t ws :
  forallb p ws = true -> rstrip_with p (t ++ ws) = rstrip_with p t.
Proof.
  intros H. unfold rstrip_with. rewrite rev_app_distr, dropwhile_app_all.
  - reflexivity.
  - rewrite forallb_forall in *. intros c Hc. apply H, in_rev. exact Hc.
Qed.

Lemma rstrip_with_id p t :
  forallb (fun c => negb (p c)) t = true -> rstrip_with p t = t.
Proof.
  intros H. unfold rstrip_with. destruct (rev t) as [|c r] eqn:E.
  - simpl. rewrite <- (rev_involutive t), E. reflexivity.
  - simpl. rewrite forallb_forall in H.
    assert (p c = false) as ->.
    { apply negb_true_iff, H, in_rev. rewrite E. left. reflexivity. }
    rewrite <- E. apply rev_involutive.
Qed.

Lemma dropwhile_keep p n tail c r :
  n = c :: r -> p c = false -> dropwhile p (n ++ tail) = n ++ tail.
Proof. intros -> H. simpl. rewrite H. reflexivity. Qed.

Lemma dropwhile_keep0 p n c r :
  n = c :: r -> p c = false -> dropwhile p n = n.
Proof. intros -> H. simpl. rewrite H. reflexivity. Qed.

Lemma split_head_cons sep c r :
  split_head sep (c :: r)
  = if Ascii.eqb c sep then [] else c :: split_head sep r.
Proof.
  unfold split_head. simpl. destruct (Ascii.eqb c sep); [reflexivity|].
  destruct (split sep r); reflexivity.
Qed.

Lemma split_head_at sep : forall pre post,
  forallb (fun c => negb (Ascii.eqb c sep)) pre = true ->
  split_head sep (pre ++ sep :: post) = pre.
Proof.
  induction pre as [|c pre IH]; intros post H; simpl app.
  - rewrite split_head_cons, Ascii.eqb_refl. reflexivity.
  - simpl in H. apply andb_prop in H as [Hc H].
    rewrite split_head_cons. apply negb_true_iff in Hc. rewrite Hc.
    rewrite IH by exact H. reflexivity.
Qed.

Lemma split_head_none sep : forall t,
  forallb (fun c => negb (Ascii.eqb c sep)) t = true -> split_head sep t = t.
Proof.
  induction t as [|c t IH]; intros H; [reflexivity|].
  simpl in H. apply andb_prop in H as [Hc H].
  rewrite split_head_cons. apply negb_true_iff in Hc. rewrite Hc.
  rewrite IH by exact H. reflexivity.
Qed.

Lemma splitlines_line : forall l rest,
  no_linebreak l = true -> splitlines (l ++ LF :: rest) = l :: splitlines rest.
Proof.
  induction l as [|c l IH]; intros rest H; simpl app.
  - destruct rest; reflexivity.
  - simpl in H. apply andb_prop in H as [Hc H]. apply negb_true_iff in Hc.
    simpl. rewrite Hc, IH by exact H. reflexivity.
Qed.

(** characters of the classes involved *)
Lemma word_plain c :
  is_word c = true ->
  is_space c = false /\ is_linebreak c = false
  /\ Ascii.eqb c "=" = false /\ Ascii.eqb c "," = false
  /\ Ascii.eqb "," c = false.
Proof. by_cases c. Qed.

Lemma blank_plain c :
  blank c = true ->
  is_space c = true /\ is_linebreak c = false /\ Ascii.eqb c "=" = false.
Proof. by_cases c. Qed.

Lemma forallb_impl {A} (f g : A -> bool) l :
  (forall x, f x = true -> g x = true) ->
  forallb f l = true -> forallb g l = true.
Proof.
  intros Hfg H. rewrite forallb_forall in *. auto.
Qed.

Lemma identifier_chars n :
  is_identifier n = true ->
  exists c r, n = c :: r /\ is_word c = true /\ forallb is_word (c :: r) = true.
Proof.
  destruct n as [|c r]; [discriminate|]. simpl. intros H.
  apply andb_prop in H as [Hc Hr]. exists c, r.
  apply ident_start_word in Hc. rewrite Hc. auto.
Qed.

Variable l : EnumLine.
Hypothesis Hwf : wf_line l = true.

Lemma wf_line_parts :
  forallb blank (el_indent l) = true
  /\ (exists c r, el_name l = c :: r /\ is_word c = true
                  /\ forallb is_word (c :: r) = true)
  /\ match el_value l with Some v => no_linebreak v = true | None => True end.
Proof.
  unfold wf_line in Hwf. apply andb_prop in Hwf as [H12 H3].
  apply andb_prop in H12 as [H1 H2]. repeat split; auto.
  - apply identifier_chars. exact H2.
  - destruct (el_value l); auto.
Qed.

Lemma render_line_no_linebreak : no_linebreak (render_line l) = true.
Proof.
  destruct wf_line_parts as (Hi & (c & r & Hn & _ & Hw) & Hv).
  rewrite <- Hn in Hw.
  unfold render_line, no_linebreak. rewrite !forallb_app.
  repeat (apply andb_true_intro; split).
  - eapply forallb_impl; [|exact Hi]. intros x Hx.
    apply blank_plain in Hx as (_ & -> & _). reflexivity.
  - eapply forallb_impl; [|exact Hw]. intros x Hx.
    apply word_plain in Hx as (_ & -> & _). reflexivity.
  - destruct (el_value l) as [v|]; [|reflexivity].
    rewrite forallb_app. simpl. exact Hv.
  - destruct (el_comma l); reflexivity.
Qed.

Lemma render_line_not_blank : text_eqb (strip (render_line l)) [] = false.
Proof.
  destruct wf_line_parts as (Hi & (c & r & Hn & Hc & _) & _).
  unfold render_line, strip, lstrip_with. rewrite Hn.
  rewrite dropwhile_app_all
    by (eapply forallb_impl; [|exact Hi]; intros x Hx;
        apply blank_plain in Hx as (-> & _); reflexivity).
  apply word_plain in Hc as (Hc & _). cbn [dropwhile app]. rewrite Hc.
  rewrite rstrip_with_cons by exact Hc. reflexivity.
Qed.

(** the member taken from the line is the enumerator *)
Lemma render_line_member :
  strip_char "," (strip (split_head "=" (render_line l))) = el_name l.
Proof.
  destruct wf_line_parts as (Hi & (c & r & Hn & Hc & Hw) & _).
  assert (Hsp : forallb is_space (el_indent l) = true).
  { eapply forallb_impl; [|exact Hi]. intros x Hx.
    apply blank_plain in Hx as (-> & _). reflexivity. }
  assert (Hieq : forallb (fun x => negb (Ascii.eqb x "=")) (el_indent l) = true).
  { eapply forallb_impl; [|exact Hi]. intros x Hx.
    apply blank_plain in Hx as (_ & _ & ->). reflexivity. }
  assert (Hneq : forallb (fun x => negb (Ascii.eqb x "=")) (el_name l) = true).
  { rewrite Hn. eapply forallb_impl; [|exact Hw]. intros x Hx.
    apply word_plain in Hx as (_ & _ & -> & _). reflexivity. }
  assert (Hnsp : forallb (fun x => negb (is_space x)) (el_name l) = true).
  { rewrite Hn. eapply forallb_impl; [|exact Hw]. intros x Hx.
    apply word_plain in Hx as (-> & _). reflexivity. }
  assert (Hnco : forallb (fun x => negb (Ascii.eqb "," x)) (el_name l) = true).
  { rewrite Hn. eapply forallb_impl; [|exact Hw]. intros x Hx.
    apply word_plain in Hx as (_ & _ & _ & _ & ->). reflexivity. }
  pose proof (word_plain _ Hc) as (Hc1 & _ & _ & _ & Hc5).
  assert (Hname : strip_char "," (el_name l) = el_name l).
  { unfold strip_char, lstrip_with. rewrite (dropwhile_keep0 _ Hn Hc5).
    apply rstrip_with_id. exact Hnco. }
  assert (Hstrip : forall tail,
            forallb (fun x => negb (is_space x)) (el_name l ++ tail) = true ->
            strip (el_indent l ++ el_name l ++ tail) = el_name l ++ tail).
  { intros tail Ht. unfold strip, lstrip_with.
    rewrite dropwhile_app_all by exact Hsp.
    rewrite (dropwhile_keep _ _ Hn Hc1). apply rstrip_with_id. exact Ht. }
  unfold render_line. destruct (el_value l) as [v|].
  - replace (el_indent l ++ el_name l ++ (T " = " ++ v)
             ++ (if el_comma l then T "," else []))
      with ((el_indent l ++ el_name l ++ T " ") ++ "="%char
            :: (T " " ++ v ++ (if el_comma l then T "," else [])))
      by (rewrite <- !app_assoc; reflexivity).
    rewrite split_head_at
      by (rewrite !forallb_app, Hieq, Hneq; reflexivity).
    unfold strip, lstrip_with.
    rewrite dropwhile_app_all by exact Hsp.
    rewrite (dropwhile_keep _ _ Hn Hc1).
    rewrite rstrip_with_app_all by reflexivity.
    rewrite rstrip_with_id by exact Hnsp. exact Hname.
  - simpl app at 3.
    rewrite split_head_none.
    2:{ rewrite !forallb_app, Hieq, Hneq. destruct (el_comma l); reflexivity. }
    rewrite Hstrip.
    2:{ rewrite forallb_app, Hnsp. destruct (el_comma l); reflexivity. }
    destruct (el_comma l).
    + unfold strip_char, lstrip_with. rewrite (dropwhile_keep _ _ Hn Hc5).
      rewrite rstrip_with_app_all by reflexivity.
      apply rstrip_with_id. exact Hnco.
    + rewrite app_nil_r. exact Hname.
Qed.

Lemma wf_line_name_nonempty : text_eqb (el_name l) [] = false.
Proof.
  destruct wf_line_parts as (_ & (c & r & -> & _) & _). reflexivity.
Qed.

End EnumLines.

Lemma splitlines_lines : forall ls,
  forallb wf_line ls = true ->
  splitlines (concat (map (fun l => render_line l ++ [LF]) ls))
  = map render_line ls.
Proof.
  induction ls as [|l ls IH]; intros H; [reflexivity|].
  simpl in H. apply andb_prop in H as [Hl H]. simpl.
  rewrite <- app_assoc. simpl app.
  rewrite splitlines_line by (apply render_line_no_linebreak; exact Hl).
  rewrite IH by exact H. reflexivity.
Qed.

Lemma members_of_lines : forall ls,
  forallb wf_line ls = true ->
  filter (fun x => negb (text_eqb x []))
    (map (fun line => strip_char "," (strip (split_head "=" line)))
       (filter (fun line => negb (text_eqb (strip line) []))
          (map render_line ls)))
  = map el_name ls.
Proof.
  induction ls as [|l ls IH]; intros H; [reflexivity|].
  simpl in H. apply andb_prop in H as [Hl H]. cbn [map filter].
  rewrite (render_line_not_blank l Hl). cbn [negb map filter].
  rewrite (render_line_member l Hl), (wf_line_name_nonempty l Hl).
  cbn [negb]. rewrite IH by exact H. reflexivity.
Qed.

Lemma splitlines_LF rest : splitlines (LF :: rest) = [] :: splitlines rest.
Proof. exact (@splitlines_line [] rest eq_refl). Qed.

(** the members of a body with one enumerator per line *)
Lemma enum_members_lines ls :
  forallb wf_line ls = true -> enum_members (render_body ls) = map el_name ls.
Proof.
  intros H. unfold enum_members, render_body.
  rewrite splitlines_LF, splitlines_lines by exact H.
  cbn [filter]. change (text_eqb (strip []) []) with true. cbn [negb].
  apply members_of_lines. exact H.
Qed.

(** the record built from a match whose body holds one enumerator per
    line *)
Lemma enum_record_lines (m : Match) (ls : list EnumLine) :
  group m 1 = Some (render_body ls) ->
  forallb wf_line ls = true ->
  enum_record m
  = Typ (group m 2) KEnum (length ls) (map el_name ls)
        (type_comment_of (group_text m 2) (length ls)).
Proof.
  intros Hg Hwf. unfold enum_record, group_text. rewrite Hg.
  rewrite enum_members_lines by exact Hwf. rewrite length_map. reflexivity.
Qed.


(* ================================================================== *)
(** ** Substitution along the scan *)

Section SubWalk.

Variable r : regex.

Lemma covered_app ms1 ms2 i :
  covered (ms1 ++ ms2) i = (covered ms1 i || covered ms2 i)%bool.
Proof. unfold covered. apply existsb_app. Qed.

Lemma covered_before ms i :
  Forall (fun m => m_end m <= i) ms -> covered ms i = false.
Proof.
  intros H. unfold covered. apply not_true_is_false. intros E.
  apply existsb_exists in E as (m & Hm & E).
  rewrite Forall_forall in H. specialize (H m Hm).
  apply andb_prop in E as [_ E]. apply Nat.ltb_lt in E. lia.
Qed.

Lemma covered_after ms i :
  Forall (fun m => i < m_start m) ms -> covered ms i = false.
Proof.
  intros H. unfold covered. apply not_true_is_false. intros E.
  apply existsb_exists in E as (m & Hm & E).
  rewrite Forall_forall in H. specialize (H m Hm).
  apply andb_prop in E as [E _]. apply Nat.leb_le in E. lia.
Qed.

Lemma covered_by ms m i :
  In m ms -> m_start m <= i -> i < m_end m -> covered ms i = true.
Proof.
  intros Hm H1 H2. unfold covered. apply existsb_exists. exists m.
  split; [exact Hm|]. apply andb_true_intro. split.
  - apply Nat.leb_le. exact H1.
  - apply Nat.ltb_lt. exact H2.
Qed.

(** when the matches at the cursor reach [len > 0] characters ahead, one
    of them spans exactly these characters *)
Lemma matches_here_reach b a ms len :
  matches_here r b a = (ms, len) -> 0 < len ->
  exists m, In m ms /\ m_start m = length b /\ m_end m = length b + len.
Proof.
  unfold matches_here. intros H Hlen.
  destruct (match_here r b a false) as [m|] eqn:H1.
  2:{ injection H as <- <-. lia. }
  pose proof (match_here_sound _ _ _ _ H1) as (_ & Hs & He & _).
  destruct (Nat.eqb (m_end m) (m_start m)) eqn:E.
  - destruct (match_here r b a true) as [m2|] eqn:H2.
    + pose proof (match_here_sound _ _ _ _ H2) as (_ & Hs2 & He2 & _).
      injection H as <- <-. exists m2. split; [right; left; reflexivity|].
      split; [exact Hs2|]. lia.
    + injection H as <- <-. lia.
  - injection H as <- <-. exists m. split; [left; reflexivity|].
    split; [exact Hs|]. lia.
Qed.

(** The scan that builds the output agrees with the removal of the
    matches of the scan, whatever was matched earlier ([prev]). *)
Lemma remove_spans_walk : forall a b skip prev,
  Forall (fun m => m_end m <= length b + skip) prev ->
  (forall i, length b <= i < length b + skip -> covered prev i = true) ->
  remove_spans (prev ++ walk r b a skip) (length b) a = sub_walk r b a skip.
Proof.
  induction a as [|c a IH]; intros b skip prev Hprev Hcov; [reflexivity|].
  destruct skip as [|n].
  - cbn [walk sub_walk remove_spans].
    destruct (matches_here r b (c :: a)) as [ms len] eqn:Hm. cbn [snd].
    pose proof (matches_here_sound _ _ _ Hm) as [HF _].
    destruct (walk_sound r a (c :: b) (len - 1)) as [HW _].
    assert (Hlater : covered (walk r (c :: b) a (len - 1)) (length b) = false).
    { apply covered_after. eapply Forall_impl; [|exact HW].
      simpl. intros m [_ Hle]. lia. }
    assert (Hearlier : covered prev (length b) = false).
    { apply covered_before. eapply Forall_impl; [|exact Hprev].
      simpl. intros m Hle. lia. }
    rewrite !covered_app, Hearlier, Hlater, orb_false_r. cbn [orb].
    rewrite app_assoc.
    destruct len as [|n].
    + rewrite covered_before
        by (eapply Forall_impl; [|exact HF]; simpl; intros m (_ & _ & ?); lia).
      f_equal. apply (IH (c :: b) 0 (prev ++ ms)).
      * apply Forall_app. split.
        -- eapply Forall_impl; [|exact Hprev]. simpl. intros m ?. lia.
        -- eapply Forall_impl; [|exact HF]. simpl. intros m (_ & _ & ?). lia.
      * simpl. intros i Hi. lia.
    + destruct (matches_here_reach _ _ Hm) as (m & Hin & Hs & He); [lia|].
      rewrite (covered_by ms m) by (auto; lia).
      replace (S n - 1) with n by lia.
      apply (IH (c :: b) n (prev ++ ms)).
      * apply Forall_app. split.
        -- eapply Forall_impl; [|exact Hprev]. simpl. intros m' ?. lia.
        -- eapply Forall_impl; [|exact HF]. simpl. intros m' (_ & _ & ?). lia.
      * simpl. intros i Hi. rewrite covered_app.
        rewrite (covered_by ms m) by (auto; lia). apply orb_true_r.
  - cbn [walk sub_walk remove_spans].
    assert (Hlater : covered (walk r (c :: b) a n) (length b) = false).
    { destruct (walk_sound r a (c :: b) n) as [HW _].
      apply covered_after. eapply Forall_impl; [|exact HW].
      simpl. intros m [_ Hle]. lia. }
    rewrite covered_app, Hlater, orb_false_r, Hcov by lia.
    apply (IH (c :: b) n prev).
    + eapply Forall_impl; [|exact Hprev]. simpl. intros m ?. lia.
    + simpl. intros i Hi. apply Hcov. lia.
Qed.

Lemma sub_empty_walk s : sub_empty r s = sub_walk r [] s 0.
Proof.
  unfold sub_empty, finditer.
  apply (@remove_spans_walk s [] 0 []); [constructor|].
  simpl. intros i Hi. lia.
Qed.

End SubWalk.

(* ------------------------------------------------------------------ *)
(** ** Line comments *)

Lemma line_rest_after : forall t,
  skipn (length (line_rest t)) t = after_line t.
Proof.
  induction t as [|c t IH]; [reflexivity|]. simpl.
  destruct (Ascii.eqb c LF); [reflexivity|]. simpl. exact IH.
Qed.

Lemma after_line_head : forall t,
  after_line t = [] \/ exists r, after_line t = LF :: r.
Proof.
  induction t as [|c t IH]; [left; reflexivity|]. simpl.
  destruct (Ascii.eqb c LF) eqn:E; [|exact IH].
  apply Ascii.eqb_eq in E. subst c. right. eauto.
Qed.

(** after the two slashes, the lazy star stops at the first line end *)
Lemma exec_line_tail : forall rest b cp k x,
  k (St (rev (line_rest rest) ++ b) (after_line rest) cp) = Some x ->
  exec (StarLazy is_dot ;; Eol) (St b rest cp) k = Some x.
Proof.
  induction rest as [|c rest IH]; intros b cp k x H.
  - simpl in *. rewrite H. reflexivity.
  - simpl in H. simpl. unfold is_dot. destruct (Ascii.eqb c LF) eqn:E.
    + simpl in H. rewrite H. reflexivity.
    + simpl negb. cbv iota. apply (IH (c :: b) cp k x).
      simpl in H. rewrite <- app_assoc in H. exact H.
Qed.

Lemma match_here_line b rest adv :
  match_here pattern_line b ("/"%char :: "/"%char :: rest) adv
  = Some (Mk (length b) (length b + 2 + length (line_rest rest)) []).
Proof.
  unfold match_here, pattern_line.
  set (k := fun e : state => _).
  assert (Hlen : pos (St (rev (line_rest rest) ++ "/"%char :: "/"%char :: b)
                         (after_line rest) [])
                 = length b + 2 + length (line_rest rest)).
  { unfold pos. simpl. rewrite length_app, length_rev. simpl. lia. }
  change (exec (Lit "/" ;; Lit "/" ;; StarLazy is_dot ;; Eol)
               (St b ("/"%char :: "/"%char :: rest) []) k)
    with (exec (StarLazy is_dot ;; Eol)
               (St ("/"%char :: "/"%char :: b) rest []) k).
  rewrite (@exec_line_tail rest _ [] k
             (St (rev (line_rest rest) ++ "/"%char :: "/"%char :: b)
                 (after_line rest) [])).
  - rewrite Hlen. reflexivity.
  - subst k. cbv beta. rewrite Hlen.
    destruct adv; [|reflexivity]. simpl andb.
    replace (Nat.eqb (length b + 2 + length (line_rest rest)) (length b))
      with false; [reflexivity|].
    symmetry. apply Nat.eqb_neq. lia.
Qed.

Lemma matches_here_line b rest :
  snd (matches_here pattern_line b ("/"%char :: "/"%char :: rest))
  = S (S (length (line_rest rest))).
Proof.
  unfold matches_here. rewrite match_here_line. cbn [m_start m_end].
  replace (Nat.eqb (length b + 2 + length (line_rest rest)) (length b))
    with false by (symmetry; apply Nat.eqb_neq; lia).
  cbn [snd]. lia.
Qed.

Lemma matches_here_no_line b a :
  startswith (T "//") a = false -> snd (matches_here pattern_line b a) = 0.
Proof.
  intros H. unfold matches_here, pattern_line.
  rewrite (@match_here_two_lits "/" "/" _ b a false H). reflexivity.
Qed.

Lemma startswith_two x y a :
  startswith [x; y] a = true -> exists rest, a = x :: y :: rest.
Proof.
  destruct a as [|c [|d rest]]; simpl; try discriminate.
  - rewrite andb_false_r. discriminate.
  - intros H. apply andb_prop in H as [H1 H2].
    apply andb_prop in H2 as [H2 _].
    apply Ascii.eqb_eq in H1, H2. subst. eauto.
Qed.

(** What is left after the line comments are removed holds no line
    comment opener; it starts with a slash only where the text did,
    outside any comment. *)
Lemma sub_walk_line : forall a b skip,
  skip = 0 \/ at_line_end a skip ->
  contains (T "//") (sub_walk pattern_line b a skip) = false
  /\ (forall x, sub_walk pattern_line b a skip = "/"%char :: x ->
        skip = 0 /\ exists a', a = "/"%char :: a').
Proof.
  induction a as [|c a IH]; intros b skip H.
  - simpl. split; [reflexivity|discriminate].
  - destruct skip as [|n].
    + cbn [sub_walk].
      destruct (startswith (T "//") (c :: a)) eqn:Hs.
      * destruct (startswith_two _ _ _ Hs) as (rest & E).
        injection E as -> ->. rewrite matches_here_line.
        destruct (IH ("/"%char :: b) (S (length (line_rest rest)))) as [IH1 IH2].
        { right. unfold at_line_end. simpl skipn. rewrite line_rest_after.
          apply after_line_head. }
        split; [exact IH1|]. intros x Hx. apply IH2 in Hx as [Hx _].
        discriminate Hx.
      * rewrite (matches_here_no_line b _ Hs).
        destruct (IH (c :: b) 0) as [IH1 IH2]; [left; reflexivity|].
        split.
        -- cbn [contains]. rewrite IH1, orb_false_r.
           destruct (startswith (T "//")
                       (c :: sub_walk pattern_line (c :: b) a 0)) eqn:Ho;
             [|reflexivity].
           destruct (startswith_two _ _ _ Ho) as (rest & E).
           injection E as -> E. apply IH2 in E as (_ & a' & ->).
           simpl in Hs. discriminate Hs.
        -- intros x Hx. injection Hx as -> _. split; [reflexivity|eauto].
    + cbn [sub_walk].
      assert (Hend : at_line_end a n).
      { destruct H as [H|H]; [discriminate H|]. exact H. }
      destruct (IH (c :: b) n) as [IH1 IH2]; [right; exact Hend|].
      split; [exact IH1|]. intros x Hx.
      apply IH2 in Hx as (-> & a' & ->). exfalso.
      unfold at_line_end in Hend. simpl in Hend.
      destruct Hend as [E|[r E]]; discriminate E.
Qed.

(** the output of the line-comment pass never holds a line-comment
    opener *)
Lemma sub_empty_line_clean t :
  contains (T "//") (sub_empty pattern_line t) = false.
Proof.
  rewrite sub_empty_walk. apply sub_walk_line. left. reflexivity.
Qed.

Lemma strip_comments_no_line_opener t :
  contains (T "//") (strip_comments t) = false.
Proof. unfold strip_comments. apply sub_empty_line_clean. Qed.

(* ------------------------------------------------------------------ *)
(** ** Stripping twice *)

(** C5, as the program has it.  A stripped text never holds a
    line-comment opener, and stripping it again changes nothing whenever
    it holds no block-comment opener either.  (Removing a comment can join
    a slash and a star into a new block-comment opener.) *)
Theorem strip_comments_idempotent_when_clean (t : text) :
  contains (T "//") (strip_comments t) = false
  /\ (contains (T "/*") (strip_comments t) = false ->
      strip_comments (strip_comments t) = strip_comments t).
Proof.
  split; [apply strip_comments_no_line_opener|].
  intros H. apply strip_comments_id; [exact H|].
  apply strip_comments_no_line_opener.
Qed.

Lemma strip_comments_idempotent_when_clean_witness :
  strip_comments (strip_comments src_two_comments)
  = strip_comments src_two_comments.
Proof.
  apply (proj2 (strip_comments_idempotent_when_clean src_two_comments)).
  vm_compute. reflexivity.
Defined.

(** C5 as stated fails: removing the inner block comment of [//**/**/]
    joins a slash and two stars into a new block comment, which only a
    second stripping removes. *)
Lemma strip_comments_not_idempotent :
  ~ (forall t, strip_comments (strip_comments t) = strip_comments t).
Proof.
  intros H. specialize (H src_nested_comment).
  assert (E1 : strip_comments src_nested_comment = T "/**/")
    by (vm_compute; reflexivity).
  rewrite E1 in H.
  assert (E2 : strip_comments (T "/**/") = [])
    by (vm_compute; reflexivity).
  rewrite E2 in H. clear E1 E2. discriminate H.
Qed.

(* ================================================================== *)
(** ** Running the matcher forward *)

Section Forward.

Lemma exec_seq r1 r2 st k :
  exec (r1 ;; r2) st k = exec r1 st (fun m => exec r2 m k).
Proof. reflexivity. Qed.

Lemma exec_lit c b a cp k :
  exec (Lit c) (St b (c :: a) cp) k = k (St (c :: b) a cp).
Proof. simpl. rewrite Ascii.eqb_refl. reflexivity. Qed.

Lemma exec_cls p c b a cp k :
  p c = true -> exec (Cls p) (St b (c :: a) cp) k = k (St (c :: b) a cp).
Proof. intros H. simpl. rewrite H. reflexivity. Qed.

Lemma exec_word : forall w b a cp k,
  exec (Word w) (St b (w ++ a) cp) k = k (St (rev w ++ b) a cp).
Proof.
  induction w as [|c w IH]; intros b a cp k; [reflexivity|].
  cbn [Word app]. rewrite exec_seq, exec_lit. cbv beta. rewrite IH.
  cbn [rev]. rewrite <- app_assoc. reflexivity.
Qed.

(** a greedy star that can take all of [cs] and no more succeeds there
    when the continuation does *)
Lemma exec_star_max p : forall cs rest b cp k x,
  forallb p cs = true -> stops p rest = true ->
  k (St (rev cs ++ b) rest cp) = Some x ->
  exec (Star p) (St b (cs ++ rest) cp) k = Some x.
Proof.
  cbn [exec before after caps].
  induction cs as [|c cs IH]; intros rest b cp k x Hcs Hstop Hk.
  - cbn [app rev] in *. destruct rest as [|c rest]; [exact Hk|].
    simpl in Hstop. apply negb_true_iff in Hstop. simpl. rewrite Hstop.
    exact Hk.
  - simpl in Hcs. apply andb_prop in Hcs as [Hc Hcs].
    cbn [app star_greedy]. rewrite Hc.
    rewrite (IH rest (c :: b) cp k x Hcs Hstop); [reflexivity|].
    cbn [rev] in Hk. rewrite <- app_assoc in Hk. exact Hk.
Qed.

(** a lazy star stops at the first place where the continuation
    succeeds *)
Lemma exec_starlazy_first p : forall cs rest b cp k x,
  forallb p cs = true ->
  (forall c1 y c2, cs = c1 ++ y :: c2 ->
     k (St (rev c1 ++ b) (y :: c2 ++ rest) cp) = None) ->
  k (St (rev cs ++ b) rest cp) = Some x ->
  exec (StarLazy p) (St b (cs ++ rest) cp) k = Some x.
Proof.
  cbn [exec before after caps].
  induction cs as [|c cs IH]; intros rest b cp k x Hcs Hnone Hk.
  - cbn [app rev] in *. destruct rest; simpl; rewrite Hk; reflexivity.
  - simpl in Hcs. apply andb_prop in Hcs as [Hc Hcs].
    cbn [app star_lazy].
    pose proof (Hnone [] c cs eq_refl) as H0. cbn [rev app] in H0.
    rewrite H0, Hc.
    apply IH; [exact Hcs| |].
    + intros c1 y c2 E. specialize (Hnone (c :: c1) y c2).
      cbn [rev app] in Hnone. rewrite <- app_assoc in Hnone.
      apply Hnone. rewrite E. reflexivity.
    + cbn [rev] in Hk. rewrite <- app_assoc in Hk. exact Hk.
Qed.

(** once the cursor is past the previous match only at the very end of
    the text, a pattern that needs a character finds nothing more *)
Lemma walk_skip_all r :
  (forall b adv, match_here r b [] adv = None) ->
  forall a b, walk r b a (length a) = [].
Proof.
  intros Hnone. induction a as [|c a IH]; intros b.
  - simpl. unfold matches_here. rewrite Hnone. reflexivity.
  - simpl. apply IH.
Qed.

End Forward.

Lemma exec_star_stop p b a cp k :
  stops p a = true -> exec (Star p) (St b a cp) k = k (St b a cp).
Proof.
  intros H. cbn [exec before after caps]. destruct a as [|c a]; [reflexivity|].
  simpl in H. apply negb_true_iff in H. simpl. rewrite H. reflexivity.
Qed.

Lemma exec_opt_some r1 st k x :
  exec r1 st k = Some x -> exec (Opt r1) st k = Some x.
Proof. intros H. cbn [exec]. rewrite H. reflexivity. Qed.

Lemma exec_grp n r1 st k :
  exec (Grp n r1) st k = exec r1 st (fun e => k (set_cap n (consumed st e) e)).
Proof. reflexivity. Qed.

Lemma forallb_any t : forallb is_any t = true.
Proof. induction t; [reflexivity|assumption]. Qed.

(* ------------------------------------------------------------------ *)
(** ** The enum pattern on an enum typedef *)

Section EnumTypedef.

Variables (bd : text) (c0 : ascii) (nr : text).
Hypothesis Hbd : forallb (fun c => negb (Ascii.eqb c "}")) bd = true.
Hypothesis Hc0 : is_ident_start c0 = true.
Hypothesis Hnr : forallb is_word nr = true.

Lemma enum_typedef_shape :
  enum_typedef bd (c0 :: nr)
  = T "typedef" ++ " "%char :: T "enum" ++ [" "%char] ++ "{"%char :: bd
    ++ "}"%char :: [" "%char] ++ c0 :: nr ++ [";"%char].
Proof.
  unfold enum_typedef. reflexivity.
Qed.

Lemma exec_enum_typedef k x :
  k (enum_end_state bd c0 nr) = Some x ->
  exec enum_pattern (St [] (enum_typedef bd (c0 :: nr)) []) k = Some x.
Proof.
  intros Hk. rewrite enum_typedef_shape. unfold enum_pattern, Plus.
  rewrite exec_seq, exec_word. cbv beta.
  rewrite !exec_seq, exec_cls by reflexivity. cbv beta.
  rewrite exec_star_stop by reflexivity.
  rewrite exec_seq, exec_word. cbv beta.
  rewrite exec_seq. apply exec_star_max; [reflexivity|reflexivity|].
  rewrite exec_seq. apply exec_opt_some.
  rewrite exec_seq, exec_star_stop by reflexivity.
  rewrite exec_star_stop by reflexivity.
  rewrite exec_seq, exec_lit. cbv beta.
  rewrite exec_seq, exec_grp.
  apply exec_starlazy_first; [apply forallb_any| |].
  - intros c1 y c2 E. rewrite exec_seq. cbn [exec after set_cap].
    replace (Ascii.eqb y "}") with false; [reflexivity|].
    symmetry. rewrite E, forallb_app in Hbd.
    apply andb_prop in Hbd as [_ H]. simpl in H.
    apply andb_prop in H as [H _]. apply negb_true_iff in H. exact H.
  - rewrite (@consumed_app _ _ bd) by reflexivity. unfold set_cap.
    cbn [before after caps].
    rewrite exec_seq, exec_lit. cbv beta.
    rewrite exec_seq. apply exec_star_max; [reflexivity| |].
    { cbn [stops app]. apply negb_true_iff.
      apply (word_plain c0 (ident_start_word c0 Hc0)). }
    cbv beta. rewrite exec_seq, exec_grp. unfold ident.
    rewrite exec_seq, exec_cls by exact Hc0. cbv beta.
    apply exec_star_max; [exact Hnr|reflexivity|].
    rewrite (@consumed_app _ _ (c0 :: nr))
      by (cbn [before rev]; rewrite <- (app_assoc (rev nr)); reflexivity).
    unfold set_cap. cbn [before after caps].
    rewrite exec_seq, exec_star_stop by reflexivity.
    rewrite exec_lit. exact Hk.
Qed.

Lemma enum_end_state_pos :
  pos (enum_end_state bd c0 nr) = length (enum_typedef bd (c0 :: nr)).
Proof.
  rewrite enum_typedef_shape. unfold pos, enum_end_state.
  cbn [before].
  repeat (rewrite ?length_app, ?length_rev; cbn [length]). lia.
Qed.

Lemma match_here_enum_typedef adv :
  match_here enum_pattern [] (enum_typedef bd (c0 :: nr)) adv
  = Some (Mk 0 (length (enum_typedef bd (c0 :: nr)))
             [(2, c0 :: nr); (1, bd)]).
Proof.
  unfold match_here.
  rewrite (@exec_enum_typedef _ (enum_end_state bd c0 nr)).
  - rewrite enum_end_state_pos. reflexivity.
  - rewrite enum_end_state_pos. cbn [length].
    replace (Nat.eqb (length (enum_typedef bd (c0 :: nr))) 0) with false;
      [rewrite andb_false_r; reflexivity|].
    symmetry. apply Nat.eqb_neq. rewrite enum_typedef_shape. discriminate.
Qed.

Lemma match_here_enum_end b adv : match_here enum_pattern b [] adv = None.
Proof. reflexivity. Qed.

(** the enum pattern matches the whole typedef, once *)
Lemma finditer_enum_typedef :
  finditer enum_pattern (enum_typedef bd (c0 :: nr))
  = [Mk 0 (length (enum_typedef bd (c0 :: nr))) [(2, c0 :: nr); (1, bd)]].
Proof.
  unfold finditer.
  pose proof (match_here_enum_typedef false) as Hm.
  destruct (enum_typedef bd (c0 :: nr)) as [|c tail] eqn:Hs;
    [rewrite enum_typedef_shape in Hs; discriminate Hs|].
  cbn [walk]. unfold matches_here. rewrite Hm. cbn [m_start m_end].
  cbn [length Nat.eqb]. rewrite Nat.sub_0_r.
  replace (S (length tail) - 1) with (length tail) by lia.
  rewrite (walk_skip_all enum_pattern match_here_enum_end). reflexivity.
Qed.

End EnumTypedef.

(* ------------------------------------------------------------------ *)
(** ** Enum typedefs, end to end *)

(** C3, as the program has it.  The members of an enum are read line by
    line.  Whatever the input, a match of the enum pattern whose body
    holds one enumerator per line (blanks, the enumerator, optionally an
    equals sign and a value, optionally a comma) gives a TypeRecord of
    kind enum with the enumerators in declaration order as members, values
    discarded, and their number as num_members.  In particular, for the
    input that is such a typedef (no closing brace and no comment opener
    in the body) this record, with the type name as typedef_name, is the
    one enum record.  Enumerators that share a line are not separated. *)
Theorem enum_members_one_per_line :
  (forall (src : text) (m : Match) (ls : list EnumLine),
     In m (finditer enum_pattern (strip_comments src)) ->
     group m 1 = Some (render_body ls) ->
     forallb wf_line ls = true ->
     In (enum_record m) (types_of src)
     /\ kind (enum_record m) = KEnum
     /\ members (enum_record m) = map el_name ls
     /\ num_members (enum_record m) = length ls
     /\ typedef_name (enum_record m) = group m 2)
  /\ (forall (ls : list EnumLine) (nm : text),
        forallb wf_line ls = true ->
        is_identifier nm = true ->
        forallb (fun c => negb (Ascii.eqb c "}")) (render_body ls) = true ->
        contains (T "/*") (enum_typedef (render_body ls) nm) = false ->
        contains (T "//") (enum_typedef (render_body ls) nm) = false ->
        exists rest,
          types_of (enum_typedef (render_body ls) nm)
          = Typ (Some nm) KEnum (length ls) (map el_name ls)
                (type_comment_of nm (length ls)) :: rest
          /\ Forall (fun r => kind r = KStruct) rest).
Proof.
  split.
  - intros src m ls Hin Hg Hwf. split.
    + unfold types_of, parse_with_regex. apply in_or_app. left.
      apply in_map. exact Hin.
    + rewrite (enum_record_lines m Hg Hwf). auto.
  - intros ls nm Hwf Hid Hbd Hblock Hline.
    destruct nm as [|c0 nr]; [discriminate Hid|].
    simpl in Hid. apply andb_prop in Hid as [Hc0 Hnr].
    exists (map struct_record
              (finditer struct_pattern
                 (enum_typedef (render_body ls) (c0 :: nr)))).
    split.
    + unfold types_of, parse_with_regex.
      rewrite (strip_comments_id _ Hblock Hline).
      rewrite (@finditer_enum_typedef (render_body ls) c0 nr Hbd Hc0 Hnr).
      cbn [map app]. f_equal.
      apply enum_record_lines; [reflexivity|exact Hwf].
    + apply Forall_forall. intros r Hr.
      apply in_map_iff in Hr as (m & <- & _). reflexivity.
Qed.

Lemma enum_members_one_per_line_witness :
  exists rest,
    types_of (enum_typedef (render_body lines_enum_lines) (T "Color"))
    = Typ (Some (T "Color")) KEnum 3 [T "A"; T "B"; T "C"]
          (type_comment_of (T "Color") 3) :: rest
    /\ Forall (fun r => kind r = KStruct) rest.
Proof.
  apply (proj2 enum_members_one_per_line lines_enum_lines (T "Color"));
    vm_compute; reflexivity.
Defined.

(** the three-line enum [Color], evaluated *)
Example enum_lines_evaluated :
  src_enum_lines = enum_typedef (render_body lines_enum_lines) (T "Color")
  /\ map (fun r => (typedef_name r, kind r, num_members r, members r))
         (types_of src_enum_lines)
     = [(Some (T "Color"), KEnum, 3, [T "A"; T "B"; T "C"])].
Proof. split; vm_compute; reflexivity. Qed.

(** C3 as stated fails: for [typedef enum { A, B, C } Color;] the one
    record has the single member [A, B, C], not the three enumerators. *)
Lemma enum_on_one_line_not_split :
  ~ (exists r, In r (types_of src_enum_one_line)
               /\ kind r = KEnum /\ num_members r = 3
               /\ members r = [T "A"; T "B"; T "C"]).
Proof.
  intros (r & Hr & _ & Hn & _).
  assert (E : map num_members (types_of src_enum_one_line) = [1])
    by (vm_compute; reflexivity).
  apply (in_map num_members) in Hr. rewrite E, Hn in Hr. clear E.
  destruct Hr as [Hr|[]]. discriminate Hr.
Qed.

(* ================================================================== *)
(** * Further properties of the program *)

(* ------------------------------------------------------------------ *)
(** ** Comment stripping only deletes *)

Lemma Subseq_refl : forall t, Subseq t t.
Proof.
  induction t; [apply Subseq_nil|apply Subseq_keep; assumption].
Qed.

Lemma Subseq_trans : forall b c, Subseq b c -> forall a, Subseq a b -> Subseq a c.
Proof.
  induction 1 as [|x b c Hbc IH|x b c Hbc IH]; intros a Hab.
  - exact Hab.
  - constructor. apply IH. exact Hab.
  - inversion Hab; subst.
    + apply Subseq_drop. apply IH. assumption.
    + apply Subseq_keep. apply IH. assumption.
Qed.

Lemma Subseq_length s t : Subseq s t -> length s <= length t.
Proof. induction 1; simpl; lia. Qed.

Lemma Subseq_count c s t : Subseq s t -> count c s <= count c t.
Proof.
  unfold count. induction 1 as [|x s t H IH|x s t H IH]; simpl; [lia| |];
    destruct (ascii_dec x c); lia.
Qed.

Lemma remove_spans_Subseq ms : forall s i, Subseq (remove_spans ms i s) s.
Proof.
  induction s as [|c s IH]; intros i; simpl; [constructor|].
  destruct (covered ms i); [apply Subseq_drop|apply Subseq_keep]; apply IH.
Qed.

Lemma sub_empty_Subseq r s : Subseq (sub_empty r s) s.
Proof. apply remove_spans_Subseq. Qed.

(** X1. Comment stripping only deletes characters: the stripped text is
    the source with some characters removed, the others kept in order.
    So it is never longer than the source and holds no more occurrences
    of any character. *)
Theorem strip_comments_only_deletes (source : text) :
  Subseq (strip_comments source) source
  /\ length (strip_comments source) <= length source
  /\ forall c, count c (strip_comments source) <= count c source.
Proof.
  assert (H : Subseq (strip_comments source) source).
  { unfold strip_comments.
    apply (Subseq_trans (sub_empty_Subseq pattern_block source)).
    apply sub_empty_Subseq. }
  split; [exact H|]. split; [apply Subseq_length; exact H|].
  intros c. apply Subseq_count. exact H.
Qed.

(* ------------------------------------------------------------------ *)
(** ** Line comments and line feeds *)

Lemma line_rest_cons_length c t n :
  S n <= length (line_rest (c :: t)) ->
  Ascii.eqb c LF = false /\ n <= length (line_rest t).
Proof.
  simpl. destruct (Ascii.eqb c LF); simpl; intros H; [lia|]. split; [reflexivity|lia].
Qed.

Lemma count_LF_cons c t : Ascii.eqb c LF = false -> count LF (c :: t) = count LF t.
Proof.
  intros H. apply count_cons_neq. apply Ascii.eqb_neq. exact H.
Qed.

(** while it skips a line comment the scan stays before the line end, so
    it drops no line feed *)
Lemma sub_walk_line_LF : forall a b skip,
  skip <= length (line_rest a) ->
  count LF (sub_walk pattern_line b a skip) = count LF a.
Proof.
  induction a as [|c a IH]; intros b skip H; [reflexivity|].
  destruct skip as [|n].
  - cbn [sub_walk]. destruct (startswith (T "//") (c :: a)) eqn:Hs.
    + destruct (startswith_two _ _ _ Hs) as (rest & E).
      injection E as -> ->. rewrite matches_here_line.
      rewrite IH by (simpl; lia).
      symmetry. apply count_LF_cons. reflexivity.
    + rewrite (matches_here_no_line b _ Hs).
      destruct (Ascii.eqb c LF) eqn:E.
      * apply Ascii.eqb_eq in E. subst c.
        rewrite !count_cons_eq. f_equal. apply IH. lia.
      * rewrite !count_LF_cons by exact E. apply IH. lia.
  - cbn [sub_walk]. apply line_rest_cons_length in H as [E Hn].
    rewrite count_LF_cons by exact E. apply IH. exact Hn.
Qed.

(** X2. Removing line comments never removes a line feed, so where the
    source has no block-comment opener the stripped text has exactly as
    many line feeds as the source: the lines keep their numbers. *)
Theorem strip_comments_keeps_lines (source : text) :
  contains (T "/*") source = false ->
  count LF (strip_comments source) = count LF source.
Proof.
  intros H. unfold strip_comments. rewrite (sub_empty_block_id _ H).
  rewrite sub_empty_walk. apply sub_walk_line_LF. lia.
Qed.

Lemma strip_comments_keeps_lines_witness :
  count LF (strip_comments (T "int a; // c" ++ LF :: T "int d; // e" ++ [LF]))
  = count LF (T "int a; // c" ++ LF :: T "int d; // e" ++ [LF]).
Proof.
  apply strip_comments_keeps_lines. vm_compute. reflexivity.
Defined.

(* ------------------------------------------------------------------ *)
(** ** Trimmed texts *)

Lemma dropwhile_result p : forall t,
  dropwhile p t = [] \/ exists c r, dropwhile p t = c :: r /\ p c = false.
Proof.
  induction t as [|c t IH]; [left; reflexivity|]. simpl.
  destruct (p c) eqn:E; [exact IH|]. right. eauto.
Qed.

Lemma strip_trimmed t : trimmed (strip t) = true.
Proof.
  unfold strip, lstrip_with.
  destruct (dropwhile_result is_space t) as [->|(c & u & -> & Hc)];
    [reflexivity|].
  rewrite rstrip_with_cons by exact Hc. simpl. rewrite Hc. simpl.
  unfold rstrip_with.
  destruct (dropwhile_result is_space (rev u)) as [->|(x & d & -> & Hx)].
  - simpl. rewrite Hc. reflexivity.
  - simpl. rewrite last_last, Hx. reflexivity.
Qed.

Lemma trimmed_strip t : trimmed t = true -> strip t = t.
Proof.
  destruct t as [|c r]; [reflexivity|]. simpl. intros H.
  apply andb_prop in H as [Hc Hl]. apply negb_true_iff in Hc, Hl.
  rewrite strip_cons by exact Hc. f_equal.
  destruct r as [|x r] using rev_ind; [reflexivity|].
  rewrite last_last in Hl. unfold rstrip_with.
  rewrite rev_app_distr. simpl. rewrite Hl. simpl.
  rewrite rev_involutive. reflexivity.
Qed.

Lemma mem_char_In c t : mem_char c t = true <-> In c t.
Proof.
  unfold mem_char. rewrite existsb_exists. split.
  - intros (x & Hx & E). apply Ascii.eqb_eq in E. subst. exact Hx.
  - intros H. exists c. split; [exact H|apply Ascii.eqb_refl].
Qed.

Lemma mem_char_false_sub c s t :
  (forall x, In x s -> In x t) -> mem_char c t = false -> mem_char c s = false.
Proof.
  intros Hsub H. apply not_true_is_false. intros E.
  apply mem_char_In in E. apply Hsub, mem_char_In in E. congruence.
Qed.

Lemma dropwhile_In p x : forall t, In x (dropwhile p t) -> In x t.
Proof.
  induction t as [|c t IH]; simpl; [auto|].
  destruct (p c); [auto|]. simpl. auto.
Qed.

Lemma strip_In x t : In x (strip t) -> In x t.
Proof.
  unfold strip, rstrip_with, lstrip_with. intros H.
  apply in_rev, dropwhile_In, in_rev, dropwhile_In in H. exact H.
Qed.

(* ------------------------------------------------------------------ *)
(** ** Cutting at the last blank *)

Lemma split_no_sep sep : forall u,
  mem_char sep u = false -> split sep u = [u].
Proof.
  induction u as [|c u IH]; [reflexivity|]. unfold mem_char. simpl.
  intros H. apply orb_false_elim in H as [Hc H].
  rewrite Ascii.eqb_sym, Hc. rewrite (IH H). reflexivity.
Qed.

Lemma split_nonempty sep : forall u, split sep u <> [].
Proof.
  induction u as [|c u IH]; simpl; [discriminate|].
  destruct (Ascii.eqb c sep); [discriminate|].
  destruct (split sep u); discriminate.
Qed.

Lemma split_first_sep sep : forall u,
  mem_char sep u = true ->
  exists h u2 q qs, u = h ++ sep :: u2 /\ mem_char sep h = false
                     /\ split sep u = h :: q :: qs.
Proof.
  induction u as [|c u IH]; [discriminate|]. unfold mem_char. simpl.
  intros H. destruct (Ascii.eqb c sep) eqn:E.
  - apply Ascii.eqb_eq in E. subst c.
    pose proof (split_nonempty sep u) as Hne.
    destruct (split sep u) as [|q qs] eqn:Hs; [congruence|].
    exists [], u, q, qs. auto.
  - rewrite Ascii.eqb_sym, E in H. simpl in H.
    destruct (IH H) as (h & u2 & q & qs & -> & Hh & Hs).
    exists (c :: h), u2, q, qs. rewrite Hs. repeat split.
    unfold mem_char. simpl. rewrite Ascii.eqb_sym, E. exact Hh.
Qed.

Lemma mem_char_rev c t : mem_char c (rev t) = mem_char c t.
Proof.
  destruct (mem_char c t) eqn:E.
  - apply mem_char_In. apply in_rev. rewrite rev_involutive.
    apply mem_char_In. exact E.
  - apply (mem_char_false_sub c (rev t) t); [|exact E].
    intros x Hx. apply in_rev. exact Hx.
Qed.

(** [rsplit(' ', 1)]: the text itself when it holds no separator, otherwise
    the parts before and after the last separator *)
Lemma rsplit1_spec sep t :
  (mem_char sep t = false /\ rsplit1 sep t = [t])
  \/ (exists p0 p1, t = p0 ++ sep :: p1 /\ mem_char sep p1 = false
                    /\ rsplit1 sep t = [p0; p1]).
Proof.
  unfold rsplit1. destruct (mem_char sep t) eqn:E.
  - right. rewrite <- mem_char_rev in E.
    destruct (split_first_sep sep _ E) as (h & u2 & q & qs & Hr & Hh & Hs).
    rewrite Hs. exists (rev u2), (rev h).
    assert (Ht : t = rev u2 ++ sep :: rev h).
    { rewrite <- (rev_involutive t), Hr, rev_app_distr. simpl.
      rewrite <- app_assoc. reflexivity. }
    split; [exact Ht|]. split; [rewrite mem_char_rev; exact Hh|].
    f_equal. rewrite Ht at 2.
    replace (length t - length h - 1) with (length (rev u2) + 0).
    + rewrite firstn_app_2. simpl. apply app_nil_r.
    + rewrite Ht, length_app. simpl. rewrite !length_rev. lia.
  - left. split; [reflexivity|].
    rewrite split_no_sep by (rewrite mem_char_rev; exact E). reflexivity.
Qed.

Lemma spec_tokens_stripped t a : In a (spec_tokens t) -> exists p, a = strip p.
Proof.
  unfold spec_tokens. intros H. apply in_app_or in H as [H|H].
  - assert (Hin : In a (map strip (top_level_pieces t))).
    { revert H. generalize (map strip (top_level_pieces t)).
      induction l as [|x l IH]; simpl; [auto|].
      destruct l; [intros []|]. intros [->|H]; [left; reflexivity|].
      right. apply IH. exact H. }
    apply in_map_iff in Hin as (p & <- & _). eauto.
  - assert (Hne : top_level_pieces t <> []) by apply cut_nonempty.
    rewrite last_map_strip in H by exact Hne.
    destruct (strip (last (top_level_pieces t) [])) eqn:E; [destruct H|].
    destruct H as [<-|[]]. eauto.
Qed.

(** X3. Every ArgumentRecord of the splitter has a raw text without
    surrounding whitespace, and a type and a name without surrounding
    whitespace.  The name never holds a blank; a raw text without a blank
    is taken whole as the type, with an empty name (an unnamed
    parameter); otherwise the raw text is cut at its last blank, the
    type being the trimmed part before it and the name the trimmed part
    after it. *)
Theorem split_args_record_shape (arg_text : text) (r : ArgumentRecord) :
  In r (split_args arg_text) ->
  trimmed (raw r) = true /\ trimmed (type r) = true /\ trimmed (name r) = true
  /\ mem_char " " (name r) = false
  /\ (mem_char " " (raw r) = false -> type r = raw r /\ name r = [])
  /\ (mem_char " " (raw r) = true ->
        exists p0 p1, raw r = p0 ++ " "%char :: p1
                      /\ mem_char " " p1 = false
                      /\ type r = strip p0 /\ name r = strip p1).
Proof.
  unfold split_args. intros H.
  destruct (text_eqb (strip arg_text) [] || _)%bool; [destruct H|].
  apply in_map_iff in H as (a & <- & Ha).
  rewrite split_tokens_spec in Ha.
  apply spec_tokens_stripped in Ha as (p & ->).
  pose proof (strip_trimmed p) as Htr.
  unfold arg_record, split_type_name.
  destruct (rsplit1_spec " " (strip p))
    as [[Hno ->]|(p0 & p1 & Hcut & Hp1 & ->)]; cbn [raw type name].
  - split; [exact Htr|]. split; [exact Htr|]. split; [reflexivity|].
    split; [reflexivity|]. split; [auto|]. intros E. congruence.
  - assert (Hname : mem_char " " (strip p1) = false)
      by (apply (mem_char_false_sub " "%char (strip p1) p1);
          [intros x; apply strip_In|exact Hp1]).
    assert (Hyes : mem_char " " (strip p) = true)
      by (rewrite Hcut; apply mem_char_In, in_or_app; right; left;
          reflexivity).
    split; [exact Htr|]. split; [apply strip_trimmed|].
    split; [apply strip_trimmed|]. split; [exact Hname|].
    split; [intros E; congruence|].
    intros _. exists p0, p1. auto.
Qed.

Lemma split_args_record_shape_witness :
  let r := Arg (T "int (" ++ T "*cb)(int, int)") (T "int (" ++ T "*cb)(int,")
               (T "int)") in
  trimmed (raw r) = true /\ trimmed (type r) = true /\ trimmed (name r) = true
  /\ mem_char " " (name r) = false
  /\ (mem_char " " (raw r) = false -> type r = raw r /\ name r = [])
  /\ (mem_char " " (raw r) = true ->
        exists p0 p1, raw r = p0 ++ " "%char :: p1
                      /\ mem_char " " p1 = false
                      /\ type r = strip p0 /\ name r = strip p1).
Proof.
  apply (@split_args_record_shape args_fnptr).
  vm_compute. right. left. reflexivity.
Defined.

(* ------------------------------------------------------------------ *)
(** ** What the groups of a match hold *)

(** a group keeps its capture through a pattern that does not set it *)
Lemma den_lookup : forall r st e n,
  has_group n r = false -> den r st e ->
  lookup n (caps e) = lookup n (caps st).
Proof.
  induction r as [|c|p| | |p|p|r IH|i r IH|r1 IH1 r2 IH2];
    intros st e n G H; simpl in *.
  - subst. reflexivity.
  - destruct H as [-> _]. reflexivity.
  - destruct H as (x & _ & -> & _). reflexivity.
  - destruct H as [-> _]. reflexivity.
  - destruct H as [-> _]. reflexivity.
  - destruct H as (cs & _ & -> & _). reflexivity.
  - destruct H as (cs & _ & -> & _). reflexivity.
  - destruct H as [->|H]; [reflexivity|]. apply IH; assumption.
  - apply orb_false_elim in G as [G1 G2]. destruct H as (m & Hm & ->).
    simpl. rewrite G1. apply IH; assumption.
  - apply orb_false_elim in G as [G1 G2]. destruct H as (m & H1 & H2).
    rewrite (IH2 _ _ _ G2 H2). apply IH1; assumption.
Qed.

(** the capture of a group that is followed by a pattern without it *)
Lemma den_group_then n r1 r2 st e :
  has_group n r2 = false -> den (Grp n r1 ;; r2) st e ->
  exists m, den r1 st m /\ lookup n (caps e) = Some (consumed st m).
Proof.
  intros G (m' & (m & Hm & ->) & H2). exists m. split; [exact Hm|].
  rewrite (den_lookup _ _ _ _ G H2). simpl. rewrite Nat.eqb_refl. reflexivity.
Qed.

Lemma den_starlazy_consumed p st e :
  den (StarLazy p) st e -> forallb p (consumed st e) = true.
Proof.
  intros (cs & Hcs & He & _). rewrite (@consumed_app st e cs); [exact Hcs|].
  rewrite He. reflexivity.
Qed.

Lemma macro_match_groups s m :
  match_of macro_pattern s m ->
  (exists n, group m 1 = Some n /\ is_identifier n = true)
  /\ (exists v, group m 2 = Some v /\ forallb is_dot v = true).
Proof.
  intros (b & a & e & _ & H & ->). unfold group. simpl m_caps.
  unfold macro_pattern in H. do 6 skip_front H. split.
  - apply den_group_then in H; [|reflexivity].
    destruct H as (g1 & Hid & ->). apply den_ident in Hid as [Hid _]. eauto.
  - do 2 skip_front H. apply den_group_then in H; [|reflexivity].
    destruct H as (g2 & Hv & ->). apply den_starlazy_consumed in Hv. eauto.
Qed.

(** X4. Every MacroRecord has a name that is an identifier, and a value
    without surrounding whitespace that holds no line feed: a value never
    runs over the end of its line. *)
Theorem macro_record_shape (src : text) (r : MacroRecord) :
  In r (macros_of src) ->
  is_identifier (macro_name r) = true
  /\ trimmed (value r) = true
  /\ mem_char LF (value r) = false.
Proof.
  unfold macros_of, parse_with_regex. intros H.
  apply in_map_iff in H as (m & <- & Hm). apply finditer_match in Hm.
  apply macro_match_groups in Hm as [(n & Hn & Hid) (v & Hv & Hdot)].
  unfold macro_record, group_text. rewrite Hn, Hv. cbn [macro_name value].
  split; [exact Hid|]. split; [apply strip_trimmed|].
  apply not_true_is_false. intros E. apply mem_char_In, strip_In in E.
  rewrite forallb_forall in Hdot. specialize (Hdot LF E). discriminate Hdot.
Qed.

Lemma macro_record_shape_witness :
  is_identifier (macro_name (macro_record (Mk 0 15 [(2, T "100"); (1, T "MAX")])))
  = true
  /\ trimmed (value (macro_record (Mk 0 15 [(2, T "100"); (1, T "MAX")]))) = true
  /\ mem_char LF (value (macro_record (Mk 0 15 [(2, T "100"); (1, T "MAX")])))
     = false.
Proof.
  apply (@macro_record_shape (T "#define MAX 100")).
  vm_compute. left. reflexivity.
Defined.

(* ------------------------------------------------------------------ *)
(** ** Function records *)

Lemma func_head_groups close s m :
  match_of (func_head close) s m ->
  (exists c t, group m 1 = Some (c :: t) /\ is_ident_start c = true)
  /\ (exists n, group m 2 = Some n /\ is_identifier n = true).
Proof.
  intros (b & a & e & _ & H & ->). unfold group. simpl m_caps.
  unfold func_head in H. split.
  - apply den_group_then in H; [|reflexivity].
    destruct H as (g1 & Hg & ->). simpl in Hg.
    destruct Hg as (s1 & (c & Hc & Hs1 & _) & (s2 & (y & Hy & Hs2 & _)
                    & (cs & _ & Hg1 & _))).
    exists c, (y :: cs). split; [|exact Hc]. f_equal.
    apply consumed_app. rewrite Hg1 at 1. rewrite Hs2, Hs1. simpl.
    rewrite <- !app_assoc. reflexivity.
  - do 2 skip_front H. apply den_group_then in H; [|reflexivity].
    destruct H as (g2 & Hid & ->). apply den_ident in Hid as [Hid _]. eauto.
Qed.

Lemma split_ws_from_cur : forall t cur,
  cur <> [] -> exists w rest, split_ws_from cur t = (rev cur ++ w) :: rest.
Proof.
  induction t as [|c t IH]; intros cur Hcur; simpl.
  - destruct cur; [congruence|]. exists [], []. rewrite app_nil_r. reflexivity.
  - destruct (is_space c).
    + destruct cur; [congruence|]. exists [], (split_ws_from [] t).
      rewrite app_nil_r. reflexivity.
    + destruct (IH (c :: cur)) as (w & rest & ->); [discriminate|].
      exists (c :: w), rest. simpl. rewrite <- app_assoc. reflexivity.
Qed.

(** joining the words of a text that starts with a letter gives a text
    that starts with this letter *)
Lemma normalised_head c t :
  is_space c = false ->
  exists t', join (T " ") (split_ws (c :: t)) = c :: t'.
Proof.
  intros Hc. unfold split_ws. simpl. rewrite Hc.
  destruct (@split_ws_from_cur t [c]) as (w & rest & ->); [discriminate|].
  simpl. destruct rest; eauto.
Qed.

Lemma ident_start_not_space c : is_ident_start c = true -> is_space c = false.
Proof. intros H. apply (word_plain c (ident_start_word c H)). Qed.

(** X5. Every FunctionRecord, of a definition or of a prototype, has a
    name that is an identifier and a return type that is not empty and
    starts with a letter or an underscore. *)
Theorem function_record_shape (src : text) (r : FunctionRecord) :
  In r (apis_of src) ->
  is_identifier (fn_name r) = true
  /\ exists c t, return_type r = c :: t /\ is_ident_start c = true.
Proof.
  rewrite apis_of_eq. intros H.
  assert (Hm : exists m close,
             match_of (func_head close) (strip_comments src) m
             /\ fn_name r = group_text m 2
             /\ return_type r = join (T " ") (split_ws (group_text m 1))).
  { apply in_app_or in H as [H|H].
    - apply def_records_in in H as (m & Hm & ->). exists m, "{"%char.
      split; [apply finditer_match; exact Hm|]. split; reflexivity.
    - apply in_map_iff in H as (m & <- & Hm). exists m, ";"%char.
      unfold kept_protos in Hm. apply filter_In in Hm as [Hm _].
      split; [apply finditer_match; exact Hm|]. split; reflexivity. }
  destruct Hm as (m & close & Hm & -> & ->).
  apply func_head_groups in Hm as [(c & t & Hg1 & Hc) (n & Hg2 & Hid)].
  unfold group_text. rewrite Hg1, Hg2. split; [exact Hid|].
  destruct (normalised_head c t (ident_start_not_space c Hc)) as (t' & ->).
  eauto.
Qed.

Lemma function_record_shape_witness :
  is_identifier (fn_name (proto_record (Mk 0 12 [(3, T "void"); (2, T "f");
                                                 (1, T "int")]))) = true
  /\ exists c t,
       return_type (proto_record (Mk 0 12 [(3, T "void"); (2, T "f");
                                           (1, T "int")])) = c :: t
       /\ is_ident_start c = true.
Proof.
  apply (@function_record_shape (T "int f(void);")).
  vm_compute. left. reflexivity.
Defined.

(* ------------------------------------------------------------------ *)
(** ** Counts *)

Lemma count_kind_app k a b :
  count_kind k (a ++ b) = count_kind k a + count_kind k b.
Proof. unfold count_kind. rewrite filter_app, length_app. reflexivity. Qed.

Lemma count_kind_map k k' (f : Match -> TypeRecord) ms :
  (forall m, kind (f m) = k') ->
  count_kind k (map f ms) = if Kind_eqb k' k then length ms else 0.
Proof.
  intros Hk. unfold count_kind.
  induction ms as [|m ms IH]; simpl; [destruct (Kind_eqb k' k); reflexivity|].
  rewrite Hk. destruct (Kind_eqb k' k); simpl; rewrite IH; reflexivity.
Qed.

(** X6. The counts returned with the collections agree with them: the
    macro and function counts are the lengths of their collections, the
    struct and enum counts add up to the length of the type collection
    and are the numbers of matches of the struct and of the enum pattern;
    and in every record the stored number of members or arguments is the
    length of its list. *)
Theorem counts_agree (src : text) :
  let '(macros, types, apis, counts) := parse_with_regex src in
  c_macros counts = length macros
  /\ c_functions counts = length apis
  /\ c_structs counts + c_enums counts = length types
  /\ c_enums counts = length (finditer enum_pattern (strip_comments src))
  /\ c_structs counts = length (finditer struct_pattern (strip_comments src))
  /\ Forall (fun t => num_members t = length (members t)) types
  /\ Forall (fun f => num_args f = length (args f)) apis.
Proof.
  unfold parse_with_regex. cbn [c_macros c_functions c_structs c_enums].
  rewrite !count_kind_app.
  rewrite (@count_kind_map KStruct KEnum enum_record) by reflexivity.
  rewrite (@count_kind_map KStruct KStruct struct_record) by reflexivity.
  rewrite (@count_kind_map KEnum KEnum enum_record) by reflexivity.
  rewrite (@count_kind_map KEnum KStruct struct_record) by reflexivity.
  cbn [Kind_eqb]. rewrite !length_app, !length_map.
  split; [reflexivity|]. split; [reflexivity|]. split; [lia|].
  split; [lia|]. split; [lia|]. split.
  - apply Forall_app. split; apply Forall_forall; intros t Ht;
      apply in_map_iff in Ht as (m & <- & _); reflexivity.
  - apply Forall_app. split; apply Forall_forall; intros f Hf.
    + apply def_records_in in Hf as (m & _ & ->). reflexivity.
    + apply in_map_iff in Hf as (m & <- & _). reflexivity.
Qed.

(* ------------------------------------------------------------------ *)
(** ** The body of a definition and its matching brace *)

(** A scan that is left at depth zero stopped at the first closing brace
    that brings the depth to zero. *)
Lemma count_nil c : count c [] = 0.
Proof. reflexivity. Qed.

Lemma brace_scan_matching : forall rest d b,
  (1 <= d)%Z -> brace_scan rest d = (b, 0%Z) ->
  exists inner rest',
    rest = inner ++ "}"%char :: rest' /\ b = inner ++ ["}"%char]
    /\ (Z.of_nat (count "{" inner) - Z.of_nat (count "}" inner) = 1 - d)%Z
    /\ forall p q, inner = p ++ q ->
         (1 <= d + Z.of_nat (count "{" p) - Z.of_nat (count "}" p))%Z.
Proof.
  induction rest as [|ch rest IH]; intros d b Hd H; simpl in H.
  - inversion H. lia.
  - destruct (Ascii.eqb ch "{") eqn:E1.
    + apply Ascii.eqb_eq in E1. subst ch.
      destruct (brace_scan rest (d + 1)) as [b1 d1] eqn:Hr.
      injection H as <- ->.
      apply IH in Hr as (inner & rest' & -> & -> & Hc & Hp); [|lia].
      exists ("{"%char :: inner), rest'. repeat split.
      * rewrite count_cons_eq, count_cons_neq by discriminate. lia.
      * intros p q E. destruct p as [|x p].
        -- rewrite !count_nil. lia.
        -- injection E as <- E. specialize (Hp p q E).
           rewrite count_cons_eq, count_cons_neq by discriminate. lia.
    + destruct (Ascii.eqb ch "}") eqn:E2.
      * apply Ascii.eqb_eq in E2. subst ch.
        destruct (Z.eqb (d - 1) 0) eqn:E3.
        -- apply Z.eqb_eq in E3. injection H as <- _.
           exists [], rest. repeat split.
           ++ rewrite !count_nil. lia.
           ++ intros p q E. destruct p; [rewrite !count_nil; lia|discriminate E].
        -- apply Z.eqb_neq in E3.
           destruct (brace_scan rest (d - 1)) as [b1 d1] eqn:Hr.
           injection H as <- ->.
           apply IH in Hr as (inner & rest' & -> & -> & Hc & Hp); [|lia].
           exists ("}"%char :: inner), rest'. repeat split.
           ++ rewrite count_cons_eq, count_cons_neq by discriminate. lia.
           ++ intros p q E. destruct p as [|x p].
              ** rewrite !count_nil. lia.
              ** injection E as <- E. specialize (Hp p q E).
                 rewrite count_cons_eq, count_cons_neq by discriminate. lia.
      * apply Ascii.eqb_neq in E1, E2.
        destruct (brace_scan rest d) as [b1 d1] eqn:Hr.
        injection H as <- ->.
        apply IH in Hr as (inner & rest' & -> & -> & Hc & Hp); [|lia].
        exists (ch :: inner), rest'. repeat split.
        -- rewrite !count_cons_neq by assumption. exact Hc.
        -- intros p q E. destruct p as [|x p].
           ++ rewrite !count_nil. lia.
           ++ injection E as <- E. specialize (Hp p q E).
              rewrite !count_cons_neq by assumption. exact Hp.
Qed.

(** X7. When the brace scan of a definition stops at a closing brace, the
    body of its record is the slice of the comment-stripped text from the
    opening brace that ends the match through the closing brace that
    matches it: between the two the braces are balanced, and no closing
    brace before the last one is left unopened. *)
Theorem body_is_matching_slice (src : text) (m : Match) :
  In m (finditer func_def_pattern (strip_comments src)) ->
  snd (scan_of (strip_comments src) m) = 0%Z ->
  exists inner rest,
    skipn (m_end m - 1) (strip_comments src)
    = "{"%char :: inner ++ "}"%char :: rest
    /\ body (def_record (strip_comments src) m)
       = "{"%char :: inner ++ ["}"%char]
    /\ count "{" inner = count "}" inner
    /\ forall p q, inner = p ++ q -> count "}" p <= count "{" p.
Proof.
  intros Hm Hd. apply finditer_match in Hm.
  destruct (def_record_body Hm) as [Hb _].
  destruct (def_match_brace Hm) as (rest0 & Hr).
  rewrite (scan_of_brace _ _ Hr) in Hd, Hb. cbn [fst snd] in Hd, Hb.
  destruct (brace_scan rest0 1) as [b d] eqn:Hs. cbn [fst snd] in Hd, Hb.
  subst d. apply brace_scan_matching in Hs; [|lia].
  destruct Hs as (inner & rest & -> & -> & Hc & Hp).
  exists inner, rest. split; [exact Hr|]. split.
  - rewrite Hb. apply trimmed_strip. simpl. rewrite last_last. reflexivity.
  - split; [lia|]. intros p q E. specialize (Hp p q E). lia.
Qed.

Lemma body_is_matching_slice_witness :
  exists inner rest,
    skipn (9 - 1) (strip_comments (T "int f() { if (x) { y; } }z"))
    = "{"%char :: inner ++ "}"%char :: rest
    /\ body (def_record (strip_comments (T "int f() { if (x) { y; } }z"))
               (Mk 0 9 [(3, []); (2, T "f"); (1, T "int")]))
       = "{"%char :: inner ++ ["}"%char]
    /\ count "{" inner = count "}" inner
    /\ forall p q, inner = p ++ q -> count "}" p <= count "{" p.
Proof.
  apply (@body_is_matching_slice (T "int f() { if (x) { y; } }z")
           (Mk 0 9 [(3, []); (2, T "f"); (1, T "int")])).
  - vm_compute. left. reflexivity.
  - vm_compute. reflexivity.
Defined.

(* ------------------------------------------------------------------ *)
(** ** The macro pattern on one define *)

Lemma exec_star_all p cs b cp k x :
  forallb p cs = true ->
  k (St (rev cs ++ b) [] cp) = Some x ->
  exec (Star p) (St b cs cp) k = Some x.
Proof.
  intros Hcs Hk. rewrite <- (app_nil_r cs) at 1.
  apply exec_star_max; [exact Hcs|reflexivity|exact Hk].
Qed.

Lemma last_cons_default : forall (t : text) (c d : ascii),
  last (c :: t) d = last t c.
Proof.
  induction t as [|x t IH]; intros c d; [reflexivity|].
  change (last (c :: x :: t) d) with (last (x :: t) d).
  rewrite (IH x d), (IH x c). reflexivity.
Qed.

Lemma last_app_cons (d : ascii) c1 y c2 :
  last (c1 ++ y :: c2) d = last (y :: c2) d.
Proof.
  induction c1 as [|x c1 IH]; [reflexivity|].
  simpl app. rewrite last_cons_default.
  destruct c1 as [|x' c1]; simpl app in *.
  - rewrite !last_cons_default. reflexivity.
  - rewrite last_cons_default in IH. rewrite last_cons_default. exact IH.
Qed.

Lemma last_In_cons (d : ascii) y c2 : In (last (y :: c2) d) (y :: c2).
Proof.
  revert y. induction c2 as [|x c2 IH]; intros y; [left; reflexivity|].
  right. apply IH.
Qed.

(** a run of whitespace that starts inside a value cannot reach a line
    end: the value holds no line feed and ends with a character that is
    not whitespace *)
Lemma no_line_end_inside u trail cs r :
  u <> [] -> forallb is_dot u = true ->
  is_space (last u LF) = false ->
  forallb is_space cs = true ->
  u ++ trail = cs ++ r ->
  (r = [] \/ exists a', r = LF :: a') -> False.
Proof.
  intros Hu Hdot Hlast Hcs E Hr.
  assert (Hin : In (last u LF) u).
  { destruct u as [|y c2]; [congruence|]. apply last_In_cons. }
  rewrite forallb_forall in Hdot, Hcs.
  apply app_eq_app in E as (l & [[E1 E2]|[E1 E2]]).
  - destruct l as [|x l].
    + rewrite app_nil_r in E1. subst u.
      rewrite (Hcs _ Hin) in Hlast. discriminate Hlast.
    + subst r. destruct Hr as [Hr|(a' & Hr)]; [discriminate Hr|].
      injection Hr as -> _.
      assert (Hd : is_dot LF = true)
        by (apply Hdot; rewrite E1; apply in_or_app; right; left; reflexivity).
      discriminate Hd.
  - assert (Hs : is_space (last u LF) = true)
      by (apply Hcs; rewrite E1; apply in_or_app; left; exact Hin).
    congruence.
Qed.

Lemma exec_bol_start a cp k : exec Bol (St [] a cp) k = k (St [] a cp).
Proof. reflexivity. Qed.

Lemma exec_eol_end b cp k : exec Eol (St b [] cp) k = k (St b [] cp).
Proof. reflexivity. Qed.

Section DefineLine.

Variables (a0 : ascii) (ar : text) (c0 : ascii) (nr : text).
Variables (s0 : ascii) (sr : text) (v trail : text).
Hypothesis Ha0 : is_space a0 = true.
Hypothesis Har : forallb is_space ar = true.
Hypothesis Hc0 : is_ident_start c0 = true.
Hypothesis Hnr : forallb is_word nr = true.
Hypothesis Hs0 : is_space s0 = true.
Hypothesis Hsr : forallb is_space sr = true.
Hypothesis Hv : v <> [].
Hypothesis Hvt : trimmed v = true.
Hypothesis Hvd : forallb is_dot v = true.
Hypothesis Htrail : forallb is_space trail = true.

Lemma define_line_shape :
  define_line (a0 :: ar) (c0 :: nr) (s0 :: sr) v trail
  = "#"%char :: T "define" ++ a0 :: ar ++ c0 :: nr ++ s0 :: sr ++ v ++ trail.
Proof.
  unfold define_line. cbn [T list_ascii_of_string app].
  repeat f_equal.
Qed.

Lemma value_ends : is_space (last v LF) = false /\ stops is_space (v ++ trail) = true.
Proof.
  destruct v as [|v0 vr]; [congruence|]. simpl in Hvt.
  apply andb_prop in Hvt as [H0 Hl]. apply negb_true_iff in Hl.
  split.
  - rewrite last_cons_default. exact Hl.
  - simpl. exact H0.
Qed.

Lemma exec_define_line k x :
  k (macro_end_state a0 ar c0 nr s0 sr v trail) = Some x ->
  exec macro_pattern
       (St [] (define_line (a0 :: ar) (c0 :: nr) (s0 :: sr) v trail) []) k
  = Some x.
Proof.
  intros Hk. rewrite define_line_shape. unfold macro_pattern, Plus.
  destruct value_ends as [Hlast Hstop].
  rewrite exec_seq, exec_bol_start.
  rewrite exec_seq, exec_star_stop by reflexivity.
  rewrite exec_seq, exec_lit. cbv beta.
  rewrite exec_seq, exec_star_stop by reflexivity.
  rewrite exec_seq, exec_word. cbv beta.
  rewrite !exec_seq, exec_cls by exact Ha0. cbv beta.
  apply exec_star_max; [exact Har| |].
  { cbn [stops]. rewrite (ident_start_not_space c0 Hc0). reflexivity. }
  rewrite exec_seq, exec_grp. unfold ident.
  rewrite exec_seq, exec_cls by exact Hc0. cbv beta.
  apply exec_star_max; [exact Hnr| |].
  { cbn [stops]. destruct (is_word s0) eqn:E; [|reflexivity].
    apply word_plain in E as (E & _). congruence. }
  rewrite (@consumed_app _ _ (c0 :: nr))
    by (cbn [before rev]; rewrite <- (app_assoc (rev nr)); reflexivity).
  unfold set_cap. cbn [before after caps].
  rewrite !exec_seq, exec_cls by exact Hs0. cbv beta.
  apply exec_star_max; [exact Hsr|exact Hstop|].
  rewrite exec_seq, exec_grp.
  apply exec_starlazy_first; [exact Hvd| |].
  - intros c1 y c2 E.
    destruct (exec (Star is_space ;; Eol) _ k) as [z|] eqn:Hex; [|reflexivity].
    exfalso. apply exec_sound in Hex as (e' & Hden & _).
    destruct Hden as (mid & (cs & Hcs & _ & Hafter) & (_ & Hend)).
    cbn [after set_cap] in Hafter.
    apply (@no_line_end_inside (y :: c2) trail cs (after mid)).
    + discriminate.
    + rewrite E, forallb_app in Hvd. apply andb_prop in Hvd as [_ H]. exact H.
    + rewrite <- (last_app_cons LF c1 y c2), <- E. exact Hlast.
    + exact Hcs.
    + exact Hafter.
    + exact Hend.
  - rewrite (@consumed_app _ _ v) by reflexivity.
    unfold set_cap. cbn [before after caps].
    rewrite exec_seq. apply exec_star_all; [exact Htrail|].
    cbv beta. rewrite exec_eol_end. exact Hk.
Qed.

Lemma macro_end_state_pos :
  pos (macro_end_state a0 ar c0 nr s0 sr v trail)
  = length (define_line (a0 :: ar) (c0 :: nr) (s0 :: sr) v trail).
Proof.
  rewrite define_line_shape. unfold pos, macro_end_state. cbn [before].
  repeat (rewrite ?length_app, ?length_rev; cbn [length]). lia.
Qed.

Lemma match_here_define_line adv :
  match_here macro_pattern []
    (define_line (a0 :: ar) (c0 :: nr) (s0 :: sr) v trail) adv
  = Some (Mk 0 (length (define_line (a0 :: ar) (c0 :: nr) (s0 :: sr) v trail))
             [(2, v); (1, c0 :: nr)]).
Proof.
  unfold match_here.
  rewrite (@exec_define_line _ (macro_end_state a0 ar c0 nr s0 sr v trail)).
  - rewrite macro_end_state_pos. reflexivity.
  - rewrite macro_end_state_pos. cbn [length].
    replace (Nat.eqb (length (define_line (a0 :: ar) (c0 :: nr) (s0 :: sr)
                                          v trail)) 0) with false;
      [rewrite andb_false_r; reflexivity|].
    symmetry. apply Nat.eqb_neq. rewrite define_line_shape. discriminate.
Qed.

Lemma match_here_macro_end b adv : match_here macro_pattern b [] adv = None.
Proof.
  unfold match_here, macro_pattern. rewrite exec_seq. cbn [exec before].
  destruct b as [|c b]; [reflexivity|].
  destruct (Ascii.eqb c LF); reflexivity.
Qed.

(** the macro pattern matches the whole text, once *)
Lemma finditer_define_line :
  finditer macro_pattern
    (define_line (a0 :: ar) (c0 :: nr) (s0 :: sr) v trail)
  = [Mk 0 (length (define_line (a0 :: ar) (c0 :: nr) (s0 :: sr) v trail))
        [(2, v); (1, c0 :: nr)]].
Proof.
  unfold finditer.
  pose proof (match_here_define_line false) as Hm.
  destruct (define_line (a0 :: ar) (c0 :: nr) (s0 :: sr) v trail)
    as [|c tail] eqn:Hs;
    [rewrite define_line_shape in Hs; discriminate Hs|].
  cbn [walk]. unfold matches_here. rewrite Hm. cbn [m_start m_end].
  cbn [length Nat.eqb]. rewrite Nat.sub_0_r.
  replace (S (length tail) - 1) with (length tail) by lia.
  rewrite (walk_skip_all macro_pattern match_here_macro_end). reflexivity.
Qed.

End DefineLine.

(** X8. A source that consists of one define directive, [#define], blanks,
    a name, blanks, a value, and whitespace after it, yields exactly one
    MacroRecord, with that name and that value.  The value is any text
    without a line feed that neither starts nor ends with whitespace; the
    source holds no comment opener. *)
Theorem macro_of_one_define (sep1 name sep2 v trail : text) :
  sep1 <> [] -> forallb is_space sep1 = true ->
  is_identifier name = true ->
  sep2 <> [] -> forallb is_space sep2 = true ->
  v <> [] -> trimmed v = true -> mem_char LF v = false ->
  forallb is_space trail = true ->
  contains (T "/*") (define_line sep1 name sep2 v trail) = false ->
  contains (T "//") (define_line sep1 name sep2 v trail) = false ->
  macros_of (define_line sep1 name sep2 v trail)
  = [Macro name v
       (T "MACROS = macro defined with name " ++ name ++ T " and value " ++ v)].
Proof.
  intros H1 Hs1 Hid H2 Hs2 Hv Hvt Hlf Htrail Hblock Hline.
  destruct sep1 as [|a0 ar]; [congruence|].
  destruct sep2 as [|s0 sr]; [congruence|].
  destruct name as [|c0 nr]; [discriminate Hid|].
  simpl in Hs1, Hs2, Hid.
  apply andb_prop in Hs1 as [Ha0 Har]. apply andb_prop in Hs2 as [Hs0 Hsr].
  apply andb_prop in Hid as [Hc0 Hnr].
  assert (Hvd : forallb is_dot v = true).
  { apply forallb_forall. intros x Hx. unfold is_dot.
    destruct (Ascii.eqb x LF) eqn:E; [|reflexivity].
    apply Ascii.eqb_eq in E. subst x. apply mem_char_In in Hx. congruence. }
  unfold macros_of, parse_with_regex.
  rewrite (strip_comments_id _ Hblock Hline).
  rewrite (@finditer_define_line a0 ar c0 nr s0 sr v trail
             Ha0 Har Hc0 Hnr Hs0 Hsr Hv Hvt Hvd Htrail).
  cbn [map]. unfold macro_record, group_text, group. cbn [m_caps lookup Nat.eqb].
  rewrite (trimmed_strip v Hvt). reflexivity.
Qed.

Lemma macro_of_one_define_witness :
  macros_of (define_line (T " ") (T "MAX") (T "  ") (T "1 << 2") (T " " ++ [LF]))
  = [Macro (T "MAX") (T "1 << 2")
       (T "MACROS = macro defined with name " ++ T "MAX" ++ T " and value "
          ++ T "1 << 2")].
Proof.
  apply macro_of_one_define; try discriminate; vm_compute; reflexivity.
Defined.

(* ------------------------------------------------------------------ *)
(** ** Struct members *)

Lemma dropwhile_app_stop p c : forall l1 l2,
  p c = false -> dropwhile p (l1 ++ c :: l2) = dropwhile p l1 ++ c :: l2.
Proof.
  induction l1 as [|x l1 IH]; intros l2 Hc; simpl.
  - rewrite Hc. reflexivity.
  - destruct (p x); [apply IH; exact Hc|reflexivity].
Qed.

Lemma rstrip_with_keep p c pre post :
  p c = false ->
  rstrip_with p (pre ++ c :: post) = pre ++ c :: rstrip_with p post.
Proof.
  intros Hc. unfold rstrip_with. rewrite rev_app_distr. simpl.
  rewrite <- app_assoc. simpl. rewrite dropwhile_app_stop by exact Hc.
  rewrite rev_app_distr. simpl. rewrite rev_involutive, <- app_assoc.
  reflexivity.
Qed.

Lemma first_sep_unique (sep : ascii) : forall h t h' t',
  h ++ sep :: t = h' ++ sep :: t' ->
  mem_char sep h = false -> mem_char sep h' = false ->
  h = h' /\ t = t'.
Proof.
  induction h as [|x h IH]; intros t h' t' E Hh Hh'.
  - destruct h' as [|y h']; [injection E as ->; auto|].
    injection E as <- _. unfold mem_char in Hh'. simpl in Hh'.
    rewrite Ascii.eqb_refl in Hh'. discriminate Hh'.
  - destruct h' as [|y h'].
    + injection E as -> _. unfold mem_char in Hh. simpl in Hh.
      rewrite Ascii.eqb_refl in Hh. discriminate Hh.
    + injection E as -> E. unfold mem_char in Hh, Hh'. simpl in Hh, Hh'.
      apply orb_false_elim in Hh as [_ Hh].
      apply orb_false_elim in Hh' as [_ Hh'].
      destruct (IH t h' t' E Hh Hh') as [-> ->]. auto.
Qed.

Lemma last_sep_unique (sep : ascii) a b a' b' :
  a ++ sep :: b = a' ++ sep :: b' ->
  mem_char sep b = false -> mem_char sep b' = false ->
  a = a' /\ b = b'.
Proof.
  intros E Hb Hb'.
  assert (Er : rev b ++ sep :: rev a = rev b' ++ sep :: rev a').
  { apply (f_equal (@rev ascii)) in E. rewrite !rev_app_distr in E.
    simpl in E. rewrite <- !app_assoc in E. exact E. }
  apply first_sep_unique in Er; try (rewrite mem_char_rev; assumption).
  destruct Er as [E1 E2].
  apply (f_equal (@rev ascii)) in E1, E2. rewrite !rev_involutive in E1, E2.
  auto.
Qed.

(** cutting at the last blank a text whose part after a blank holds no
    blank *)
Lemma rsplit1_last a b :
  mem_char " " b = false ->
  last (rsplit1 " " (a ++ " "%char :: b)) [] = b.
Proof.
  intros Hb.
  destruct (rsplit1_spec " " (a ++ " "%char :: b))
    as [[Hno _]|(p0 & p1 & E & Hp1 & ->)].
  - assert (mem_char " " (a ++ " "%char :: b) = true)
      by (apply mem_char_In, in_or_app; right; left; reflexivity).
    congruence.
  - apply last_sep_unique in E; [|exact Hb|exact Hp1].
    destruct E as [_ ->]. reflexivity.
Qed.

Lemma forallb_not_mem c t :
  mem_char c t = false -> forallb (fun x => negb (Ascii.eqb x c)) t = true.
Proof.
  intros H. apply forallb_forall. intros x Hx. apply negb_true_iff.
  destruct (Ascii.eqb x c) eqn:E; [|reflexivity].
  apply Ascii.eqb_eq in E. subst x. apply mem_char_In in Hx. congruence.
Qed.

Section StructLines.

Variable l : StructLine.
Hypothesis Hwf : wf_struct_line l = true.

Lemma wf_struct_line_parts :
  forallb blank (sl_indent l) = true
  /\ (exists t0 tr, sl_type l = t0 :: tr /\ is_ident_start t0 = true)
  /\ mem_char ";" (sl_type l) = false /\ no_linebreak (sl_type l) = true
  /\ sl_name l <> [] /\ trimmed (sl_name l) = true
  /\ mem_char " " (sl_name l) = false /\ mem_char ";" (sl_name l) = false
  /\ no_linebreak (sl_name l) = true /\ no_linebreak (sl_rest l) = true.
Proof.
  unfold wf_struct_line in Hwf.
  repeat (apply andb_prop in Hwf as [Hwf ?]).
  repeat match goal with
         | H : negb _ = true |- _ => apply negb_true_iff in H
         end.
  repeat split; try assumption.
  - destruct (sl_type l) as [|t0 tr]; [discriminate|]. eauto.
  - intros E. rewrite E in *. discriminate.
Qed.

Lemma render_struct_line_no_linebreak :
  no_linebreak (render_struct_line l) = true.
Proof.
  destruct wf_struct_line_parts
    as (Hi & _ & _ & Ht & _ & _ & _ & _ & Hn & Hr).
  unfold render_struct_line, no_linebreak in *.
  rewrite !forallb_app. cbn [forallb]. rewrite !forallb_app. cbn [forallb].
  rewrite Ht, Hn, Hr.
  replace (forallb (fun c => negb (is_linebreak c)) (sl_indent l)) with true.
  - reflexivity.
  - symmetry. eapply forallb_impl; [|exact Hi]. intros x Hx.
    apply blank_plain in Hx as (_ & -> & _). reflexivity.
Qed.

(** the line, stripped: the declaration, the semicolon, and the rest *)
Lemma strip_struct_line :
  strip (render_struct_line l)
  = (sl_type l ++ " "%char :: sl_name l) ++ ";"%char
    :: rstrip_with is_space (sl_rest l).
Proof.
  destruct wf_struct_line_parts as (Hi & (t0 & tr & Ht & Ht0) & _).
  unfold render_struct_line, strip, lstrip_with.
  rewrite dropwhile_app_all
    by (eapply forallb_impl; [|exact Hi]; intros x Hx;
        apply blank_plain in Hx as (-> & _); reflexivity).
  rewrite (dropwhile_keep _ _ Ht (ident_start_not_space t0 Ht0)).
  replace (sl_type l ++ " "%char :: sl_name l ++ ";"%char :: sl_rest l)
    with ((sl_type l ++ " "%char :: sl_name l) ++ ";"%char :: sl_rest l)
    by (rewrite <- app_assoc; reflexivity).
  apply rstrip_with_keep. reflexivity.
Qed.

(** the member taken from the line is the name *)
Lemma struct_line_member :
  struct_members [render_struct_line l] = [sl_name l].
Proof.
  destruct wf_struct_line_parts
    as (Hi & (t0 & tr & Ht & Ht0) & Hts & _ & Hne & Htr & Hnb & Hns & _).
  cbn [struct_members]. rewrite strip_struct_line.
  assert (Hhead : forall X, sl_type l ++ X = t0 :: tr ++ X)
    by (intros X; rewrite Ht; reflexivity).
  assert (Hstart : forall X,
            (text_eqb ((sl_type l ++ " "%char :: sl_name l) ++ X) []
             || startswith (T "//") ((sl_type l ++ " "%char :: sl_name l) ++ X))%bool
            = false).
  { intros X. rewrite <- app_assoc, Hhead.
    replace (text_eqb (t0 :: tr ++ (" "%char :: sl_name l) ++ X) [])
      with false by reflexivity.
    cbn [orb T list_ascii_of_string startswith].
    replace (Ascii.eqb "/" t0) with false; [reflexivity|].
    symmetry. clear - Ht0. by_cases t0. }
  rewrite Hstart.
  assert (Hsemi : forall X,
            mem_char ";" ((sl_type l ++ " "%char :: sl_name l) ++ ";"%char :: X)
            = true)
    by (intros X; apply mem_char_In, in_or_app; right; left; reflexivity).
  rewrite Hsemi.
  rewrite split_head_at.
  2:{ rewrite forallb_app. cbn [forallb].
      rewrite (forallb_not_mem _ _ Hts), (forallb_not_mem _ _ Hns).
      reflexivity. }
  assert (Htrim : trimmed (sl_type l ++ " "%char :: sl_name l) = true).
  { rewrite Hhead. cbn [trimmed].
    rewrite (ident_start_not_space t0 Ht0). cbn [negb andb].
    destruct (sl_name l) as [|n0 nrest] eqn:En; [congruence|].
    replace (tr ++ " "%char :: n0 :: nrest)
      with ((tr ++ [" "%char]) ++ n0 :: nrest)
      by (rewrite <- app_assoc; reflexivity).
    rewrite last_app_cons, last_cons_default.
    cbn [trimmed] in Htr. apply andb_prop in Htr as [_ Htr]. exact Htr. }
  rewrite (trimmed_strip _ Htrim).
  rewrite (rsplit1_last _ _ Hnb). rewrite (trimmed_strip _ Htr). reflexivity.
Qed.

End StructLines.

Lemma struct_members_cons x rest :
  struct_members (x :: rest) = struct_members [x] ++ struct_members rest.
Proof.
  cbn [struct_members].
  destruct (text_eqb (strip x) [] || startswith (T "//") (strip x))%bool;
    [reflexivity|].
  destruct (mem_char ";" (strip x)); reflexivity.
Qed.

Lemma struct_members_lines : forall ls,
  forallb wf_struct_line ls = true ->
  struct_members (map render_struct_line ls) = map sl_name ls.
Proof.
  induction ls as [|l ls IH]; intros H; [reflexivity|].
  simpl in H. apply andb_prop in H as [Hl H].
  cbn [map]. rewrite struct_members_cons, (struct_line_member l Hl).
  rewrite IH by exact H. reflexivity.
Qed.

Lemma splitlines_struct_lines : forall ls,
  forallb wf_struct_line ls = true ->
  splitlines (concat (map (fun l => render_struct_line l ++ [LF]) ls))
  = map render_struct_line ls.
Proof.
  induction ls as [|l ls IH]; intros H; [reflexivity|].
  simpl in H. apply andb_prop in H as [Hl H]. simpl.
  rewrite <- app_assoc. simpl app.
  rewrite splitlines_line by (apply render_struct_line_no_linebreak; exact Hl).
  rewrite IH by exact H. reflexivity.
Qed.

(** the record built from a match whose body holds one member per line *)
Lemma struct_record_lines (m : Match) (ls : list StructLine) :
  group m 1 = Some (render_struct_body ls) ->
  forallb wf_struct_line ls = true ->
  struct_record m
  = Typ (group m 2) KStruct (length ls) (map sl_name ls)
        (type_comment_of (group_text m 2) (length ls)).
Proof.
  intros Hg Hwf. unfold struct_record, group_text. rewrite Hg.
  unfold render_struct_body.
  rewrite splitlines_LF, splitlines_struct_lines by exact Hwf.
  rewrite struct_members_cons. change (struct_members [[]]) with (@nil text).
  cbn [app]. rewrite struct_members_lines by exact Hwf.
  rewrite length_map. reflexivity.
Qed.

(** X9. The members of a struct are read line by line, one per line.  For
    every match of the struct pattern whose body holds on each line a
    declaration made of a type, a blank and a member name, followed by a
    semicolon (and possibly more text), the TypeRecord has kind struct,
    the member names in declaration order as members, and their number as
    num_members.  What follows the first semicolon of a line gives no
    member. *)
Theorem struct_members_one_per_line
    (src : text) (m : Match) (ls : list StructLine) :
  In m (finditer struct_pattern (strip_comments src)) ->
  group m 1 = Some (render_struct_body ls) ->
  forallb wf_struct_line ls = true ->
  In (struct_record m) (types_of src)
  /\ kind (struct_record m) = KStruct
  /\ members (struct_record m) = map sl_name ls
  /\ num_members (struct_record m) = length ls
  /\ typedef_name (struct_record m) = group m 2.
Proof.
  intros Hin Hg Hwf. split.
  - unfold types_of, parse_with_regex. apply in_or_app. right.
    apply in_map. exact Hin.
  - rewrite (struct_record_lines m Hg Hwf). auto.
Qed.

Lemma struct_members_one_per_line_witness :
  In (struct_record m_point) (types_of src_point)
  /\ kind (struct_record m_point) = KStruct
  /\ members (struct_record m_point) = [T "x"; T "y"]
  /\ num_members (struct_record m_point) = 2
  /\ typedef_name (struct_record m_point) = Some (T "Point").
Proof.
  apply (@struct_members_one_per_line src_point m_point lines_point).
  - vm_compute. left. reflexivity.
  - vm_compute. reflexivity.
  - vm_compute. reflexivity.
Defined.

(* ================================================================== *)
(** ** Counting the places where a pattern matches *)

Lemma match_here_den r b a adv m :
  match_here r b a adv = Some m ->
  exists e, den r (St b a []) e /\ m = Mk (length b) (pos e) (caps e).
Proof.
  unfold match_here. intros H.
  destruct (exec r (St b a []) _) as [e|] eqn:He; [|discriminate].
  injection H as <-. apply exec_sound in He as (e' & Hd & Hk).
  exists e'. split; [exact Hd|].
  destruct (adv && Nat.eqb (pos e') (length b))%bool; [discriminate|].
  injection Hk as ->. reflexivity.
Qed.

Lemma rev_firstn_S (c : ascii) a b j :
  rev (firstn (S j) (c :: a)) ++ b = rev (firstn j a) ++ c :: b.
Proof. simpl. rewrite <- app_assoc. reflexivity. Qed.

Section Occurrences.

Variable q : regex.

Lemma hit_S c a b j : hit q b (c :: a) (S j) <-> hit q (c :: b) a j.
Proof. unfold hit. rewrite rev_firstn_S. reflexivity. Qed.

Lemma occs_0_cons c a b :
  occs q b (c :: a) 0
  = (match match_here q b (c :: a) false with Some _ => 1 | None => 0 end)
    + occs q (c :: b) a 0.
Proof. reflexivity. Qed.

Lemma occs_S_cons c a b n : occs q b (c :: a) (S n) = occs q (c :: b) a n.
Proof. reflexivity. Qed.

Lemma occs_skip_le : forall a b skip, occs q b a (S skip) <= occs q b a skip.
Proof.
  induction a as [|c a IH]; intros b skip.
  - destruct skip; simpl; lia.
  - destruct skip as [|n].
    + rewrite occs_0_cons, occs_S_cons. lia.
    + rewrite !occs_S_cons. apply IH.
Qed.

Lemma occs_skip_mono a b skip skip' :
  skip <= skip' -> occs q b a skip' <= occs q b a skip.
Proof.
  induction 1 as [|n Hle IH]; [lia|].
  pose proof (occs_skip_le a b n). lia.
Qed.

(** a place where the pattern matches counts for one *)
Lemma occs_hit : forall a b skip j,
  skip <= j -> j <= length a -> hit q b a j ->
  1 + occs q b a (S j) <= occs q b a skip.
Proof.
  induction a as [|c a IH]; intros b skip j Hs Hj Hhit.
  - simpl in Hj. assert (j = 0) by lia. assert (skip = 0) by lia. subst.
    unfold hit in Hhit. simpl in Hhit. simpl.
    destruct (match_here q b [] false); [lia|congruence].
  - destruct j as [|j].
    + assert (skip = 0) by lia. subst. unfold hit in Hhit. simpl in Hhit.
      rewrite occs_0_cons, occs_S_cons.
      destruct (match_here q b (c :: a) false); [lia|congruence].
    + apply hit_S in Hhit. simpl in Hj.
      change (occs q b (c :: a) (S (S j))) with (occs q (c :: b) a (S j)).
      destruct skip as [|n].
      * rewrite occs_0_cons.
        specialize (IH (c :: b) 0 j ltac:(lia) ltac:(lia) Hhit). lia.
      * rewrite occs_S_cons. apply IH; [lia|lia|exact Hhit].
Qed.

(** skipping places where the pattern does not match changes nothing *)
Lemma occs_no_hit : forall n a b,
  (forall j, j < n -> ~ hit q b a j) -> occs q b a n = occs q b a 0.
Proof.
  induction n as [|n IH]; intros a b Hno; [reflexivity|].
  assert (H0 : match_here q b a false = None).
  { specialize (Hno 0 ltac:(lia)). unfold hit in Hno. simpl in Hno.
    destruct (match_here q b a false); [exfalso; apply Hno; discriminate|].
    reflexivity. }
  destruct a as [|c a]; [simpl; rewrite H0; reflexivity|].
  rewrite occs_0_cons, occs_S_cons, H0.
  rewrite IH; [reflexivity|]. intros j Hj Hh.
  apply (Hno (S j)); [lia|]. apply hit_S. exact Hh.
Qed.

(** the scan finds every place where such a pattern matches *)
Lemma walk_finds_all :
  apart q -> forall a b skip, occs q b a skip <= length (walk q b a skip).
Proof.
  intros Hapart. induction a as [|c a IH]; intros b skip.
  - destruct skip; simpl; [|lia]. unfold matches_here.
    destruct (match_here q b [] false) as [m|] eqn:Hm; [|simpl; lia].
    destruct (Nat.eqb (m_end m) (m_start m));
      [destruct (match_here q b [] true)|]; simpl; lia.
  - destruct skip as [|n]; [|rewrite occs_S_cons; cbn [walk]; apply IH].
    rewrite occs_0_cons. cbn [walk]. unfold matches_here.
    destruct (match_here q b (c :: a) false) as [m|] eqn:Hm.
    + destruct (Hapart _ _ _ Hm) as [Hne Hin].
      pose proof (match_here_sound _ _ _ _ Hm) as (_ & Hs & _).
      replace (Nat.eqb (m_end m) (m_start m)) with false
        by (symmetry; apply Nat.eqb_neq; lia).
      rewrite length_app. cbn [length].
      specialize (IH (c :: b) (m_end m - m_start m - 1)).
      rewrite (@occs_no_hit (m_end m - m_start m - 1)) in IH; [lia|].
      intros j Hj Hh. apply (Hin (S j)); [lia|]. apply hit_S. exact Hh.
    + simpl. apply IH.
Qed.

End Occurrences.

(* ------------------------------------------------------------------ *)
(** ** A closing parenthesis, whitespace, and a brace or a semicolon *)

Lemma match_here_lit_none x r b a adv :
  (forall t, a <> x :: t) -> match_here (Lit x ;; r) b a adv = None.
Proof.
  intros H. unfold match_here. simpl. destruct a as [|c a]; [reflexivity|].
  destruct (Ascii.eqb c x) eqn:E; [|reflexivity].
  apply Ascii.eqb_eq in E. subst c. exfalso. apply (H a). reflexivity.
Qed.

Lemma skipn_into_app (c : ascii) rest : forall ws j,
  j <= length ws ->
  exists h t, skipn j (ws ++ c :: rest) = h :: t /\ (In h ws \/ h = c).
Proof.
  induction ws as [|w ws IH]; intros j Hj.
  - simpl in Hj. assert (j = 0) by lia. subst. simpl. eauto.
  - destruct j as [|j].
    + simpl. exists w, (ws ++ c :: rest). split; [reflexivity|].
      left. left. reflexivity.
    + simpl in Hj. destruct (IH j) as (h & t & E & Hh); [lia|].
      exists h, t. simpl. split; [exact E|]. destruct Hh; [left; right|right];
        assumption.
Qed.

Section CloseThen.

Variable c : ascii.
Hypothesis Hc : is_space c = false.
Hypothesis Hcp : c <> ")"%char.

Lemma close_then_den b a cp e :
  den (close_then c) (St b a cp) e ->
  exists ws rest, a = ")"%char :: ws ++ c :: rest
                  /\ forallb is_space ws = true
                  /\ pos e = length b + 2 + length ws.
Proof.
  unfold close_then. simpl.
  intros (m1 & (Hm1 & Ha) & m2 & (ws & Hws & Hm2 & Ha1) & (He & Ha2)).
  exists ws, (after e). split; [rewrite Ha, Ha1, Ha2; reflexivity|].
  split; [exact Hws|]. unfold pos. rewrite He. simpl. rewrite Hm2. simpl.
  rewrite length_app, length_rev, Hm1. simpl. lia.
Qed.

Lemma match_here_close b ws rest :
  forallb is_space ws = true ->
  match_here (close_then c) b (")"%char :: ws ++ c :: rest) false <> None.
Proof.
  intros Hws. unfold match_here, close_then.
  rewrite exec_seq, exec_lit. cbv beta. rewrite exec_seq.
  rewrite (@exec_star_max is_space ws (c :: rest) _ _ _
             (St (c :: rev ws ++ ")"%char :: b) rest [])).
  - discriminate.
  - exact Hws.
  - simpl. rewrite Hc. reflexivity.
  - rewrite exec_lit. reflexivity.
Qed.

Lemma close_then_apart : apart (close_then c).
Proof.
  intros b a m Hm. apply match_here_den in Hm as (e & Hd & ->).
  apply close_then_den in Hd as (ws & rest & -> & Hws & Hpos).
  cbn [m_start m_end]. split; [lia|].
  intros j Hj Hhit. unfold hit in Hhit. apply Hhit.
  destruct j as [|j]; [lia|]. cbn [skipn].
  destruct (@skipn_into_app c rest ws j) as (h & t & -> & Hh); [lia|].
  apply match_here_lit_none. intros t' E. injection E as -> _.
  destruct Hh as [Hh|Hh]; [|congruence].
  rewrite forallb_forall in Hws. specialize (Hws _ Hh). discriminate Hws.
Qed.

Lemma den_seq_intro r1 r2 st m e :
  den r1 st m -> den r2 m e -> den (r1 ;; r2) st e.
Proof. intros H1 H2. exists m. auto. Qed.

(** a match of a function pattern ends with such a place *)
Lemma func_head_tail b a m :
  match_here (func_head c) b a false = Some m ->
  m_start m = length b /\ m_start m < m_end m
  /\ exists j, 0 < j /\ j < m_end m - m_start m /\ j <= length a
               /\ hit (close_then c) b a j.
Proof.
  intros Hm. apply match_here_den in Hm as (e & H & ->).
  cbn [m_start m_end]. unfold func_head in H.
  destruct H as (m1 & H1 & m2 & H2 & m3 & H3 & m4 & H4 & m5 & H5
                 & m6 & H6 & Htail).
  assert (Hpre : den (Grp 1 (Cls is_ident_start ;; PlusLazy is_type_char)
                      ;; Plus is_space ;; Grp 2 ident ;; Star is_space
                      ;; Lit "(" ;; Grp 3 (StarLazy is_any))
                     (St b a []) m6).
  { repeat (eapply den_seq_intro; [eassumption|]). exact H6. }
  assert (Hlt : length b < pos m6).
  { apply den_pos in H1, H2, H3, H4, H6.
    assert (pos m5 = S (pos m4))
      by (destruct H5 as [-> _]; reflexivity).
    unfold pos at 1 in H1. simpl in H1. lia. }
  apply den_span in Hpre as (pre & Ha & Hb). cbn [after before] in Ha, Hb.
  destruct m6 as [b6 a6 cp6]. cbn [after before] in Ha, Hb. subst b6.
  unfold pos in Hlt. cbn [before] in Hlt.
  rewrite length_app, length_rev in Hlt.
  apply close_then_den in Htail as (ws & rest & -> & Hws & Hpos).
  rewrite length_app, length_rev in Hpos.
  split; [reflexivity|]. split; [lia|].
  exists (length pre). split; [lia|]. split; [lia|].
  split; [rewrite Ha, length_app; lia|].
  unfold hit. rewrite Ha.
  rewrite firstn_app, Nat.sub_diag, firstn_all, firstn_O, app_nil_r.
  rewrite skipn_app, Nat.sub_diag, skipn_all. cbn [app skipn].
  apply match_here_close. exact Hws.
Qed.

Lemma match_here_func_head_end b adv :
  match_here (func_head c) b [] adv = None.
Proof. reflexivity. Qed.

(** the matches of a function pattern are no more than these places *)
Lemma walk_func_head_occs : forall a b skip,
  length (walk (func_head c) b a skip) <= occs (close_then c) b a skip.
Proof.
  induction a as [|x a IH]; intros b skip.
  - destruct skip; simpl; lia.
  - destruct skip as [|n]; [|cbn [walk]; rewrite occs_S_cons; apply IH].
    cbn [walk]. unfold matches_here.
    destruct (match_here (func_head c) b (x :: a) false) as [m|] eqn:Hm.
    + destruct (func_head_tail _ _ Hm) as (Hs & Hne & j & Hj0 & Hj & Hja & Hh).
      replace (Nat.eqb (m_end m) (m_start m)) with false
        by (symmetry; apply Nat.eqb_neq; lia).
      rewrite length_app. cbn [length].
      specialize (IH (x :: b) (m_end m - m_start m - 1)).
      pose proof (@occs_hit (close_then c) (x :: a) b 0 j
                    ltac:(lia) Hja Hh) as Hocc.
      rewrite occs_S_cons in Hocc.
      pose proof (@occs_skip_mono (close_then c) a (x :: b) j
                    (m_end m - m_start m - 1) ltac:(lia)).
      lia.
    + cbn [app]. rewrite occs_0_cons.
      specialize (IH (x :: b) (0 - 1)). cbn [Nat.sub] in IH |- *. lia.
Qed.

Lemma finditer_func_head_le s :
  length (finditer (func_head c) s) <= length (finditer (close_then c) s).
Proof.
  unfold finditer.
  pose proof (walk_func_head_occs s [] 0).
  pose proof (walk_finds_all close_then_apart s [] 0). lia.
Qed.

End CloseThen.

(** X10. The double-check that [main] prints is sound for functions when
    the regex parser was used: the number of function records never
    exceeds the number counted in the file, which is the number of [)]
    followed by optional whitespace and [{] plus the number of [)]
    followed by optional whitespace and [;]. *)
Theorem function_count_within_file_count (src_raw : text) :
  func_count_json (verification_regex src_raw)
  <= func_count_file (verification_regex src_raw).
Proof.
  unfold verification_regex, verification, counts_of, parse_with_regex.
  cbn [func_count_json func_count_file c_functions].
  unfold re_findall, def_records, kept_protos.
  rewrite length_app, !length_map.
  pose proof (@finditer_func_head_le "{"%char eq_refl ltac:(discriminate)
                (strip_comments src_raw)) as Hd.
  pose proof (@finditer_func_head_le ";"%char eq_refl ltac:(discriminate)
                (strip_comments src_raw)) as Hp.
  pose proof (filter_length_le
                (fun m => negb (in_names (group_text m 2)
                   (map fn_name
                      (map (def_record (strip_comments src_raw))
                         (finditer func_def_pattern (strip_comments src_raw))))))
                (finditer proto_pattern (strip_comments src_raw))) as Hf.
  unfold func_def_pattern, proto_pattern in *. lia.
Qed.

(* ------------------------------------------------------------------ *)
(** ** Return types: [' '.join(m.group(1).split())] *)

Lemma is_token_parts w :
  is_token w = true <->
  w <> [] /\ forallb (fun c => negb (is_space c)) w = true.
Proof.
  unfold is_token. rewrite andb_true_iff, negb_true_iff. split.
  - intros [H1 H2]. split; [|exact H2]. intros ->. discriminate H1.
  - intros [H1 H2]. split; [|exact H2]. destruct w; [congruence|reflexivity].
Qed.

Lemma is_token_rev cur :
  cur <> [] -> forallb (fun c => negb (is_space c)) cur = true ->
  is_token (rev cur) = true.
Proof.
  intros Hne H. apply is_token_parts. split.
  - intros E. apply Hne. rewrite <- (rev_involutive cur), E. reflexivity.
  - rewrite forallb_forall in *. intros x Hx. apply H, in_rev. exact Hx.
Qed.

Lemma split_ws_from_tokens : forall t cur,
  forallb (fun c => negb (is_space c)) cur = true ->
  Forall (fun w => is_token w = true) (split_ws_from cur t).
Proof.
  induction t as [|c t IH]; intros cur Hcur; simpl.
  - destruct cur as [|x cur]; constructor; [|constructor].
    apply is_token_rev; [discriminate|exact Hcur].
  - destruct (is_space c) eqn:Hc.
    + destruct cur as [|x cur]; [apply IH; reflexivity|].
      constructor; [apply is_token_rev; [discriminate|exact Hcur]|].
      apply IH. reflexivity.
    + apply IH. simpl. rewrite Hc. exact Hcur.
Qed.

Lemma split_ws_from_word : forall w cur t,
  forallb (fun c => negb (is_space c)) w = true ->
  split_ws_from cur (w ++ t) = split_ws_from (rev w ++ cur) t.
Proof.
  induction w as [|c w IH]; intros cur t H; [reflexivity|].
  simpl in H. apply andb_prop in H as [Hc H]. apply negb_true_iff in Hc.
  simpl. rewrite Hc, (IH _ _ H), <- app_assoc. reflexivity.
Qed.

Lemma split_ws_from_blank cur t :
  cur <> [] ->
  split_ws_from cur (" "%char :: t) = rev cur :: split_ws_from [] t.
Proof. intros H. destruct cur; [congruence|reflexivity]. Qed.

Lemma join_cons2 sep (w w2 : text) ws :
  join sep (w :: w2 :: ws) = w ++ sep ++ join sep (w2 :: ws).
Proof. reflexivity. Qed.

(** splitting what was joined gives the words back *)
Lemma split_ws_join : forall ws,
  Forall (fun w => is_token w = true) ws -> split_ws (join (T " ") ws) = ws.
Proof.
  induction ws as [|w ws IH]; intros H; [reflexivity|].
  inversion H as [|? ? Hw Hws]; subst.
  apply is_token_parts in Hw as [Hne Hw].
  assert (Hr : rev w ++ [] <> []).
  { rewrite app_nil_r. intros E. apply Hne.
    rewrite <- (rev_involutive w), E. reflexivity. }
  destruct ws as [|w2 ws].
  - unfold split_ws. cbn [join]. rewrite <- (app_nil_r w) at 1.
    rewrite (split_ws_from_word _ _ _ Hw). cbn [split_ws_from].
    destruct (rev w ++ []) as [|x l] eqn:E; [congruence|].
    rewrite <- E, app_nil_r, rev_involutive. reflexivity.
  - rewrite join_cons2. unfold split_ws.
    rewrite (split_ws_from_word _ _ _ Hw).
    change (T " " ++ join (T " ") (w2 :: ws))
      with (" "%char :: join (T " ") (w2 :: ws)).
    rewrite split_ws_from_blank by exact Hr.
    rewrite app_nil_r, rev_involutive. f_equal. apply (IH Hws).
Qed.

Lemma join_tokens_head w ws :
  is_token w = true ->
  exists c t, join (T " ") (w :: ws) = c :: t /\ is_space c = false.
Proof.
  intros Hw. apply is_token_parts in Hw as [Hne Hw].
  destruct w as [|c w]; [congruence|]. simpl in Hw.
  apply andb_prop in Hw as [Hc _]. apply negb_true_iff in Hc.
  destruct ws; [exists c, w|eexists c, _]; split; try exact Hc; reflexivity.
Qed.

Lemma last_app_nonempty (d : ascii) : forall u v, v <> [] ->
  last (u ++ v) d = last v d.
Proof.
  induction u as [|x u IH]; intros v Hv; [reflexivity|].
  cbn [app]. rewrite <- (IH v Hv).
  destruct (u ++ v) eqn:E; [|reflexivity].
  apply app_eq_nil in E as [_ E]. congruence.
Qed.

Lemma token_last w d :
  is_token w = true -> is_space (last w d) = false.
Proof.
  intros Hw. apply is_token_parts in Hw as [Hne Hw].
  rewrite forallb_forall in Hw. apply negb_true_iff, Hw.
  destruct w as [|c w]; [congruence|].
  destruct (exists_last (l := c :: w)) as (u & x & E); [discriminate|].
  rewrite E, last_last. apply in_or_app. right. left. reflexivity.
Qed.

Lemma join_tokens_last d : forall ws w,
  Forall (fun w => is_token w = true) (w :: ws) ->
  is_space (last (join (T " ") (w :: ws)) d) = false.
Proof.
  induction ws as [|w2 ws IH]; intros w H; inversion H as [|? ? Hw Hws]; subst.
  - apply token_last. exact Hw.
  - rewrite join_cons2. rewrite app_assoc, last_app_nonempty.
    + apply IH. exact Hws.
    + inversion Hws as [|? ? Hw2 _]; subst.
      destruct (@join_tokens_head w2 ws Hw2) as (c & t & -> & _). discriminate.
Qed.

Lemma contains_two_blanks_word : forall w t,
  forallb (fun c => negb (is_space c)) w = true ->
  contains (T "  ") (w ++ t) = contains (T "  ") t.
Proof.
  induction w as [|c w IH]; intros t H; [reflexivity|].
  simpl in H. apply andb_prop in H as [Hc H]. apply negb_true_iff in Hc.
  cbn [app]. rewrite <- (IH t H). cbn [contains startswith T
    list_ascii_of_string].
  destruct (Ascii.eqb " " c) eqn:E; [|reflexivity].
  apply Ascii.eqb_eq in E. subst c. discriminate Hc.
Qed.

Lemma join_tokens_blanks : forall ws,
  Forall (fun w => is_token w = true) ws ->
  contains (T "  ") (join (T " ") ws) = false
  /\ forallb (fun c => negb (is_space c) || Ascii.eqb c " ")
             (join (T " ") ws) = true.
Proof.
  assert (Hword : forall w, forallb (fun c => negb (is_space c)) w = true ->
            forallb (fun c => negb (is_space c) || Ascii.eqb c " ") w = true).
  { intros w. apply forallb_impl. intros c ->. reflexivity. }
  induction ws as [|w ws IH]; intros H; [split; reflexivity|].
  inversion H as [|? ? Hw Hws]; subst.
  pose proof Hw as Hw'. apply is_token_parts in Hw' as [Hne Hsp].
  destruct ws as [|w2 ws].
  - cbn [join]. split; [|apply Hword; exact Hsp].
    rewrite <- (app_nil_r w), contains_two_blanks_word by exact Hsp.
    reflexivity.
  - rewrite join_cons2. destruct (IH Hws) as [IH1 IH2].
    inversion Hws as [|? ? Hw2 _]; subst.
    destruct (@join_tokens_head w2 ws Hw2) as (c & t & E & Hc).
    split.
    + rewrite contains_two_blanks_word by exact Hsp.
      rewrite E in *. change (T " " ++ c :: t) with (" "%char :: c :: t).
      change (T "  ") with [" "%char; " "%char] in *.
      cbn [contains] in *. rewrite IH1.
      replace (startswith [" "%char; " "%char] (" "%char :: c :: t))
        with false; [reflexivity|].
      cbn [startswith]. destruct (Ascii.eqb " " c) eqn:Ec.
      * apply Ascii.eqb_eq in Ec. subst c. discriminate Hc.
      * rewrite andb_false_r. reflexivity.
    + rewrite !forallb_app, IH2, (Hword _ Hsp). reflexivity.
Qed.

(** X11. The return type of every FunctionRecord is whitespace-normalised:
    it is the words of the captured text joined by single blanks.  So
    normalising it again changes nothing, it has no whitespace at either
    end, no two blanks in a row, and no whitespace character other than
    the blank. *)
Theorem return_type_normalised (src : text) (r : FunctionRecord) :
  In r (apis_of src) ->
  join (T " ") (split_ws (return_type r)) = return_type r
  /\ trimmed (return_type r) = true
  /\ contains (T "  ") (return_type r) = false
  /\ forallb (fun c => negb (is_space c) || Ascii.eqb c " ")
             (return_type r) = true.
Proof.
  rewrite apis_of_eq. intros H.
  assert (Hg : exists g, return_type r = join (T " ") (split_ws g)).
  { apply in_app_or in H as [H|H].
    - apply def_records_in in H as (m & _ & ->). eexists. reflexivity.
    - apply in_map_iff in H as (m & <- & _). eexists. reflexivity. }
  destruct Hg as (g & ->).
  pose proof (split_ws_from_tokens g [] eq_refl) as Ht.
  fold (split_ws g) in Ht. set (ws := split_ws g) in *.
  split; [rewrite (split_ws_join Ht); reflexivity|].
  split; [|apply join_tokens_blanks; exact Ht].
  destruct ws as [|w ws]; [reflexivity|].
  inversion Ht as [|? ? Hw _]; subst.
  pose proof (join_tokens_last "a"%char Ht) as Hl.
  destruct (@join_tokens_head w ws Hw) as (c & t & E & Hc).
  rewrite E in *. cbn [trimmed]. rewrite Hc. cbn [negb andb].
  destruct t as [|y t]; [cbn [last]; rewrite Hc; reflexivity|].
  rewrite (last_cons_default t y c), <- (last_cons_default t y "a"%char).
  change (last (c :: y :: t) "a"%char) with (last (y :: t) "a"%char) in Hl.
  rewrite Hl. reflexivity.
Qed.

Lemma return_type_normalised_witness :
  let r := proto_record (Mk 0 23 [(3, T "void"); (2, T "f");
                                  (1, T "unsigned   int")]) in
  join (T " ") (split_ws (return_type r)) = return_type r
  /\ trimmed (return_type r) = true
  /\ contains (T "  ") (return_type r) = false
  /\ forallb (fun c => negb (is_space c) || Ascii.eqb c " ")
             (return_type r) = true.
Proof.
  apply (@return_type_normalised (T "unsigned   int f(void);")).
  vm_compute. left. reflexivity.
Defined.

(* ------------------------------------------------------------------ *)
(** ** Bodies are source text *)

Lemma brace_scan_prefix : forall rest d,
  exists tl, rest = fst (brace_scan rest d) ++ tl.
Proof.
  induction rest as [|ch rest IH]; intros d; [exists []; reflexivity|].
  cbn [brace_scan].
  destruct (Ascii.eqb ch "{").
  - destruct (IH (d + 1)%Z) as (tl & E). destruct (brace_scan rest (d + 1)).
    exists tl. cbn [fst app] in *. congruence.
  - destruct (Ascii.eqb ch "}").
    + destruct (Z.eqb (d - 1) 0); [exists rest; reflexivity|].
      destruct (IH (d - 1)%Z) as (tl & E). destruct (brace_scan rest (d - 1)).
      exists tl. cbn [fst app] in *. congruence.
    + destruct (IH d) as (tl & E). destruct (brace_scan rest d).
      exists tl. cbn [fst app] in *. congruence.
Qed.

Lemma dropwhile_suffix p : forall t,
  exists pre, t = pre ++ dropwhile p t /\ forallb p pre = true.
Proof.
  induction t as [|c t IH]; [exists []; auto|]. simpl.
  destruct (p c) eqn:E; [|exists []; auto].
  destruct IH as (pre & Ht & Hp). exists (c :: pre). simpl.
  rewrite E, Hp. split; [congruence|reflexivity].
Qed.

Lemma rstrip_with_prefix p t :
  exists ws, t = rstrip_with p t ++ ws /\ forallb p ws = true.
Proof.
  unfold rstrip_with.
  destruct (dropwhile_suffix p (rev t)) as (pre & Ht & Hp).
  exists (rev pre). split.
  - rewrite <- rev_app_distr, <- Ht, rev_involutive. reflexivity.
  - rewrite forallb_forall in *. intros x Hx. apply Hp, in_rev. exact Hx.
Qed.

(** X12. The body of a definition record is source text: it is the part
    of the comment-stripped text that starts at the opening brace ending
    the match, it has no whitespace at either end, and it is followed in
    the text by whitespace only when the scan ran to the end of the
    text. *)
Theorem definition_body_is_source_text (src : text) (m : Match) :
  In m (finditer func_def_pattern (strip_comments src)) ->
  let b := body (def_record (strip_comments src) m) in
  (exists t, b = "{"%char :: t)
  /\ trimmed b = true
  /\ exists rest, skipn (m_end m - 1) (strip_comments src) = b ++ rest
       /\ ((0 < snd (scan_of (strip_comments src) m))%Z ->
           forallb is_space rest = true).
Proof.
  intros Hm b. apply finditer_match in Hm.
  destruct (def_record_body Hm) as [Hb Ht]. fold b in Hb, Ht.
  split; [exact Ht|]. split; [rewrite Hb; apply strip_trimmed|].
  destruct (def_match_brace Hm) as (r0 & Hr).
  destruct (scan_of_exit Hm) as [E|[Hd E]].
  - unfold scan_of in *.
    destruct (brace_scan_prefix (skipn (m_end m - 1) (strip_comments src)) 0)
      as (tl & Hp).
    destruct (rstrip_with_prefix is_space
                (fst (brace_scan (skipn (m_end m - 1) (strip_comments src)) 0)))
      as (ws & Hw & _).
    assert (Hs : b = rstrip_with is_space
                (fst (brace_scan (skipn (m_end m - 1) (strip_comments src)) 0))).
    { rewrite Hb. rewrite Hr. cbn [brace_scan Ascii.eqb Bool.eqb].
      destruct (brace_scan r0 (0 + 1)). cbn [fst].
      unfold strip, lstrip_with. reflexivity. }
    exists (ws ++ tl). split; [|intros; lia].
    rewrite app_assoc, Hs, <- Hw. exact Hp.
  - destruct (rstrip_with_prefix is_space (skipn (m_end m - 1) (strip_comments src)))
      as (ws & Hw & Hsp).
    exists ws. split; [|intros _; exact Hsp].
    rewrite Hb, E. rewrite Hr in *.
    unfold strip, lstrip_with. exact Hw.
Qed.

Lemma definition_body_is_source_text_witness :
  let b := body (def_record (strip_comments src_unbalanced) m_unbalanced) in
  (exists t, b = "{"%char :: t)
  /\ trimmed b = true
  /\ exists rest,
       skipn (m_end m_unbalanced - 1) (strip_comments src_unbalanced)
       = b ++ rest
       /\ ((0 < snd (scan_of (strip_comments src_unbalanced) m_unbalanced))%Z ->
           forallb is_space rest = true).
Proof.
  apply definition_body_is_source_text. vm_compute. left. reflexivity.
Defined.

(* ------------------------------------------------------------------ *)
(** ** The number of arguments *)

Lemma cut_none sep : forall t i,
  filter sep (seq i (length t)) = [] -> cut sep i t = [t].
Proof.
  induction t as [|c t IH]; intros i H; [reflexivity|].
  rewrite cut_cons. simpl seq in H. simpl filter in H.
  destruct (sep i); [discriminate|]. rewrite (IH _ H). reflexivity.
Qed.

(** X13. The number of ArgumentRecords of a parameter text that is
    neither blank nor the token void is its number of top-level commas,
    plus one unless only whitespace follows the last of them; it is never
    zero. *)
Theorem split_args_count (arg_text : text) :
  strip arg_text <> [] -> lower (strip arg_text) <> T "void" ->
  length (split_args arg_text)
  = top_level_commas (strip arg_text)
    + match strip (last (top_level_pieces (strip arg_text)) []) with
      | [] => 0
      | _ => 1
      end
  /\ 1 <= length (split_args arg_text).
Proof.
  intros H1 H2. unfold split_args.
  destruct (text_eqb (strip arg_text) []) eqn:E1;
    [apply text_eqb_eq in E1; contradiction|].
  destruct (text_eqb (lower (strip arg_text)) (T "void")) eqn:E2;
    [apply text_eqb_eq in E2; contradiction|].
  cbn [orb]. rewrite length_map, split_tokens_spec, length_spec_tokens.
  split; [reflexivity|].
  destruct (top_level_commas (strip arg_text)) as [|n] eqn:En; [|lia].
  unfold top_level_commas in En. apply length_zero_iff_nil in En.
  unfold top_level_pieces. rewrite (cut_none _ _ _ En). cbn [last].
  assert (Hs : strip (strip arg_text) = strip arg_text)
    by (apply trimmed_strip, strip_trimmed).
  rewrite Hs. destruct (strip arg_text); [congruence|]. simpl. lia.
Qed.

Lemma split_args_count_witness :
  length (split_args (T "int a, int b,"))
  = top_level_commas (strip (T "int a, int b,"))
    + match strip (last (top_level_pieces (strip (T "int a, int b,"))) []) with
      | [] => 0
      | _ => 1
      end
  /\ 1 <= length (split_args (T "int a, int b,")).
Proof.
  apply split_args_count; vm_compute; discriminate.
Defined.

(* ------------------------------------------------------------------ *)
(** ** Contiguous parts of a text *)

Lemma Substr_refl t : Substr t t.
Proof. exists [], []. rewrite app_nil_r. reflexivity. Qed.

Lemma Substr_nil t : Substr [] t.
Proof. exists [], t. reflexivity. Qed.

Lemma Substr_trans x y z : Substr x y -> Substr y z -> Substr x z.
Proof.
  intros (p1 & q1 & ->) (p2 & q2 & ->). exists (p2 ++ p1), (q1 ++ q2).
  rewrite <- !app_assoc. reflexivity.
Qed.

Lemma Substr_prefix x post : Substr x (x ++ post).
Proof. exists [], post. reflexivity. Qed.

Lemma Substr_suffix pre x : Substr x (pre ++ x).
Proof. exists pre, []. rewrite app_nil_r. reflexivity. Qed.

Lemma Substr_cons c x s : Substr x s -> Substr x (c :: s).
Proof. intros (p & q & ->). exists (c :: p), q. reflexivity. Qed.

Lemma Substr_In x s c : Substr x s -> In c x -> In c s.
Proof.
  intros (p & q & ->) H. apply in_or_app. right. apply in_or_app. left.
  exact H.
Qed.

Lemma startswith_prefix : forall p t,
  startswith p t = true <-> exists post, t = p ++ post.
Proof.
  induction p as [|x p IH]; intros t; simpl.
  - split; [intros _; exists t; reflexivity|reflexivity].
  - destruct t as [|c t].
    + split; [discriminate|]. intros (post & H). discriminate H.
    + rewrite andb_true_iff, Ascii.eqb_eq, IH. split.
      * intros (-> & post & ->). exists post. reflexivity.
      * intros (post & H). injection H as -> ->. eauto.
Qed.

Lemma contains_Substr p : forall t, contains p t = true <-> Substr p t.
Proof.
  induction t as [|c t IH].
  - simpl. rewrite orb_false_r, startswith_prefix. split.
    + intros (post & ->). apply Substr_prefix.
    + intros (pre & post & H). symmetry in H.
      apply app_eq_nil in H as [-> H]. apply app_eq_nil in H as [-> ->].
      exists []. reflexivity.
  - cbn [contains]. rewrite orb_true_iff, IH, startswith_prefix. split.
    + intros [(post & ->)|H]; [apply Substr_prefix|].
      apply Substr_cons. exact H.
    + intros (pre & post & H). destruct pre as [|x pre].
      * left. exists post. exact H.
      * right. injection H as -> ->. exists pre, post. reflexivity.
Qed.

Lemma contains_false_part p x s :
  Substr x s -> contains p s = false -> contains p x = false.
Proof.
  intros Hx Hs. apply not_true_is_false. intros E.
  apply contains_Substr in E.
  assert (H : contains p s = true)
    by (apply contains_Substr; exact (Substr_trans E Hx)).
  congruence.
Qed.

Lemma strip_Substr t : Substr (strip t) t.
Proof.
  unfold strip, lstrip_with.
  destruct (dropwhile_suffix is_space t) as (pre & Ht & _).
  destruct (rstrip_with_prefix is_space (dropwhile is_space t)) as (ws & Hw & _).
  exists pre, ws. rewrite <- Hw. exact Ht.
Qed.

Lemma strip_char_Substr c t : Substr (strip_char c t) t.
Proof.
  unfold strip_char, lstrip_with.
  destruct (dropwhile_suffix (Ascii.eqb c) t) as (pre & Ht & _).
  destruct (rstrip_with_prefix (Ascii.eqb c) (dropwhile (Ascii.eqb c) t))
    as (ws & Hw & _).
  exists pre, ws. rewrite <- Hw. exact Ht.
Qed.

(** the first line is the start of the text *)
Lemma splitlines_head : forall t l ls,
  splitlines t = l :: ls -> exists post, t = l ++ post.
Proof.
  induction t as [|c t IH]; intros l ls H; [discriminate|].
  cbn [splitlines] in H. destruct (is_linebreak c).
  - assert (l = []) as ->.
    { destruct t as [|c2 t2]; [congruence|].
      destruct (Ascii.eqb c CR && Ascii.eqb c2 LF)%bool; congruence. }
    eexists. reflexivity.
  - destruct (splitlines t) as [|l0 ls0] eqn:E.
    + injection H as <- <-. exists t. reflexivity.
    + injection H as <- <-. destruct (IH _ _ eq_refl) as (post & ->).
      exists post. reflexivity.
Qed.

Lemma splitlines_Substr_len : forall n t l,
  length t <= n -> In l (splitlines t) -> Substr l t.
Proof.
  induction n as [|n IH]; intros t l Hn H.
  - destruct t; [destruct H|simpl in Hn; lia].
  - destruct t as [|c t]; [destruct H|]. simpl in Hn.
    cbn [splitlines] in H. destruct (is_linebreak c).
    + destruct t as [|c2 t2].
      * destruct H as [<-|[]]. apply Substr_nil.
      * destruct (Ascii.eqb c CR && Ascii.eqb c2 LF)%bool;
          (destruct H as [<-|H]; [apply Substr_nil|]).
        -- apply Substr_cons, Substr_cons. apply IH; [simpl in Hn; lia|exact H].
        -- apply Substr_cons. apply IH; [lia|exact H].
    + destruct (splitlines t) as [|l0 ls] eqn:E.
      * destruct H as [<-|[]]. apply (Substr_prefix [c] t).
      * destruct H as [<-|H].
        -- destruct (splitlines_head _ E) as (post & ->).
           apply (Substr_prefix (c :: l0) post).
        -- apply Substr_cons. apply IH; [lia|]. rewrite E. right. exact H.
Qed.

Lemma splitlines_Substr t l : In l (splitlines t) -> Substr l t.
Proof. apply (@splitlines_Substr_len (length t)). lia. Qed.

(** what a group captured is a part of the text *)
Lemma den_group_part : forall r st e n g,
  den r st e -> lookup n (caps e) = Some g ->
  lookup n (caps st) = Some g \/ Substr g (whole st).
Proof.
  induction r as [|c|p| | |p|p|r IH|i r IH|r1 IH1 r2 IH2];
    intros st e n g H Hl;
    try (left; rewrite <- Hl; symmetry;
         refine (den_lookup _ _ _ n _ H); reflexivity).
  - simpl in H. destruct H as [->|H]; [left; exact Hl|]. eapply IH; eauto.
  - simpl in H. destruct H as (m & Hm & ->). simpl in Hl.
    destruct (Nat.eqb i n).
    + right. injection Hl as <-.
      destruct (den_span _ _ _ Hm) as (cs & Ha & Hb).
      rewrite (consumed_app _ _ _ Hb). unfold whole. rewrite Ha.
      exists (rev (before st)), (after m). reflexivity.
    + eapply IH; eauto.
  - simpl in H. destruct H as (m & H1 & H2).
    destruct (IH2 _ _ _ _ H2 Hl) as [Hm|Hm].
    + eapply IH1; eauto.
    + right. rewrite <- (den_whole _ _ _ H1). exact Hm.
Qed.

Lemma match_group_part r s m n : match_of r s m -> Substr (group_text m n) s.
Proof.
  intros (b & a & e & Hs & H & ->). unfold group_text, group. simpl m_caps.
  destruct (lookup n (caps e)) as [g|] eqn:E; [|apply Substr_nil].
  destruct (den_group_part _ _ _ _ H E) as [Hn|Hp]; [discriminate Hn|].
  unfold whole in Hp. simpl in Hp. rewrite Hs in Hp. exact Hp.
Qed.

(* ------------------------------------------------------------------ *)
(** ** Members, whatever the body *)

Lemma mem_char_strip c t :
  is_space c = false -> mem_char c (strip t) = mem_char c t.
Proof.
  intros Hc. pose proof (@count_strip c t Hc) as H. unfold count in H.
  destruct (mem_char c t) eqn:E.
  - apply mem_char_In. apply mem_char_In in E.
    apply (count_occ_In ascii_dec). apply (count_occ_In ascii_dec) in E. lia.
  - apply not_true_is_false. intros E'. apply mem_char_In, strip_In in E'.
    apply mem_char_In in E'. congruence.
Qed.

Lemma split_head_prefix sep t :
  mem_char sep (split_head sep t) = false
  /\ exists post, t = split_head sep t ++ post.
Proof.
  unfold split_head. destruct (mem_char sep t) eqn:E.
  - destruct (split_first_sep sep t E) as (h & u2 & q & qs & -> & Hh & ->).
    split; [exact Hh|]. eexists. reflexivity.
  - rewrite (split_no_sep sep t E). split; [exact E|].
    exists []. rewrite app_nil_r. reflexivity.
Qed.

Lemma mem_char_part c x s : Substr x s -> mem_char c s = false -> mem_char c x = false.
Proof.
  intros Hx. apply mem_char_false_sub. intros y. apply Substr_In. exact Hx.
Qed.

Lemma rsplit1_last_part t :
  Substr (last (rsplit1 " " t) []) t
  /\ mem_char " " (last (rsplit1 " " t) []) = false.
Proof.
  destruct (rsplit1_spec " " t) as [[Hn ->]|(p0 & p1 & -> & Hp & E)].
  - split; [apply Substr_refl|exact Hn].
  - rewrite E. split; [|exact Hp].
    exists (p0 ++ [" "%char]), []. rewrite app_nil_r, <- app_assoc. reflexivity.
Qed.

Lemma member_of_line_shape line :
  Substr (member_of_line line) line
  /\ mem_char ";" (member_of_line line) = false
  /\ mem_char " " (member_of_line line) = false
  /\ trimmed (member_of_line line) = true.
Proof.
  unfold member_of_line.
  set (h := split_head ";" (strip line)).
  destruct (split_head_prefix ";" (strip line)) as [Hsemi (post & Hpost)].
  fold h in Hsemi, Hpost.
  destruct (rsplit1_last_part (strip h)) as [Hl Hb].
  set (x := last (rsplit1 " " (strip h)) []) in *.
  assert (Hxh : Substr (strip x) h).
  { apply (Substr_trans (strip_Substr x)).
    apply (Substr_trans Hl). apply strip_Substr. }
  split; [|split; [|split]].
  - apply (Substr_trans Hxh). apply (@Substr_trans _ (strip line)).
    + rewrite Hpost. apply Substr_prefix.
    + apply strip_Substr.
  - apply (@mem_char_part _ _ _ Hxh). exact Hsemi.
  - apply (@mem_char_part _ _ _ (strip_Substr x)). exact Hb.
  - apply strip_trimmed.
Qed.

(** without the comment test the struct loop keeps the lines that hold a
    semicolon *)
Lemma struct_members_filter : forall lines,
  (forall l, In l lines -> startswith (T "//") (strip l) = false) ->
  struct_members lines = map member_of_line (filter (mem_char ";") lines).
Proof.
  induction lines as [|line rest IH]; intros H; [reflexivity|].
  assert (IH' : struct_members rest
                = map member_of_line (filter (mem_char ";") rest))
    by (apply IH; intros l Hl; apply H; right; exact Hl).
  cbn [struct_members filter].
  rewrite (H line (or_introl eq_refl)), orb_false_r.
  rewrite (@mem_char_strip ";" line eq_refl).
  destruct (text_eqb (strip line) []) eqn:E.
  - apply text_eqb_eq in E.
    assert (Hm : mem_char ";" line = false).
    { rewrite <- (@mem_char_strip ";" line eq_refl), E. reflexivity. }
    rewrite Hm. exact IH'.
  - destruct (mem_char ";" line); [|exact IH'].
    cbn [map]. rewrite IH'. reflexivity.
Qed.

Lemma no_comment_line s body :
  Substr body s -> contains (T "//") s = false ->
  forall l, In l (splitlines body) -> startswith (T "//") (strip l) = false.
Proof.
  intros Hb Hs l Hl. apply not_true_is_false. intros E.
  apply startswith_prefix in E as (post & E).
  assert (Hp : Substr (T "//") s).
  { apply (@Substr_trans _ (strip l)); [rewrite E; apply Substr_prefix|].
    apply (Substr_trans (strip_Substr l)).
    apply (Substr_trans (splitlines_Substr _ _ Hl)). exact Hb. }
  apply contains_Substr in Hp. congruence.
Qed.

(** X14. Whatever the body of a struct typedef holds, its record has one
    member for each line of the body that holds a semicolon, in order:
    the test for lines that start with a line-comment opener never fires,
    since the comments are stripped before.  A member is a part of its
    line, without whitespace at either end, and holds neither a semicolon
    nor a blank. *)
Theorem struct_members_by_semicolon (src : text) (m : Match) :
  In m (finditer struct_pattern (strip_comments src)) ->
  let lines := splitlines (group_text m 1) in
  (forall l, In l lines -> startswith (T "//") (strip l) = false)
  /\ members (struct_record m)
     = map member_of_line (filter (mem_char ";") lines)
  /\ num_members (struct_record m) = length (filter (mem_char ";") lines)
  /\ forall l, In l lines ->
       Substr (member_of_line l) l
       /\ mem_char ";" (member_of_line l) = false
       /\ mem_char " " (member_of_line l) = false
       /\ trimmed (member_of_line l) = true.
Proof.
  intros Hm lines. apply finditer_match in Hm.
  assert (Hc : forall l, In l lines -> startswith (T "//") (strip l) = false).
  { apply (@no_comment_line (strip_comments src)).
    - apply (match_group_part 1 Hm).
    - apply strip_comments_no_line_opener. }
  split; [exact Hc|].
  assert (E : members (struct_record m)
              = map member_of_line (filter (mem_char ";") lines)).
  { unfold struct_record. cbn [members]. apply struct_members_filter. exact Hc. }
  split; [exact E|]. split.
  - unfold struct_record in *. cbn [num_members members] in *.
    rewrite E, length_map. reflexivity.
  - intros l _. apply member_of_line_shape.
Qed.

Lemma struct_members_by_semicolon_witness :
  let lines := splitlines (group_text m_point 1) in
  (forall l, In l lines -> startswith (T "//") (strip l) = false)
  /\ members (struct_record m_point)
     = map member_of_line (filter (mem_char ";") lines)
  /\ num_members (struct_record m_point)
     = length (filter (mem_char ";") lines)
  /\ forall l, In l lines ->
       Substr (member_of_line l) l
       /\ mem_char ";" (member_of_line l) = false
       /\ mem_char " " (member_of_line l) = false
       /\ trimmed (member_of_line l) = true.
Proof.
  apply (@struct_members_by_semicolon src_point m_point).
  vm_compute. left. reflexivity.
Defined.

Lemma splitlines_no_linebreak_len : forall n t l,
  length t <= n -> In l (splitlines t) ->
  forallb (fun c => negb (is_linebreak c)) l = true.
Proof.
  induction n as [|n IH]; intros t l Hn H.
  - destruct t; [destruct H|simpl in Hn; lia].
  - destruct t as [|c t]; [destruct H|]. simpl in Hn.
    cbn [splitlines] in H. destruct (is_linebreak c) eqn:Hc.
    + destruct t as [|c2 t2].
      * destruct H as [<-|[]]. reflexivity.
      * destruct (Ascii.eqb c CR && Ascii.eqb c2 LF)%bool;
          (destruct H as [<-|H]; [reflexivity|]).
        -- apply (IH t2); [simpl in Hn; lia|exact H].
        -- apply (IH (c2 :: t2)); [lia|exact H].
    + destruct (splitlines t) as [|l0 ls] eqn:E.
      * destruct H as [<-|[]]. simpl. rewrite Hc. reflexivity.
      * destruct H as [<-|H].
        -- simpl. rewrite Hc. simpl. apply (IH t); [lia|].
           rewrite E. left. reflexivity.
        -- apply (IH t); [lia|]. rewrite E. right. exact H.
Qed.

Lemma strip_with_ends p t :
  rstrip_with p (lstrip_with p t) = []
  \/ exists c r, rstrip_with p (lstrip_with p t) = c :: r
                 /\ p c = false /\ p (last r c) = false.
Proof.
  unfold lstrip_with.
  destruct (dropwhile_result p t) as [->|(c & u & -> & Hc)];
    [left; reflexivity|].
  right. rewrite rstrip_with_cons by exact Hc.
  exists c, (rstrip_with p u). split; [reflexivity|]. split; [exact Hc|].
  unfold rstrip_with.
  destruct (dropwhile_result p (rev u)) as [->|(x & d & -> & Hx)].
  - exact Hc.
  - simpl. rewrite last_last. exact Hx.
Qed.

(** X15. Whatever the body of an enum typedef holds, every member of the
    record built from a match is a non-empty part of one line of the
    body; it holds no equals sign and neither starts nor ends with a
    comma.  There are at most as many members as the body has lines that
    are not blank. *)
Theorem enum_member_shape (m : Match) :
  let lines := splitlines (group_text m 1) in
  num_members (enum_record m)
  <= length (filter (fun l => negb (text_eqb (strip l) [])) lines)
  /\ forall x, In x (members (enum_record m)) ->
       (exists l, In l lines /\ Substr x l)
       /\ mem_char "=" x = false
       /\ forallb (fun c => negb (is_linebreak c)) x = true
       /\ exists c t, x = c :: t /\ c <> ","%char /\ last t c <> ","%char.
Proof.
  intros lines. unfold enum_record. cbn [num_members members].
  unfold enum_members. fold lines. split.
  - eapply Nat.le_trans; [apply filter_length_le|].
    rewrite length_map. apply Nat.le_refl.
  - intros x Hx. apply filter_In in Hx as [Hx Hne].
    apply in_map_iff in Hx as (l & <- & Hl). apply filter_In in Hl as [Hl _].
    set (h := split_head "=" l) in *.
    destruct (split_head_prefix "=" l) as [Heq (post & Hpost)].
    fold h in Heq, Hpost.
    assert (Hxh : Substr (strip_char "," (strip h)) h).
    { apply (Substr_trans (strip_char_Substr _ _)). apply strip_Substr. }
    assert (Hxl : Substr (strip_char "," (strip h)) l).
    { apply (Substr_trans Hxh). rewrite Hpost. apply Substr_prefix. }
    split; [exists l; split; [exact Hl|exact Hxl]|].
    split; [apply (@mem_char_part _ _ _ Hxh); exact Heq|].
    split.
    + pose proof (@splitlines_no_linebreak_len _ _ l (Nat.le_refl _) Hl) as Hnl.
      rewrite forallb_forall in *. intros c Hc. apply Hnl.
      apply (@Substr_In _ _ _ Hxl). exact Hc.
    + unfold strip_char in *.
      destruct (strip_with_ends (Ascii.eqb ",") (strip h))
        as [E|(c & r & E & Hc & Hr)].
      * rewrite E in Hne. discriminate Hne.
      * exists c, r. split; [exact E|].
        split; intros E'; [rewrite E' in Hc|rewrite E' in Hr];
          rewrite Ascii.eqb_refl in *; discriminate.
Qed.

Lemma enum_member_shape_witness :
  let m := Mk 0 41 [(2, T "Color");
                    (1, LF :: T "  A," ++ LF :: T "  B = 2," ++ LF ::
                        T "  C" ++ [LF])] in
  (exists l, In l (splitlines (group_text m 1)) /\ Substr (T "B") l)
  /\ mem_char "=" (T "B") = false
  /\ forallb (fun c => negb (is_linebreak c)) (T "B") = true
  /\ exists c t, T "B" = c :: t /\ c <> ","%char /\ last t c <> ","%char.
Proof.
  intros m. apply (proj2 (enum_member_shape m) (T "B")).
  vm_compute. right. left. reflexivity.
Defined.

(* ------------------------------------------------------------------ *)
(** ** Records quote the text *)

Lemma cut_head_prefix sep : forall t i p ps,
  cut sep i t = p :: ps -> exists post, t = p ++ post.
Proof.
  induction t as [|c t IH]; intros i p ps H.
  - injection H as <- <-. exists []. reflexivity.
  - rewrite cut_cons in H. destruct (sep i).
    + injection H as <- <-. eexists. reflexivity.
    + destruct (cut sep (S i) t) as [|p0 ps0] eqn:E.
      * injection H as <- <-. exists t. reflexivity.
      * injection H as <- <-. destruct (IH _ _ _ E) as (post & ->).
        exists post. reflexivity.
Qed.

Lemma cut_Substr sep : forall t i p, In p (cut sep i t) -> Substr p t.
Proof.
  induction t as [|c t IH]; intros i p H.
  - destruct H as [<-|[]]. apply Substr_nil.
  - rewrite cut_cons in H. destruct (sep i).
    + destruct H as [<-|H]; [apply Substr_nil|].
      apply Substr_cons. exact (IH _ _ H).
    + destruct (cut sep (S i) t) as [|p0 ps0] eqn:E.
      * destruct H as [<-|[]]. apply (Substr_prefix [c] t).
      * destruct H as [<-|H].
        -- destruct (cut_head_prefix _ _ _ E) as (post & ->).
           apply (Substr_prefix (c :: p0) post).
        -- apply Substr_cons. apply (IH (S i)). rewrite E. right. exact H.
Qed.

Lemma In_removelast {A} (x : A) : forall l, In x (removelast l) -> In x l.
Proof.
  induction l as [|y l IH]; [auto|]. simpl.
  destruct l; [intros []|]. intros [->|H]; [left; reflexivity|].
  right. apply IH. exact H.
Qed.

Lemma spec_tokens_part t a : In a (spec_tokens t) -> Substr a t.
Proof.
  assert (Hp : forall x, In x (map strip (top_level_pieces t)) -> Substr x t).
  { intros x Hx. apply in_map_iff in Hx as (p & <- & Hp).
    apply (Substr_trans (strip_Substr p)). exact (cut_Substr _ _ _ _ Hp). }
  unfold spec_tokens. intros H. apply in_app_or in H as [H|H].
  - apply Hp. apply In_removelast. exact H.
  - assert (Hne : map strip (top_level_pieces t) <> []).
    { intros E. apply map_eq_nil in E. exact (cut_nonempty _ _ _ E). }
    destruct (last (map strip (top_level_pieces t)) []) as [|c tok] eqn:E;
      [destruct H|].
    destruct H as [<-|[]]. apply Hp. rewrite <- E.
    destruct (exists_last Hne) as (l & x & ->). rewrite last_last.
    apply in_or_app. right. left. reflexivity.
Qed.

Lemma arg_record_parts a :
  raw (arg_record a) = a
  /\ Substr (type (arg_record a)) a /\ Substr (name (arg_record a)) a.
Proof.
  unfold arg_record, split_type_name.
  destruct (rsplit1_spec " " a) as [[_ ->]|(p0 & p1 & E & _ & ->)]; cbn.
  - split; [reflexivity|]. split; [apply Substr_refl|apply Substr_nil].
  - split; [reflexivity|]. split.
    + apply (Substr_trans (strip_Substr p0)). rewrite E. apply Substr_prefix.
    + apply (Substr_trans (strip_Substr p1)). rewrite E.
      exists (p0 ++ [" "%char]), []. rewrite app_nil_r, <- app_assoc.
      reflexivity.
Qed.

Lemma split_args_parts t a :
  In a (split_args t) ->
  Substr (raw a) t /\ Substr (type a) (raw a) /\ Substr (name a) (raw a).
Proof.
  unfold split_args.
  destruct (text_eqb (strip t) [] || text_eqb (lower (strip t)) (T "void"))%bool;
    [intros []|].
  intros H. apply in_map_iff in H as (tok & <- & Htok).
  rewrite split_tokens_spec in Htok. apply spec_tokens_part in Htok.
  destruct (arg_record_parts tok) as (-> & Ht & Hn).
  split; [|split; assumption].
  apply (Substr_trans Htok). apply strip_Substr.
Qed.

(** X16. The records quote the comment-stripped text: every macro name
    and value, every typedef name and member, every function name, every
    body of a definition and every raw argument is a contiguous part of
    it, and the type and the name of an argument are parts of its raw
    text.  Only return types (normalised), the sentinel body and the
    comment fields are composed. *)
Theorem records_quote_source (src : text) :
  let s := strip_comments src in
  (forall r, In r (macros_of src) ->
     Substr (macro_name r) s /\ Substr (value r) s)
  /\ (forall r, In r (types_of src) ->
        (exists n, typedef_name r = Some n /\ Substr n s)
        /\ forall x, In x (members r) -> Substr x s)
  /\ (forall r, In r (apis_of src) ->
        Substr (fn_name r) s
        /\ (body r = no_body \/ Substr (body r) s)
        /\ forall a, In a (args r) ->
             Substr (raw a) s /\ Substr (type a) (raw a)
             /\ Substr (name a) (raw a)).
Proof.
  intros s. split; [|split].
  - intros r H. unfold macros_of, parse_with_regex in H.
    apply in_map_iff in H as (m & <- & Hm). apply finditer_match in Hm.
    fold s in Hm. unfold macro_record. cbn [macro_name value]. split.
    + apply (match_group_part 1 Hm).
    + apply (Substr_trans (strip_Substr _)). apply (match_group_part 2 Hm).
  - intros r H. unfold types_of, parse_with_regex in H. fold s in H.
    assert (Hname : forall m p, match_of p s m ->
              (exists n, group m 2 = Some n) ->
              exists n, group m 2 = Some n /\ Substr n s).
    { intros m p Hm (n & Hn). exists n. split; [exact Hn|].
      pose proof (match_group_part 2 Hm) as Hp. unfold group_text in Hp.
      rewrite Hn in Hp. exact Hp. }
    apply in_app_or in H as [H|H]; apply in_map_iff in H as (m & <- & Hm);
      apply finditer_match in Hm.
    + split.
      * apply (Hname m _ Hm).
        destruct (enum_match_name Hm) as (n & Hn & _). eauto.
      * intros x Hx. unfold enum_record in Hx. cbn [members] in Hx.
        unfold enum_members in Hx. apply filter_In in Hx as [Hx _].
        apply in_map_iff in Hx as (l & <- & Hl).
        apply filter_In in Hl as [Hl _].
        apply (Substr_trans (strip_char_Substr _ _)).
        apply (Substr_trans (strip_Substr _)).
        destruct (split_head_prefix "=" l) as [_ (post & Hpost)].
        apply (@Substr_trans _ l); [rewrite Hpost at 2; apply Substr_prefix|].
        apply (Substr_trans (splitlines_Substr _ _ Hl)).
        apply (match_group_part 1 Hm).
    + split.
      * apply (Hname m _ Hm).
        destruct (struct_match_name Hm) as (n & Hn & _). eauto.
      * intros x Hx. unfold struct_record in Hx. cbn [members] in Hx.
        rewrite struct_members_filter in Hx.
        -- apply in_map_iff in Hx as (l & <- & Hl).
           apply filter_In in Hl as [Hl _].
           destruct (member_of_line_shape l) as [Hsub _].
           apply (Substr_trans Hsub).
           apply (Substr_trans (splitlines_Substr _ _ Hl)).
           apply (match_group_part 1 Hm).
        -- apply (@no_comment_line s).
           ++ apply (match_group_part 1 Hm).
           ++ apply strip_comments_no_line_opener.
  - intros r H. rewrite apis_of_eq in H. fold s in H.
    apply in_app_or in H as [H|H].
    + apply def_records_in in H as (m & Hm & ->).
      apply finditer_match in Hm. split; [|split].
      * apply (match_group_part 2 Hm).
      * right. destruct (def_record_body Hm) as [-> _].
        apply (Substr_trans (strip_Substr _)). unfold scan_of.
        destruct (brace_scan_prefix (skipn (m_end m - 1) s) 0) as (tl & Hp).
        apply (@Substr_trans _ (skipn (m_end m - 1) s)).
        -- rewrite Hp at 2. apply Substr_prefix.
        -- rewrite <- (firstn_skipn (m_end m - 1) s) at 2. apply Substr_suffix.
      * intros a Ha. cbn [args def_record] in Ha.
        apply split_args_parts in Ha as (Hr & Ht & Hn).
        split; [|split; assumption].
        apply (Substr_trans Hr). apply (match_group_part 3 Hm).
    + apply in_map_iff in H as (m & <- & Hm).
      unfold kept_protos in Hm. apply filter_In in Hm as [Hm _].
      apply finditer_match in Hm. split; [|split].
      * apply (match_group_part 2 Hm).
      * left. reflexivity.
      * intros a Ha. cbn [args proto_record] in Ha.
        apply split_args_parts in Ha as (Hr & Ht & Hn).
        split; [|split; assumption].
        apply (Substr_trans Hr). apply (match_group_part 3 Hm).
Qed.

Lemma records_quote_source_witness :
  Substr (T "MAX") (strip_comments (T "#define MAX 100"))
  /\ Substr (T "100") (strip_comments (T "#define MAX 100")).
Proof.
  apply (proj1 (records_quote_source (T "#define MAX 100"))
               (macro_record (Mk 0 15 [(2, T "100"); (1, T "MAX")]))).
  vm_compute. left. reflexivity.
Defined.

(* ------------------------------------------------------------------ *)
(** ** Texts without the characters a pattern needs *)

Lemma den_needs c : forall r st e,
  needs c r = true -> den r st e -> In c (whole st).
Proof.
  induction r as [|x|p| | |p|p|r IH|i r IH|r1 IH1 r2 IH2];
    intros st e N H; simpl in N; try discriminate.
  - apply Ascii.eqb_eq in N. subst x. simpl in H. destruct H as [_ Ha].
    unfold whole. rewrite Ha. apply in_or_app. right. left. reflexivity.
  - simpl in H. destruct H as (m & Hm & _). exact (IH _ _ N Hm).
  - simpl in H. destruct H as (m & H1 & H2).
    apply orb_prop in N as [N|N]; [exact (IH1 _ _ N H1)|].
    rewrite <- (den_whole _ _ _ H1). exact (IH2 _ _ N H2).
Qed.

Lemma finditer_needs c r s :
  needs c r = true -> ~ In c s -> finditer r s = [].
Proof.
  intros N Hc. destruct (finditer r s) as [|m l] eqn:E; [reflexivity|].
  exfalso. apply Hc.
  assert (Hm : In m (finditer r s)) by (rewrite E; left; reflexivity).
  apply finditer_match in Hm as (b & a & e & Hs & H & _).
  apply (@den_needs c _ _ _ N) in H. unfold whole in H. simpl in H.
  rewrite Hs in H. exact H.
Qed.

Lemma Subseq_In c s t : Subseq s t -> In c s -> In c t.
Proof.
  induction 1 as [|x s t H IH|x s t H IH]; intros Hc; [exact Hc| |].
  - right. apply IH. exact Hc.
  - destruct Hc as [->|Hc]; [left; reflexivity|right; apply IH; exact Hc].
Qed.

Lemma strip_comments_Subseq src : Subseq (strip_comments src) src.
Proof.
  unfold strip_comments.
  apply (@Subseq_trans _ _ (sub_empty_Subseq pattern_block src) _).
  apply sub_empty_Subseq.
Qed.

Lemma stripped_lacks c src :
  mem_char c src = false -> ~ In c (strip_comments src).
Proof.
  intros H Hin. apply (@Subseq_In _ _ _ (strip_comments_Subseq src)) in Hin.
  apply mem_char_In in Hin. congruence.
Qed.

(** X17. No record without its punctuation: a source without [#] gives no
    macro; one that lacks an opening brace, a closing brace or a
    semicolon gives no type; one that lacks an opening or a closing
    parenthesis gives no function.  Without an opening brace every
    function record is a prototype (sentinel body), without a semicolon
    every one is a definition.  In particular an empty source gives
    nothing. *)
Theorem no_record_without_punctuation (src : text) :
  (mem_char "#" src = false -> macros_of src = [])
  /\ (mem_char "{" src = false \/ mem_char "}" src = false
      \/ mem_char ";" src = false -> types_of src = [])
  /\ (mem_char "(" src = false \/ mem_char ")" src = false ->
      apis_of src = [])
  /\ (mem_char "{" src = false ->
      forall r, In r (apis_of src) -> body r = no_body)
  /\ (mem_char ";" src = false ->
      forall r, In r (apis_of src) -> body r <> no_body).
Proof.
  assert (Hnone : forall c r, needs c r = true -> mem_char c src = false ->
            finditer r (strip_comments src) = []).
  { intros c r N H. apply (@finditer_needs c r _ N). apply stripped_lacks.
    exact H. }
  split; [|split; [|split; [|split]]].
  - intros H. unfold macros_of, parse_with_regex.
    rewrite (Hnone "#"%char macro_pattern eq_refl H). reflexivity.
  - intros H. unfold types_of, parse_with_regex.
    destruct H as [H|[H|H]].
    + rewrite (Hnone "{"%char enum_pattern eq_refl H),
              (Hnone "{"%char struct_pattern eq_refl H). reflexivity.
    + rewrite (Hnone "}"%char enum_pattern eq_refl H),
              (Hnone "}"%char struct_pattern eq_refl H). reflexivity.
    + rewrite (Hnone ";"%char enum_pattern eq_refl H),
              (Hnone ";"%char struct_pattern eq_refl H). reflexivity.
  - intros H. rewrite apis_of_eq. unfold def_records, kept_protos.
    destruct H as [H|H].
    + rewrite (Hnone "("%char func_def_pattern eq_refl H),
              (Hnone "("%char proto_pattern eq_refl H). reflexivity.
    + rewrite (Hnone ")"%char func_def_pattern eq_refl H),
              (Hnone ")"%char proto_pattern eq_refl H). reflexivity.
  - intros H r Hr. rewrite apis_of_eq in Hr. unfold def_records in Hr.
    rewrite (Hnone "{"%char func_def_pattern eq_refl H) in Hr.
    cbn [map app] in Hr. apply in_map_iff in Hr as (m & <- & _). reflexivity.
  - intros H r Hr. rewrite apis_of_eq in Hr. unfold kept_protos in Hr.
    rewrite (Hnone ";"%char proto_pattern eq_refl H) in Hr.
    cbn [filter map] in Hr. rewrite app_nil_r in Hr.
    apply def_records_in in Hr as (m & Hm & ->).
    apply def_record_not_sentinel. apply finditer_match. exact Hm.
Qed.

Lemma no_record_without_punctuation_witness :
  macros_of (T "int f(void);") = []
  /\ types_of (T "int f(void);") = []
  /\ body (proto_record (Mk 0 12 [(3, T "void"); (2, T "f"); (1, T "int")]))
     = no_body.
Proof.
  pose proof (no_record_without_punctuation (T "int f(void);"))
    as (H1 & H2 & _ & H4 & _).
  split; [apply H1; reflexivity|]. split; [apply H2; left; reflexivity|].
  apply H4; [reflexivity|]. vm_compute. left. reflexivity.
Defined.

(* ------------------------------------------------------------------ *)
(** ** One macro per line *)

Lemma macro_match_start b a adv m :
  match_here macro_pattern b a adv = Some m ->
  at_line_start b = true /\ m_start m < m_end m.
Proof.
  intros H. apply match_here_den in H as (e & H & ->). cbn [m_start m_end].
  unfold macro_pattern in H.
  destruct H as (m1 & [-> Hb] & m2 & H2 & m3 & H3 & H).
  apply den_pos in H2, H. cbn [before] in Hb.
  assert (pos m3 = S (pos m2)) by (destruct H3 as [-> _]; reflexivity).
  unfold pos at 1 in H2. cbn [before] in H2. split; [|lia].
  destruct Hb as [->|(b' & ->)]; [reflexivity|]. reflexivity.
Qed.

Lemma walk_macro_lines : forall a b skip,
  length (walk macro_pattern b a skip)
  <= (if at_line_start b then 1 else 0) + count LF a.
Proof.
  assert (Hcons : forall x (a : text),
            (if at_line_start [x] then 1 else 0) + count LF a
            = count LF (x :: a)).
  { intros x a. cbn [at_line_start]. destruct (Ascii.eqb x LF) eqn:E.
    - apply Ascii.eqb_eq in E. subst x. rewrite count_cons_eq. reflexivity.
    - rewrite count_LF_cons by exact E. reflexivity. }
  assert (Hstart : forall x b, at_line_start (x :: b) = at_line_start [x])
    by reflexivity.
  induction a as [|x a IH]; intros b skip.
  - destruct skip; cbn [walk]; [|simpl; lia].
    unfold matches_here. rewrite match_here_macro_end. simpl. lia.
  - destruct skip as [|n]; cbn [walk].
    + unfold matches_here.
      destruct (match_here macro_pattern b (x :: a) false) as [m|] eqn:Hm.
      * destruct (macro_match_start _ _ _ Hm) as [Hb Hlt]. rewrite Hb.
        replace (Nat.eqb (m_end m) (m_start m)) with false
          by (symmetry; apply Nat.eqb_neq; lia).
        cbn [app length].
        specialize (IH (x :: b) (m_end m - m_start m - 1)).
        rewrite Hstart, Hcons in IH. lia.
      * cbn [app]. specialize (IH (x :: b) (0 - 1)).
        rewrite Hstart, Hcons in IH. lia.
    + specialize (IH (x :: b) n). rewrite Hstart, Hcons in IH. lia.
Qed.

(** X18. At most one macro per line: the number of MacroRecords never
    exceeds the number of lines of the source (its line feeds plus one),
    however many defines a line holds. *)
Theorem one_macro_per_line (src : text) :
  length (macros_of src) <= count LF (strip_comments src) + 1
  /\ length (macros_of src) <= count LF src + 1.
Proof.
  assert (H : length (macros_of src) <= count LF (strip_comments src) + 1).
  { unfold macros_of, parse_with_regex. rewrite length_map. unfold finditer.
    pose proof (walk_macro_lines (strip_comments src) [] 0) as H.
    cbn [at_line_start] in H. lia. }
  split; [exact H|].
  pose proof (@Subseq_count LF _ _ (strip_comments_Subseq src)). lia.
Qed.

(* ------------------------------------------------------------------ *)
(** ** Texts without comments *)

Lemma Subseq_same_length : forall s t,
  Subseq s t -> length s = length t -> s = t.
Proof.
  induction 1 as [|x s t H IH|x s t H IH]; intros L; [reflexivity| |].
  - apply Subseq_length in H. simpl in L. lia.
  - simpl in L. f_equal. apply IH. lia.
Qed.

(** X19. A text without comment openers is returned as it is by
    strip_comments; a text that holds a line-comment opener is never
    returned as it is; and whenever the text is changed it gets
    shorter. *)
Theorem comment_free_text_unchanged (t : text) :
  (contains (T "/*") t = false -> contains (T "//") t = false ->
   strip_comments t = t)
  /\ (contains (T "//") t = true -> strip_comments t <> t)
  /\ (strip_comments t = t \/ length (strip_comments t) < length t).
Proof.
  split; [apply strip_comments_id|]. split.
  - intros H E. pose proof (strip_comments_no_line_opener t) as Hn.
    rewrite E in Hn. congruence.
  - pose proof (strip_comments_Subseq t) as Hs.
    pose proof (@Subseq_length _ _ Hs) as Hl.
    destruct (Nat.eq_dec (length (strip_comments t)) (length t)) as [E|E].
    + left. apply Subseq_same_length; assumption.
    + right. lia.
Qed.

Lemma comment_free_text_unchanged_witness :
  strip_comments (T "int f(void);") = T "int f(void);".
Proof.
  apply (proj1 (comment_free_text_unchanged (T "int f(void);")));
    vm_compute; reflexivity.
Defined.

(* ------------------------------------------------------------------ *)
(** ** The function patterns on a function head *)

Lemma exec_cls_fail p c b a cp k :
  p c = false -> exec (Cls p) (St b (c :: a) cp) k = None.
Proof. intros H. simpl. rewrite H. reflexivity. Qed.

Lemma exec_lit_fail c x b a cp k :
  x <> c -> exec (Lit c) (St b (x :: a) cp) k = None.
Proof.
  intros H. simpl. destruct (Ascii.eqb x c) eqn:E; [|reflexivity].
  apply Ascii.eqb_eq in E. congruence.
Qed.

Lemma word_type_char c : is_word c = true -> is_type_char c = true.
Proof. intros H. unfold is_type_char. rewrite H. reflexivity. Qed.

Lemma word_not_space c : is_word c = true -> is_space c = false.
Proof. intros H. apply (word_plain c H). Qed.

Section FunctionText.

Variables (r0 r1 : ascii) (rr : text) (s0 : ascii) (sr : text).
Variables (n0 : ascii) (nr sep2 args sep3 : text) (close : ascii).
Variable tail : text.
Hypothesis Hr0 : is_ident_start r0 = true.
Hypothesis Hr1 : is_word r1 = true.
Hypothesis Hrr : forallb is_word rr = true.
Hypothesis Hs0 : is_space s0 = true.
Hypothesis Hsr : forallb is_space sr = true.
Hypothesis Hn0 : is_ident_start n0 = true.
Hypothesis Hnr : forallb is_word nr = true.
Hypothesis Hsep2 : forallb is_space sep2 = true.
Hypothesis Hargs : mem_char ")" args = false.
Hypothesis Hsep3 : forallb is_space sep3 = true.
Hypothesis Hclose : is_space close = false.

Lemma function_text_shape :
  function_text (r0 :: r1 :: rr) (s0 :: sr) (n0 :: nr) sep2 args sep3 close
    ++ tail
  = r0 :: r1 :: rr ++ s0 :: sr ++ n0 :: nr ++ sep2 ++ "("%char :: args
       ++ ")"%char :: sep3 ++ close :: tail.
Proof.
  unfold function_text. cbn [app].
  repeat (rewrite <- ?app_assoc; cbn [app]; f_equal).
Qed.

Lemma exec_function_text k x :
  k (head_end_state r0 r1 rr s0 sr n0 nr sep2 args sep3 close tail) = Some x ->
  exec (func_head close)
       (St [] (function_text (r0 :: r1 :: rr) (s0 :: sr) (n0 :: nr) sep2 args
                             sep3 close ++ tail) []) k
  = Some x.
Proof.
  intros Hk. rewrite function_text_shape. unfold func_head, Plus, PlusLazy.
  rewrite exec_seq, exec_grp.
  rewrite exec_seq, exec_cls by exact Hr0. cbv beta.
  rewrite exec_seq, exec_cls by (apply word_type_char; exact Hr1). cbv beta.
  apply exec_starlazy_first.
  { apply (forallb_impl is_word); [exact word_type_char|exact Hrr]. }
  { intros c1 y c2 E. unfold set_cap. cbn [before after caps].
    rewrite !exec_seq. apply exec_cls_fail. apply word_not_space.
    rewrite E, forallb_app in Hrr. apply andb_prop in Hrr as [_ H].
    simpl in H. apply andb_prop in H as [H _]. exact H. }
  rewrite (@consumed_app _ _ (r0 :: r1 :: rr))
    by (cbn [before rev]; rewrite <- !app_assoc; reflexivity).
  unfold set_cap. cbn [before after caps].
  rewrite !exec_seq, exec_cls by exact Hs0. cbv beta.
  apply exec_star_max; [exact Hsr| |].
  { cbn [stops]. rewrite (ident_start_not_space n0 Hn0). reflexivity. }
  rewrite exec_seq, exec_grp. unfold ident.
  rewrite exec_seq, exec_cls by exact Hn0. cbv beta.
  apply exec_star_max; [exact Hnr| |].
  { destruct sep2 as [|c2 sep2']; [reflexivity|]. cbn [app stops].
    simpl in Hsep2. apply andb_prop in Hsep2 as [H _].
    destruct (is_word c2) eqn:E; [|reflexivity].
    apply word_not_space in E. congruence. }
  rewrite (@consumed_app _ _ (n0 :: nr))
    by (cbn [before rev]; rewrite <- (app_assoc (rev nr)); reflexivity).
  unfold set_cap. cbn [before after caps].
  rewrite exec_seq. apply exec_star_max; [exact Hsep2|reflexivity|].
  rewrite exec_seq, exec_lit. cbv beta.
  rewrite exec_seq, exec_grp.
  apply exec_starlazy_first; [apply forallb_any| |].
  { intros c1 y c2 E. unfold set_cap. cbn [before after caps].
    rewrite exec_seq. apply exec_lit_fail. intros ->.
    assert (Hin : In ")"%char args)
      by (rewrite E; apply in_or_app; right; left; reflexivity).
    apply mem_char_In in Hin. congruence. }
  rewrite (@consumed_app _ _ args) by reflexivity.
  unfold set_cap. cbn [before after caps].
  rewrite exec_seq, exec_lit. cbv beta.
  rewrite exec_seq. apply exec_star_max; [exact Hsep3| |].
  { cbn [stops]. rewrite Hclose. reflexivity. }
  rewrite exec_lit. exact Hk.
Qed.

Lemma head_end_state_pos :
  pos (head_end_state r0 r1 rr s0 sr n0 nr sep2 args sep3 close tail)
  = length (function_text (r0 :: r1 :: rr) (s0 :: sr) (n0 :: nr) sep2 args
                          sep3 close).
Proof.
  unfold pos, head_end_state, function_text. cbn [before].
  repeat (rewrite ?length_app, ?length_rev; cbn [length]). lia.
Qed.

Lemma match_here_function_text adv :
  match_here (func_head close) []
    (function_text (r0 :: r1 :: rr) (s0 :: sr) (n0 :: nr) sep2 args sep3 close
       ++ tail) adv
  = Some (Mk 0 (length (function_text (r0 :: r1 :: rr) (s0 :: sr) (n0 :: nr)
                                      sep2 args sep3 close))
             [(3, args); (2, n0 :: nr); (1, r0 :: r1 :: rr)]).
Proof.
  unfold match_here.
  rewrite (@exec_function_text _
             (head_end_state r0 r1 rr s0 sr n0 nr sep2 args sep3 close tail)).
  - rewrite head_end_state_pos. reflexivity.
  - rewrite head_end_state_pos. cbn [length app function_text].
    rewrite andb_false_r. reflexivity.
Qed.

End FunctionText.

Lemma match_here_func_head_blank close b a adv :
  match a with [] => True | c :: _ => is_ident_start c = false end ->
  match_here (func_head close) b a adv = None.
Proof.
  intros H. unfold match_here, func_head. rewrite exec_seq, exec_grp, exec_seq.
  destruct a as [|c a]; [reflexivity|]. rewrite exec_cls_fail by exact H.
  reflexivity.
Qed.

(** the scanner finds no function head in whitespace *)
Lemma walk_func_head_blank close : forall a b skip,
  forallb is_space (skipn skip a) = true ->
  walk (func_head close) b a skip = [].
Proof.
  induction a as [|c a IH]; intros b skip H.
  - destruct skip; [|reflexivity]. cbn [walk]. unfold matches_here.
    rewrite match_here_func_head_blank by exact I. reflexivity.
  - destruct skip as [|n]; cbn [walk].
    + cbn [skipn forallb] in H. apply andb_prop in H as [Hc H].
      unfold matches_here. rewrite match_here_func_head_blank.
      * cbn [app Nat.sub]. apply IH. exact H.
      * destruct (is_ident_start c) eqn:E; [|reflexivity].
        apply ident_start_not_space in E. congruence.
    + apply IH. exact H.
Qed.

Lemma walk_skip r : forall p b a,
  walk r b (p ++ a) (length p) = walk r (rev p ++ b) a 0.
Proof.
  induction p as [|c p IH]; intros b a; [reflexivity|].
  cbn [app length walk rev]. rewrite IH, <- app_assoc. reflexivity.
Qed.

(** a non-empty match at the start of the text is the first match *)
Lemma finditer_first r h tail cp :
  h <> [] ->
  match_here r [] (h ++ tail) false = Some (Mk 0 (length h) cp) ->
  finditer r (h ++ tail) = Mk 0 (length h) cp :: walk r (rev h) tail 0.
Proof.
  intros Hne Hm. unfold finditer. destruct h as [|c h]; [congruence|].
  cbn [app] in *. cbn [walk]. unfold matches_here. rewrite Hm.
  cbn [m_start m_end length Nat.eqb app]. f_equal.
  replace (S (length h) - 0 - 1) with (length h) by lia.
  rewrite walk_skip. reflexivity.
Qed.

Lemma function_text_nonempty ret sep1 name sep2 args sep3 close :
  function_text ret sep1 name sep2 args sep3 close <> [].
Proof.
  unfold function_text. intros E.
  repeat (apply app_eq_nil in E as [_ E]). discriminate E.
Qed.

Lemma function_text_last ret sep1 name sep2 args sep3 close :
  function_text ret sep1 name sep2 args sep3 close
  = (ret ++ sep1 ++ name ++ sep2 ++ "("%char :: args ++ ")"%char :: sep3)
      ++ [close].
Proof.
  unfold function_text.
  repeat (progress (rewrite <- ?app_assoc; cbn [app])). reflexivity.
Qed.

Lemma split_ws_word w :
  w <> [] -> forallb is_word w = true -> join (T " ") (split_ws w) = w.
Proof.
  intros Hne Hw. unfold split_ws. rewrite <- (app_nil_r w) at 1.
  rewrite split_ws_from_word.
  - cbn [split_ws_from]. rewrite app_nil_r.
    destruct (rev w) as [|x l] eqn:E.
    + exfalso. apply Hne. rewrite <- (rev_involutive w), E. reflexivity.
    + rewrite <- E, rev_involutive. reflexivity.
  - apply (forallb_impl is_word); [|exact Hw].
    intros c Hc. rewrite (word_not_space c Hc). reflexivity.
Qed.

(** the match of a function pattern at the start of a function head *)
Lemma finditer_function_text ret sep1 name sep2 args sep3 close tail :
  is_identifier ret = true -> 2 <= length ret ->
  sep1 <> [] -> forallb is_space sep1 = true ->
  is_identifier name = true ->
  forallb is_space sep2 = true ->
  mem_char ")" args = false ->
  forallb is_space sep3 = true ->
  is_space close = false ->
  finditer (func_head close)
    (function_text ret sep1 name sep2 args sep3 close ++ tail)
  = Mk 0 (length (function_text ret sep1 name sep2 args sep3 close))
       [(3, args); (2, name); (1, ret)]
    :: walk (func_head close)
         (rev (function_text ret sep1 name sep2 args sep3 close)) tail 0.
Proof.
  intros Hret Hlen H1 Hs1 Hname Hs2 Hargs Hs3 Hclose.
  destruct ret as [|r0 [|r1 rr]]; [discriminate Hret|simpl in Hlen; lia|].
  destruct sep1 as [|s0 sr]; [congruence|].
  destruct name as [|n0 nr]; [discriminate Hname|].
  simpl in Hret, Hs1, Hname.
  apply andb_prop in Hret as [Hr0 Hrr]. apply andb_prop in Hrr as [Hr1 Hrr].
  apply andb_prop in Hs1 as [Hs0 Hsr]. apply andb_prop in Hname as [Hn0 Hnr].
  apply finditer_first; [apply function_text_nonempty|].
  apply match_here_function_text; assumption.
Qed.

(** X20. A source that consists of one prototype (a one-word return type
    of two characters or more, whitespace, the name, the parenthesised
    parameter text, a semicolon, and whitespace around them), with no
    brace and no comment opener, yields exactly one FunctionRecord: its
    name and return type are those of the text, its arguments are those
    of the parameter text, and its body is the sentinel. *)
Theorem prototype_of_one_declaration
    (ret sep1 name sep2 args sep3 trail : text) :
  let src := function_text ret sep1 name sep2 args sep3 ";" ++ trail in
  is_identifier ret = true -> 2 <= length ret ->
  sep1 <> [] -> forallb is_space sep1 = true ->
  is_identifier name = true ->
  forallb is_space sep2 = true ->
  mem_char ")" args = false ->
  forallb is_space sep3 = true ->
  forallb is_space trail = true ->
  mem_char "{" src = false ->
  contains (T "/*") src = false -> contains (T "//") src = false ->
  apis_of src
  = [Fn name ret (length (split_args args)) (split_args args) no_body
        (fn_comment_of name (length (split_args args)) ret)].
Proof.
  intros src Hret Hlen H1 Hs1 Hname Hs2 Hargs Hs3 Htrail Hbrace Hblock Hline.
  rewrite apis_of_eq. rewrite (strip_comments_id _ Hblock Hline).
  unfold def_records, kept_protos, func_def_pattern, proto_pattern.
  rewrite (@finditer_needs "{"%char (func_head "{") src eq_refl)
    by (intros Hin; apply mem_char_In in Hin; congruence).
  unfold src.
  rewrite (@finditer_function_text ret sep1 name sep2 args sep3 ";" trail)
    by (assumption || reflexivity).
  rewrite walk_func_head_blank by exact Htrail.
  cbn [map app filter in_names existsb negb].
  unfold proto_record, group_text, group. cbn [m_caps lookup Nat.eqb].
  rewrite split_ws_word; [reflexivity| |].
  - intros ->. discriminate Hret.
  - destruct ret as [|c r]; [discriminate Hret|]. simpl in Hret.
    apply andb_prop in Hret as [Hc Hr]. simpl.
    rewrite (ident_start_word c Hc). exact Hr.
Qed.

Lemma prototype_of_one_declaration_witness :
  apis_of (function_text (T "int") (T " ") (T "add") [] (T "int a, int b") []
             ";" ++ [LF])
  = [Fn (T "add") (T "int") (length (split_args (T "int a, int b")))
        (split_args (T "int a, int b")) no_body
        (fn_comment_of (T "add") (length (split_args (T "int a, int b")))
                       (T "int"))].
Proof.
  apply prototype_of_one_declaration;
    try discriminate; try (vm_compute; reflexivity); vm_compute; lia.
Defined.

(** X21. A source that starts with the head of a function definition (a
    one-word return type of two characters or more, whitespace, the name,
    the parenthesised parameter text, an opening brace) and holds no
    comment opener yields first the FunctionRecord of this definition:
    the name and the return type of the text, the arguments of the
    parameter text, and as body the trimmed brace scan from the opening
    brace on. *)
Theorem definition_of_function_head
    (ret sep1 name sep2 args sep3 rest : text) :
  let src := function_text ret sep1 name sep2 args sep3 "{" ++ rest in
  is_identifier ret = true -> 2 <= length ret ->
  sep1 <> [] -> forallb is_space sep1 = true ->
  is_identifier name = true ->
  forallb is_space sep2 = true ->
  mem_char ")" args = false ->
  forallb is_space sep3 = true ->
  contains (T "/*") src = false -> contains (T "//") src = false ->
  exists more,
    apis_of src
    = Fn name ret (length (split_args args)) (split_args args)
         (strip (fst (brace_scan ("{"%char :: rest) 0)))
         (fn_comment_of name (length (split_args args)) ret) :: more.
Proof.
  intros src Hret Hlen H1 Hs1 Hname Hs2 Hargs Hs3 Hblock Hline.
  rewrite apis_of_eq. rewrite (strip_comments_id _ Hblock Hline).
  unfold def_records, func_def_pattern. unfold src at 2.
  rewrite (@finditer_function_text ret sep1 name sep2 args sep3 "{" rest)
    by (assumption || reflexivity).
  cbn [map app]. eexists. f_equal.
  unfold def_record, group_text, group. cbn [m_caps lookup Nat.eqb m_end].
  assert (Hscan : scan_of src
            (Mk 0 (length (function_text ret sep1 name sep2 args sep3 "{"))
                [(3, args); (2, name); (1, ret)])
          = brace_scan ("{"%char :: rest) 0).
  { unfold scan_of, src. cbn [m_end]. f_equal.
    rewrite function_text_last, length_app, <- app_assoc. cbn [length app].
    rewrite Nat.add_sub, skipn_app, skipn_all, Nat.sub_diag. reflexivity. }
  rewrite Hscan. cbn [brace_scan Ascii.eqb Bool.eqb].
  destruct (brace_scan rest (0 + 1)) as [b d]. cbn [fst].
  rewrite strip_cons by reflexivity.
  rewrite split_ws_word; [reflexivity| |].
  - intros ->. discriminate Hret.
  - destruct ret as [|c r]; [discriminate Hret|]. simpl in Hret.
    apply andb_prop in Hret as [Hc Hr]. simpl.
    rewrite (ident_start_word c Hc). exact Hr.
Qed.

Lemma definition_of_function_head_witness :
  exists more,
    apis_of (function_text (T "int") (T " ") (T "one") [] (T "void") (T " ")
               "{" ++ T " return 1; }")
    = Fn (T "one") (T "int") (length (split_args (T "void")))
         (split_args (T "void"))
         (strip (fst (brace_scan ("{"%char :: T " return 1; }") 0)))
         (fn_comment_of (T "one") (length (split_args (T "void"))) (T "int"))
      :: more.
Proof.
  apply definition_of_function_head;
    try discriminate; try (vm_compute; reflexivity); vm_compute; lia.
Defined.

(* ------------------------------------------------------------------ *)
(** ** Splitting the joined arguments again *)

Lemma split_loop_token : forall tok rest args d cur,
  nosplit d tok = true ->
  split_loop (tok ++ rest) args d cur
  = split_loop rest args (depth_after d tok) (rev tok ++ cur).
Proof.
  induction tok as [|c tok IH]; intros rest args d cur H; [reflexivity|].
  cbn [nosplit] in H. apply andb_prop in H as [Hc H].
  apply negb_true_iff in Hc. cbn [app split_loop depth_after rev].
  rewrite Hc. fold (depth_step d c). rewrite (IH _ _ _ _ H), <- app_assoc.
  reflexivity.
Qed.

Lemma nosplit_app : forall x y d,
  nosplit d (x ++ y) = (nosplit d x && nosplit (depth_after d x) y)%bool.
Proof.
  induction x as [|c x IH]; intros y d; [reflexivity|].
  cbn [app nosplit depth_after]. rewrite IH, andb_assoc. reflexivity.
Qed.

Lemma depth_after_app : forall x y d,
  depth_after d (x ++ y) = depth_after (depth_after d x) y.
Proof.
  induction x as [|c x IH]; intros y d; [reflexivity|].
  cbn [app depth_after]. apply IH.
Qed.

Lemma space_neutral c d :
  is_space c = true ->
  depth_step d c = d /\ Ascii.eqb c "," = false.
Proof.
  intros H. unfold depth_step.
  destruct (Ascii.eqb c "(") eqn:E1;
    [apply Ascii.eqb_eq in E1; subst c; discriminate H|].
  destruct (Ascii.eqb c ")") eqn:E2;
    [apply Ascii.eqb_eq in E2; subst c; discriminate H|].
  destruct (Ascii.eqb c ",") eqn:E3;
    [apply Ascii.eqb_eq in E3; subst c; discriminate H|].
  split; reflexivity.
Qed.

Lemma blanks_neutral : forall ws d,
  forallb is_space ws = true -> nosplit d ws = true /\ depth_after d ws = d.
Proof.
  induction ws as [|c ws IH]; intros d H; [split; reflexivity|].
  simpl in H. apply andb_prop in H as [Hc H].
  destruct (space_neutral c d Hc) as [Hd Hcomma].
  cbn [nosplit depth_after]. rewrite Hd, Hcomma. apply IH. exact H.
Qed.

Lemma strip_parts x :
  exists pre post, x = pre ++ strip x ++ post
    /\ forallb is_space pre = true /\ forallb is_space post = true.
Proof.
  unfold strip, lstrip_with.
  destruct (dropwhile_suffix is_space x) as (pre & Hx & Hpre).
  destruct (rstrip_with_prefix is_space (dropwhile is_space x))
    as (post & Hd & Hpost).
  exists pre, post. split; [|split; assumption].
  rewrite <- Hd. exact Hx.
Qed.

Lemma strip_neutral x d :
  nosplit d (strip x) = nosplit d x
  /\ depth_after d (strip x) = depth_after d x.
Proof.
  destruct (strip_parts x) as (pre & post & Hx & Hpre & Hpost).
  rewrite Hx at 2 4.
  destruct (blanks_neutral pre d Hpre) as [Hn1 Hd1].
  rewrite !nosplit_app, !depth_after_app, Hn1, Hd1.
  destruct (blanks_neutral post (depth_after d (strip x)) Hpost) as [Hn2 Hd2].
  rewrite Hn2, Hd2, andb_true_r. split; reflexivity.
Qed.

(** what the loop has put aside are texts without a top-level comma that
    end at depth zero; the text being read has no top-level comma *)
Lemma split_loop_invariant : forall cs args d cur args' cur',
  split_loop cs args d cur = (args', cur') ->
  Forall (fun x => nosplit 0 x = true /\ depth_after 0 x = 0%Z) args ->
  nosplit 0 (rev cur) = true -> depth_after 0 (rev cur) = d ->
  Forall (fun x => nosplit 0 x = true /\ depth_after 0 x = 0%Z) args'
  /\ nosplit 0 (rev cur') = true.
Proof.
  induction cs as [|c cs IH]; intros args d cur args' cur' H Ha Hn Hd.
  - injection H as <- <-. split; assumption.
  - cbn [split_loop] in H.
    destruct (Ascii.eqb c "," && Z.eqb d 0)%bool eqn:E.
    + apply andb_prop in E as [_ E]. apply Z.eqb_eq in E. subst d.
      apply (IH _ _ _ _ _ H); [|reflexivity|reflexivity].
      constructor; [|exact Ha].
      destruct (strip_neutral (rev cur) 0) as [-> ->]. auto.
    + fold (depth_step d c) in H.
      apply (IH _ _ _ _ _ H); [exact Ha| |].
      * cbn [rev]. rewrite nosplit_app, Hn, Hd. cbn [nosplit].
        rewrite E. reflexivity.
      * cbn [rev]. rewrite depth_after_app, Hd. reflexivity.
Qed.

Lemma Forall_removelast {A} (P : A -> Prop) l :
  Forall P l -> Forall P (removelast l).
Proof.
  rewrite !Forall_forall. intros H x Hx. apply H, In_removelast. exact Hx.
Qed.

Lemma split_tokens_chain s :
  Forall (fun x => nosplit 0 x = true) (split_tokens s)
  /\ Forall (fun x => depth_after 0 x = 0%Z) (removelast (split_tokens s))
  /\ Forall (fun x => trimmed x = true) (split_tokens s).
Proof.
  assert (Htr : Forall (fun x => trimmed x = true) (split_tokens s)).
  { apply Forall_forall. intros x Hx. rewrite split_tokens_spec in Hx.
    apply spec_tokens_stripped in Hx as (p & ->). apply strip_trimmed. }
  unfold split_tokens in *.
  destruct (split_loop s [] 0 []) as [args cur] eqn:E.
  destruct (@split_loop_invariant _ _ _ _ _ _ E (Forall_nil _) eq_refl eq_refl)
    as [Ha Hc].
  assert (Ha1 : Forall (fun x => nosplit 0 x = true) (rev args)).
  { apply Forall_rev. eapply Forall_impl; [|exact Ha].
    intros a [H _]. exact H. }
  assert (Ha2 : Forall (fun x => depth_after 0 x = 0%Z) (rev args)).
  { apply Forall_rev. eapply Forall_impl; [|exact Ha].
    intros a [_ H]. exact H. }
  pose proof (strip_neutral (rev cur) 0) as [Hs _].
  destruct (strip (rev cur)) as [|x tok].
  - split; [exact Ha1|]. split; [|exact Htr].
    apply Forall_removelast. exact Ha2.
  - cbn [rev] in *. split; [|split; [|exact Htr]].
    + apply Forall_app. split; [exact Ha1|].
      constructor; [|constructor]. rewrite Hs. exact Hc.
    + rewrite removelast_last. exact Ha2.
Qed.

Lemma split_loop_comma r args cur :
  split_loop (","%char :: r) args 0 cur
  = split_loop r (strip (rev cur) :: args) 0 [].
Proof. reflexivity. Qed.

Lemma split_loop_blank r args d cur :
  split_loop (" "%char :: r) args d cur = split_loop r args d (" "%char :: cur).
Proof. reflexivity. Qed.

Lemma strip_after_blanks ws x :
  forallb is_space ws = true -> trimmed x = true -> strip (ws ++ x) = x.
Proof.
  intros Hws Hx. rewrite <- (trimmed_strip x Hx) at 2.
  unfold strip, lstrip_with. rewrite dropwhile_app_all by exact Hws.
  reflexivity.
Qed.

(** the loop on the tokens joined by a comma and a blank *)
Lemma split_loop_join : forall ts args cur,
  ts <> [] ->
  Forall (fun x => nosplit 0 x = true) ts ->
  Forall (fun x => depth_after 0 x = 0%Z) (removelast ts) ->
  Forall (fun x => trimmed x = true) ts ->
  forallb is_space cur = true ->
  exists cur', forallb is_space cur' = true
    /\ split_loop (join (T ", ") ts) args 0 cur
       = (rev (removelast ts) ++ args, rev (last ts []) ++ cur').
Proof.
  induction ts as [|x ts IH]; intros args cur Hne Hn Hd Ht Hcur; [congruence|].
  inversion Hn as [|? ? Hnx Hn']; subst.
  inversion Ht as [|? ? Htx Ht']; subst.
  destruct ts as [|y r].
  - exists cur. split; [exact Hcur|]. cbn [join removelast last rev app].
    rewrite <- (app_nil_r x) at 1. rewrite (@split_loop_token x [] args 0%Z cur Hnx).
    reflexivity.
  - rewrite join_cons2.
    change (T ", " ++ join (T ", ") (y :: r))
      with (","%char :: " "%char :: join (T ", ") (y :: r)).
    change (removelast (x :: y :: r)) with (x :: removelast (y :: r)) in *.
    inversion Hd as [|? ? Hdx Hd']; subst.
    rewrite (@split_loop_token x _ args 0%Z cur Hnx), Hdx.
    rewrite split_loop_comma, split_loop_blank.
    rewrite rev_app_distr, rev_involutive.
    rewrite strip_after_blanks;
      [|rewrite forallb_forall in *; intros c Hc; apply Hcur, in_rev; exact Hc
       |exact Htx].
    destruct (IH (x :: args) [" "%char]) as (cur' & Hc' & E);
      [discriminate|exact Hn'|exact Hd'|exact Ht'|reflexivity|].
    exists cur'. split; [exact Hc'|]. rewrite E.
    change (last (x :: y :: r) []) with (last (y :: r) []).
    cbn [rev]. rewrite <- app_assoc. reflexivity.
Qed.

Lemma join_nonempty sep : forall ts : list text,
  last ts [] <> [] -> join sep ts <> [].
Proof.
  induction ts as [|x ts IH]; intros H; [exact H|].
  destruct ts as [|y r]; [exact H|].
  rewrite join_cons2. intros E. apply app_eq_nil in E as [_ E].
  apply app_eq_nil in E as [_ E]. exact (IH H E).
Qed.

Lemma join_last sep d : forall ts : list text,
  last ts [] <> [] -> last (join sep ts) d = last (last ts []) d.
Proof.
  induction ts as [|x ts IH]; intros H; [exfalso; apply H; reflexivity|].
  destruct ts as [|y r]; [reflexivity|].
  rewrite join_cons2, app_assoc.
  rewrite last_app_nonempty by (apply join_nonempty; exact H).
  apply IH. exact H.
Qed.

Lemma trimmed_ends t d :
  t <> [] ->
  (exists c r, t = c :: r /\ is_space c = false) ->
  is_space (last t d) = false -> trimmed t = true.
Proof.
  intros Hne (c & r & -> & Hc) Hl. cbn [trimmed]. rewrite Hc.
  rewrite <- (last_cons_default r c d), Hl. reflexivity.
Qed.

Lemma trimmed_last t d : t <> [] -> trimmed t = true -> is_space (last t d) = false.
Proof.
  destruct t as [|c r]; [congruence|]. intros _ H. cbn [trimmed] in H.
  apply andb_prop in H as [_ H]. apply negb_true_iff in H.
  rewrite (last_cons_default r c d). exact H.
Qed.

Lemma join_trimmed ts :
  Forall (fun x => trimmed x = true) ts -> last ts [] <> [] ->
  trimmed (join (T ", ") ts) = true.
Proof.
  intros Ht Hl. apply (@trimmed_ends _ " "%char).
  - apply join_nonempty. exact Hl.
  - destruct ts as [|x ts]; [exfalso; apply Hl; reflexivity|].
    inversion Ht as [|? ? Hx _]; subst.
    destruct x as [|c x].
    + destruct ts as [|y r]; [exfalso; apply Hl; reflexivity|]. rewrite join_cons2.
      eexists _, _. split; reflexivity.
    + cbn [trimmed] in Hx. apply andb_prop in Hx as [Hc _].
      apply negb_true_iff in Hc.
      destruct ts as [|y r]; [|rewrite join_cons2];
        eexists _, _; (split; [reflexivity|exact Hc]).
  - rewrite join_last by exact Hl. apply trimmed_last; [exact Hl|].
    rewrite Forall_forall in Ht. apply Ht.
    destruct ts as [|x ts]; [exfalso; apply Hl; reflexivity|].
    destruct (@exists_last _ (x :: ts)) as (l & a & E); [discriminate|].
    rewrite E, last_last. apply in_or_app. right. left. reflexivity.
Qed.

(** X22. Splitting again what was split: when the raw texts of the
    records are joined by a comma and a blank, split_args gives the same
    records again, provided the last raw text is not empty and the joined
    text is not the sole token void. *)
Theorem split_args_round_trip (arg_text : text) :
  let raws := map raw (split_args arg_text) in
  last raws [] <> [] ->
  lower (join (T ", ") raws) <> T "void" ->
  split_args (join (T ", ") raws) = split_args arg_text.
Proof.
  intros raws Hl Hv.
  assert (Hraw : forall ts, map raw (map arg_record ts) = ts).
  { intros ts. rewrite map_map. rewrite <- (map_id ts) at 2.
    apply map_ext. intros a. apply arg_record_parts. }
  assert (Hs : split_args arg_text
               = map arg_record (split_tokens (strip arg_text))).
  { unfold split_args.
    destruct (text_eqb (strip arg_text) []
              || text_eqb (lower (strip arg_text)) (T "void"))%bool eqn:E;
      [|reflexivity].
    exfalso. apply Hl. unfold raws, split_args. rewrite E. reflexivity. }
  unfold raws in *. rewrite Hs in *. rewrite Hraw in *.
  set (ts := split_tokens (strip arg_text)) in *.
  destruct (split_tokens_chain (strip arg_text)) as (Hn & Hd & Ht).
  fold ts in Hn, Hd, Ht.
  assert (Hne : ts <> []) by (intros E; rewrite E in Hl; apply Hl; reflexivity).
  pose proof (join_trimmed Ht Hl) as Htr.
  pose proof (join_nonempty (T ", ") ts Hl) as Hj.
  unfold split_args. rewrite (trimmed_strip _ Htr).
  destruct (text_eqb (join (T ", ") ts) []) eqn:E1;
    [apply text_eqb_eq in E1; contradiction|].
  destruct (text_eqb (lower (join (T ", ") ts)) (T "void")) eqn:E2;
    [apply text_eqb_eq in E2; contradiction|].
  cbn [orb]. f_equal. unfold split_tokens at 1.
  destruct (@split_loop_join ts [] [] Hne Hn Hd Ht eq_refl) as (cur' & Hc & ->).
  rewrite rev_app_distr, rev_involutive.
  rewrite strip_after_blanks;
    [|rewrite forallb_forall in *; intros c Hin; apply Hc, in_rev; exact Hin
     |rewrite Forall_forall in Ht; apply Ht;
      destruct (@exists_last _ ts Hne) as (l & a & E); rewrite E, last_last;
      apply in_or_app; right; left; reflexivity].
  destruct (last ts []) as [|c0 tok] eqn:El; [congruence|].
  rewrite app_nil_r. cbn [rev]. rewrite rev_involutive, <- El.
  symmetry. apply app_removelast_last. exact Hne.
Qed.

Lemma split_args_round_trip_witness :
  split_args (join (T ", ") (map raw (split_args args_fnptr)))
  = split_args args_fnptr.
Proof.
  apply split_args_round_trip; vm_compute; discriminate.
Defined.

(* ------------------------------------------------------------------ *)
(** ** The struct pattern on a struct typedef *)

Lemma exec_opt_none r1 st k :
  exec r1 st k = None -> exec (Opt r1) st k = k st.
Proof. intros H. cbn [exec]. rewrite H. reflexivity. Qed.

Section StructTypedef.

Variables (bd : text) (c0 : ascii) (nr : text).
Hypothesis Hbd : forallb (fun c => negb (Ascii.eqb c "}")) bd = true.
Hypothesis Hc0 : is_ident_start c0 = true.
Hypothesis Hnr : forallb is_word nr = true.

(** from the opening brace on *)
Lemma exec_struct_tail b k x :
  k (St (";"%char :: rev nr ++ c0 :: " "%char :: "}"%char :: rev bd
           ++ "{"%char :: b) [] [(2, c0 :: nr); (1, bd)]) = Some x ->
  exec (Lit "{" ;; Grp 1 (StarLazy is_any) ;; Lit "}" ;; Star is_space ;;
        Grp 2 ident ;; Star is_space ;; Lit ";")
       (St b ("{"%char :: bd ++ "}"%char :: " "%char :: c0 :: nr
                ++ [";"%char]) []) k
  = Some x.
Proof.
  intros Hk. rewrite exec_seq, exec_lit. cbv beta.
  rewrite exec_seq, exec_grp.
  apply exec_starlazy_first; [apply forallb_any| |].
  - intros c1 y c2 E. unfold set_cap. cbn [before after caps].
    rewrite exec_seq. apply exec_lit_fail. intros ->.
    rewrite E, forallb_app in Hbd. apply andb_prop in Hbd as [_ H].
    simpl in H. discriminate H.
  - rewrite (@consumed_app _ _ bd) by reflexivity. unfold set_cap.
    cbn [before after caps].
    rewrite exec_seq, exec_lit. cbv beta.
    rewrite exec_seq.
    apply (@exec_star_max is_space [" "%char]); [reflexivity| |].
    { cbn [stops]. rewrite (ident_start_not_space c0 Hc0). reflexivity. }
    rewrite exec_seq, exec_grp. unfold ident.
    rewrite exec_seq, exec_cls by exact Hc0. cbv beta.
    apply exec_star_max; [exact Hnr|reflexivity|].
    rewrite (@consumed_app _ _ (c0 :: nr))
      by (cbn [before rev]; rewrite <- (app_assoc (rev nr)); reflexivity).
    unfold set_cap. cbn [before after caps rev app].
    rewrite exec_seq, exec_star_stop by reflexivity.
    rewrite exec_lit. exact Hk.
Qed.

Variable tag : option text.
Hypothesis Htag :
  match tag with Some t => is_identifier t = true | None => True end.

Lemma struct_typedef_shape :
  struct_typedef tag bd (c0 :: nr)
  = T "typedef" ++ " "%char :: T "struct" ++ [" "%char]
      ++ match tag with Some t => t ++ [" "%char] | None => [] end
      ++ "{"%char :: bd ++ "}"%char :: " "%char :: c0 :: nr ++ [";"%char].
Proof.
  unfold struct_typedef. destruct tag; cbn [T list_ascii_of_string app];
    repeat (rewrite <- ?app_assoc; cbn [app]; f_equal).
Qed.

Lemma exec_struct_typedef k x :
  k (struct_end_state tag bd c0 nr) = Some x ->
  exec struct_pattern (St [] (struct_typedef tag bd (c0 :: nr)) []) k = Some x.
Proof.
  intros Hk. rewrite struct_typedef_shape. unfold struct_pattern, Plus.
  rewrite exec_seq, exec_word. cbv beta.
  rewrite !exec_seq, exec_cls by reflexivity. cbv beta.
  rewrite exec_star_stop by reflexivity.
  rewrite exec_seq, exec_word. cbv beta.
  rewrite exec_seq.
  apply (@exec_star_max is_space [" "%char]); [reflexivity| |].
  { destruct tag as [[|t0 tr]|]; try reflexivity; try discriminate Htag.
    simpl in Htag. apply andb_prop in Htag as [H0 _]. cbn [app stops].
    rewrite (ident_start_not_space t0 H0). reflexivity. }
  rewrite exec_seq.
  destruct tag as [[|t0 tr]|]; [discriminate Htag| |].
  - simpl in Htag. apply andb_prop in Htag as [H0 Hr].
    apply exec_opt_some. unfold ident.
    rewrite !exec_seq. cbn [app]. rewrite exec_cls by exact H0. cbv beta.
    rewrite <- app_assoc.
    apply exec_star_max; [exact Hr|reflexivity|].
    apply (@exec_star_max is_space [" "%char]); [reflexivity|reflexivity|].
    apply exec_struct_tail.
    unfold struct_end_state, struct_front in Hk. cbn [rev app] in *.
    rewrite <- !app_assoc in *. exact Hk.
  - cbn [app]. rewrite exec_opt_none.
    + apply exec_struct_tail. exact Hk.
    + unfold ident. rewrite !exec_seq. apply exec_cls_fail. reflexivity.
Qed.

Lemma struct_end_state_pos :
  pos (struct_end_state tag bd c0 nr) = length (struct_typedef tag bd (c0 :: nr)).
Proof.
  rewrite struct_typedef_shape. unfold pos, struct_end_state, struct_front.
  cbn [before].
  destruct tag; repeat (rewrite ?length_app, ?length_rev; cbn [length]); lia.
Qed.

Lemma match_here_struct_typedef adv :
  match_here struct_pattern [] (struct_typedef tag bd (c0 :: nr)) adv
  = Some (Mk 0 (length (struct_typedef tag bd (c0 :: nr)))
             [(2, c0 :: nr); (1, bd)]).
Proof.
  unfold match_here.
  rewrite (@exec_struct_typedef _ (struct_end_state tag bd c0 nr)).
  - rewrite struct_end_state_pos. reflexivity.
  - rewrite struct_end_state_pos. cbn [length].
    replace (Nat.eqb (length (struct_typedef tag bd (c0 :: nr))) 0) with false;
      [rewrite andb_false_r; reflexivity|].
    symmetry. apply Nat.eqb_neq. rewrite struct_typedef_shape. discriminate.
Qed.

Lemma match_here_struct_end b adv : match_here struct_pattern b [] adv = None.
Proof. reflexivity. Qed.

(** the struct pattern matches the whole typedef, once *)
Lemma finditer_struct_typedef :
  finditer struct_pattern (struct_typedef tag bd (c0 :: nr))
  = [Mk 0 (length (struct_typedef tag bd (c0 :: nr))) [(2, c0 :: nr); (1, bd)]].
Proof.
  rewrite <- (app_nil_r (struct_typedef tag bd (c0 :: nr))) at 1.
  rewrite (@finditer_first struct_pattern _ [] [(2, c0 :: nr); (1, bd)]).
  - reflexivity.
  - rewrite struct_typedef_shape. discriminate.
  - rewrite app_nil_r. apply match_here_struct_typedef.
Qed.

End StructTypedef.

(** X23. A source that is one struct typedef, with or without a tag,
    whose body holds one member declaration per line (a type, a blank,
    the member name, a semicolon) and no closing brace, with no comment
    opener, yields one struct TypeRecord: the type name as typedef_name,
    the member names in declaration order and their number.  It is the
    last type record; any record before it is of kind enum. *)
Theorem struct_typedef_end_to_end
    (tag : option text) (ls : list StructLine) (nm : text) :
  let src := struct_typedef tag (render_struct_body ls) nm in
  forallb wf_struct_line ls = true ->
  is_identifier nm = true ->
  match tag with Some t => is_identifier t = true | None => True end ->
  forallb (fun c => negb (Ascii.eqb c "}")) (render_struct_body ls) = true ->
  contains (T "/*") src = false -> contains (T "//") src = false ->
  exists before,
    types_of src
    = before ++ [Typ (Some nm) KStruct (length ls) (map sl_name ls)
                     (type_comment_of nm (length ls))]
    /\ Forall (fun r => kind r = KEnum) before.
Proof.
  intros src Hwf Hid Htag Hbd Hblock Hline.
  destruct nm as [|c0 nr]; [discriminate Hid|].
  simpl in Hid. apply andb_prop in Hid as [Hc0 Hnr].
  exists (map enum_record (finditer enum_pattern src)). split.
  - unfold types_of, parse_with_regex.
    rewrite (strip_comments_id _ Hblock Hline). f_equal. unfold src.
    rewrite (@finditer_struct_typedef (render_struct_body ls) c0 nr
               Hbd Hc0 Hnr tag Htag).
    cbn [map]. f_equal. apply struct_record_lines; [reflexivity|exact Hwf].
  - apply Forall_forall. intros r Hr.
    apply in_map_iff in Hr as (m & <- & _). reflexivity.
Qed.

Lemma struct_typedef_end_to_end_witness :
  exists before,
    types_of (struct_typedef (Some (T "point")) (render_struct_body lines_point)
                (T "Point"))
    = before ++ [Typ (Some (T "Point")) KStruct (length lines_point)
                     (map sl_name lines_point)
                     (type_comment_of (T "Point") (length lines_point))]
    /\ Forall (fun r => kind r = KEnum) before.
Proof.
  apply struct_typedef_end_to_end; try exact I; vm_compute; reflexivity.
Defined.
